(** * oasis-core: consensus multiplexer, registry, key manager and key splitting

    A shallow embedding of the Go sources the specification talks about,
    followed by the properties proved about them.

    - [Alg]: bit keys of the authenticated data structure ([storage/alg]).
    - [Staking]: the supplementary sanity check of the staking ledger.
    - [Registry]: the [registerNode] transaction of the registry application.
    - [Mux]: the ABCI application multiplexer.
    - [KeyManager]: key manager status recomputation on epoch change.

    Go [int]/[uint64] values are [Z]; bytes are [Z] in [0, 256); a Go
    [panic] is [None] (or a dedicated constructor) of the result type. *)

From Stdlib Require Import ZArith Lia.
From stdpp Require Import base option list gmap strings sorting.

(* ===================================================================== *)
(** ** Bit keys ([package alg]) *)
(* ===================================================================== *)

Module Alg.
Local Open Scope Z_scope.

(** [type Key struct { k []byte; msbBix int }].  [NewKey] requires
    [len(k) <= MaxInt/8], so that no [int] computation on bit indices
    overflows: they are computed in [Z], with Go's truncating [/] and [%]
    as [Z.quot] and [Z.rem]. *)
Record Key := mkKey { k : list Z; msbBix : Z }.

(** Conversion of an integer to [byte]: the low eight bits. *)
Definition toByte (x : Z) : Z := x mod 256.

(** [s[i]] on a byte slice; out of range panics. *)
Definition index (l : list Z) (i : Z) : option Z :=
  if decide (0 <= i) then l !! Z.to_nat i else None.

Definition NewKey (externalKey : list Z) : Key := mkKey externalKey 0.

Definition EmptyKey : Key := mkKey [] 0.

Definition Clone (key : Key) : Key := mkKey (k key) (msbBix key).

Definition NumBits (key : Key) : Z :=
  8 * Z.of_nat (length (k key)) - msbBix key.

Definition GetBit (key : Key) (bix : Z) : option Z :=
  if decide (bix < 0 \/ NumBits key <= bix) then None
  else
    let kix := msbBix key + bix in
    b ← index (k key) (Z.quot kix 8);
    Some (Z.land (Z.shiftr b (7 - Z.rem kix 8)) 1).

Definition SetBit (key : Key) (bix v : Z) : option Key :=
  if decide (bix < 0 \/ NumBits key <= bix) then None
  else if decide (v <> 0 /\ v <> 1) then None
  else
    let kix := msbBix key + bix in
    let off := Z.quot kix 8 in
    let bitpos := 7 - Z.rem kix 8 in
    old ← index (k key) off;
    Some (mkKey
            (<[Z.to_nat off :=
                 Z.lor (Z.ldiff old (toByte (Z.shiftl 1 bitpos)))
                       (toByte (Z.shiftl v bitpos))]> (k key))
            (msbBix key)).

Definition DropBits (key : Key) (count : Z) : option Key :=
  if decide (count < 0 \/ NumBits key < count) then None
  else Some (mkKey (k key) (msbBix key + count)).

(** The loop [for jx := 0; jx < ix; jx++ { b := sfx.GetBit(jx); pfx.SetBit(jx, b) }];
    [n] counts the remaining iterations. *)
Fixpoint copyBits (sfx pfx : Key) (jx : Z) (n : nat) : option Key :=
  match n with
  | O => Some pfx
  | S n' =>
      b ← GetBit sfx jx;
      pfx' ← SetBit pfx jx b;
      copyBits sfx pfx' (jx + 1) n'
  end.

Definition SplitAtObviouslyCorrect (key : Key) (ix : Z) : option (Key * Key) :=
  if decide (ix < 0 \/ NumBits key < ix) then None
  else
    let nbytes := Z.quot (ix + 7) 8 in
    let pfx := mkKey (replicate (Z.to_nat nbytes) 0) (8 * nbytes - ix) in
    let sfx := Clone key in
    pfx' ← copyBits sfx pfx 0 (Z.to_nat ix);
    sfx' ← DropBits sfx ix;
    Some (pfx', sfx').

(** The shift-copy loop of [SplitAt]:
    [for kx := nb; kx > 0; { kx--; ...; pfxK[kx] = partial; ...; jx-- }]. *)
Fixpoint shiftCopy (kk : list Z) (numHiBits numLowBits : Z)
    (kx : nat) (jx partial : Z) (pfxK : list Z) : option (list Z) :=
  match kx with
  | O => Some pfxK
  | S kx' =>
      b ← (if decide (0 <= jx) then index kk jx else Some 0);
      let partial' := Z.lor partial (toByte (Z.shiftl b numHiBits)) in
      shiftCopy kk numHiBits numLowBits kx' (jx - 1)
        (Z.shiftr b numLowBits) (<[kx' := partial']> pfxK)
  end.

Definition SplitAt (key : Key) (ix : Z) : option (Key * Key) :=
  if decide (ix < 0 \/ NumBits key < ix) then None
  else
    let splitBix := ix + msbBix key in
    if decide (Z.rem splitBix 8 = 0) then
      if decide (0 <= Z.quot splitBix 8 <= Z.of_nat (length (k key))) then
        Some (mkKey (take (Z.to_nat (Z.quot splitBix 8)) (k key)) (msbBix key),
              mkKey (k key) splitBix)
      else None
    else
      let nb := Z.quot (ix + 7) 8 in
      let pfxK := replicate (Z.to_nat nb) 0 in
      let boundary := Z.quot splitBix 8 in
      let numHiBits := Z.rem splitBix 8 in
      let numLowBits := 8 - numHiBits in
      kb ← index (k key) boundary;
      let partial := Z.shiftr kb numLowBits in
      let jx := boundary - 1 in
      pfxK' ← shiftCopy (k key) numHiBits numLowBits (Z.to_nat nb) jx partial pfxK;
      Some (mkKey pfxK' (8 * nb - ix), mkKey (k key) splitBix).

(** *** The other operations of [key.go], and [node.go] *)

(** [const MaxInt = int(^uint(0) >> 1)], for a 64-bit [int]. *)
Definition MaxInt : Z := 2 ^ 63 - 1.

(** The loop [for ix := uint(0); ix < 16; ix++ { s[ix] = byte(nb >> (8 * (16 - 1 - ix))) }]
    of [HashData]. *)
Definition headerByte (nb : Z) (ix : nat) : Z :=
  toByte (Z.shiftr nb (8 * (16 - 1 - Z.of_nat ix))).

Definition lengthHeader (nb : Z) (s : list Z) : list Z :=
  foldl (fun s ix => <[ix := headerByte nb ix]> s) s (seq 0 16).

Definition HashData (key : Key) : option (list Z * list Z) :=
  let nb := NumBits key in
  let s := lengthHeader nb (replicate 17 0) in
  let msbPos := Z.quot (msbBix key) 8 in
  b ← index (k key) msbPos;
  let s := <[16%nat := Z.land b (toByte (Z.shiftl 1 (8 - Z.rem (msbBix key) 8) - 1))]> s in
  Some (s, drop (Z.to_nat (msbPos + 1)) (k key)).

Definition IsEmpty (key : Key) : bool := bool_decide (NumBits key = 0).

Definition MSB (key : Key) : option Z :=
  if IsEmpty key then None
  else
    b ← index (k key) (Z.quot (msbBix key) 8);
    Some (Z.land (Z.shiftr b (7 - Z.rem (msbBix key) 8)) 1).

Definition MSBAndDerive (key : Key) : option (Z * Key) :=
  b ← MSB key;
  Some (b, mkKey (k key) (msbBix key + 1)).

(** The loop [for ix := 0; ix < nb; ix++ { if k.GetBit(ix) != other.GetBit(ix)
    { return false } }] of [Equals] and [IsPrefixOf]; [n] counts the
    remaining iterations. *)
Fixpoint sameBits (key other : Key) (ix : Z) (n : nat) : option bool :=
  match n with
  | O => Some true
  | S n' =>
      x ← GetBit key ix;
      y ← GetBit other ix;
      if decide (x <> y) then Some false
      else sameBits key other (ix + 1) n'
  end.

Definition Equals (key other : Key) : option bool :=
  let nb := NumBits key in
  if decide (nb <> NumBits other) then Some false
  else sameBits key other 0 (Z.to_nat nb).

Definition IsPrefixOf (key other : Key) : option bool :=
  let kbits := NumBits key in
  if decide (kbits > NumBits other) then Some false
  else sameBits key other 0 (Z.to_nat kbits).

Definition min (a b : Z) : Z := if decide (a < b) then a else b.

(** The loop of [DiffAt]: the comparison at the first differing bit
    below [lim], if there is one. *)
Fixpoint firstDiff (key other : Key) (ix : Z) (n : nat) : option (option (Z * Z)) :=
  match n with
  | O => Some None
  | S n' =>
      kb ← GetBit key ix;
      ob ← GetBit other ix;
      if decide (kb <> ob) then
        Some (Some (if decide (kb = 0) then (-1, ix) else (1, ix)))
      else firstDiff key other (ix + 1) n'
  end.

Definition DiffAt (key other : Key) : option (Z * Z) :=
  let nkb := NumBits key in
  let nob := NumBits other in
  let lim := min nkb nob in
  found ← firstDiff key other 0 (Z.to_nat lim);
  match found with
  | Some r => Some r
  | None =>
      if decide (nkb < nob) then
        ob ← GetBit other nkb;
        Some (if decide (ob = 0) then (1, nkb) else (-1, nkb))
      else if decide (nkb > nob) then
        kb ← GetBit key nob;
        Some (if decide (kb = 0) then (-1, nob) else (1, nob))
      else Some (0, nkb)
  end.

Definition cmp (key other : Key) : option Z :=
  r ← DiffAt key other;
  Some r.1.

(** [Hash.IsNull] of [node.go]: the loop over the first [sha256.Size]
    bytes. *)
Definition sha256Size : nat := 32.

Fixpoint allZeroFrom (h : list Z) (i : nat) (n : nat) : option bool :=
  match n with
  | O => Some true
  | S n' =>
      b ← h !! i;
      if decide (b <> 0) then Some false
      else allZeroFrom h (S i) n'
  end.

Definition IsNull (h : list Z) : option bool := allZeroFrom h 0 sha256Size.

Definition nullHash : list Z := replicate sha256Size 0.

Section NodeHash.

(** [crypto/sha256]: the digest of the bytes written to the hasher. *)
Variable sha256Sum : list Z -> list Z.

(** [HashNodeData] of [node.go]; [hasher.Sum(rh)] appends the digest of
    what was written to [rh] and returns the resulting slice. *)
Definition HashNodeData (lh vh rh : list Z) (compressed : Key)
  : option (list Z) :=
  '(pfx, sfx) ← HashData compressed;
  Some (rh ++ sha256Sum (lh ++ vh ++ pfx ++ sfx)).

End NodeHash.

(** A key as the constructors of the package build it: every element of the
    slice is a byte and the descriptor's index lies within the slice. *)
Definition wf (key : Key) : Prop :=
  Forall (fun b => 0 <= b < 256) (k key) /\
  0 <= msbBix key <= 8 * Z.of_nat (length (k key)).

(** *** Specification vocabulary *)

(** Bit [p] (msb first) of a byte slice, as a boolean. *)
Definition bitAt (l : list Z) (p : Z) : bool :=
  Z.testbit (nth (Z.to_nat (p / 8)) l 0) (7 - p mod 8).

(** Byte [j] of a slice, reading 0 before its start. *)
Definition byteOr0 (l : list Z) (j : Z) : Z :=
  if decide (0 <= j) then nth (Z.to_nat j) l 0 else 0.

(** Two keys are bitwise equal: same number of bits and the same bit at
    every position (what [Key.Equals] tests). *)
Definition bitwiseEqual (a b : Key) : Prop :=
  NumBits a = NumBits b /\
  forall j, 0 <= j < NumBits a ->
    exists bit, GetBit a j = Some bit /\ GetBit b j = Some bit.

Definition bit01 (x : Z) : Prop := x = 0 \/ x = 1.

(** The bit string a key stands for: what [GetBit] returns at the
    positions [0 .. NumBits - 1]. *)
Definition bits (key : Key) : list Z :=
  omap (fun j => GetBit key (Z.of_nat j)) (seq 0 (Z.to_nat (NumBits key))).

(** Bit [j] of a key, read off its slice. *)
Definition bitOf (key : Key) (j : nat) : Z :=
  Z.b2z (bitAt (k key) (msbBix key + Z.of_nat j)).

(** The comparison of two bit strings from position [i] on, as [DiffAt]
    orders keys: the first differing position decides, and a string that
    ends there lies between the other's extension by 0 and by 1. *)
Fixpoint compareBits (la lb : list Z) (i : Z) : Z * Z :=
  match la, lb with
  | [], [] => (0, i)
  | [], y :: _ => if decide (y = 0) then (1, i) else (-1, i)
  | x :: _, [] => if decide (x = 0) then (-1, i) else (1, i)
  | x :: la', y :: lb' =>
      if decide (x <> y) then (if decide (x = 0) then (-1, i) else (1, i))
      else compareBits la' lb' (i + 1)
  end.

End Alg.

(* ===================================================================== *)
(** ** Staking ledger sanity check ([supplementarysanity.checkStaking]) *)
(* ===================================================================== *)

Module Staking.
Local Open Scope Z_scope.

Definition PublicKey := Z.
Definition EpochTime := Z.

(** Modelled from the spec: [quantity.Quantity] is absent from the sources;
    a quantity is an integer amount that is valid when it is not negative
    ("no operation may reduce any balance below zero"), and [Add] of an
    invalid quantity fails and leaves the receiver unchanged. *)
Definition Quantity := Z.

Definition IsValid (q : Quantity) : bool := 0 <=? q.

Definition Add (q n : Quantity) : option string * Quantity :=
  if IsValid n then (None, q + n) else (Some "invalid quantity"%string, q).

Definition Cmp (q n : Quantity) : Z :=
  match q ?= n with Lt => -1 | Eq => 0 | Gt => 1 end.

Record SharePool := mkSharePool { Balance : Quantity; TotalShares : Quantity }.

(** [staking.Account], with the commission schedule left opaque. *)
Record Account := mkAccount {
  General : Quantity;
  EscrowActive : SharePool;
  EscrowDebonding : SharePool;
  Nonce : Z;
  CommissionSchedule : Z
}.

Record Delegation := mkDelegation { Shares : Quantity }.

Record DebondingDelegation := mkDebondingDelegation {
  DebShares : Quantity;
  DebondEndTime : EpochTime
}.

Inductive result (A : Type) : Type :=
| Ok (a : A)
| Err (msg : string).
Arguments Ok {A} a.
Arguments Err {A} msg.

(** The staking state as [stakingState.MutableState]'s accessors present
    it; an accessor that reads the tree can fail. [Account] returns the
    zero account for an unknown id and cannot fail. *)
Record MutableState := mkState {
  ConsensusParameters : result Z;
  TotalSupply : result Quantity;
  CommonPool : result Quantity;
  Accounts : result (list PublicKey);
  GetAccount : PublicKey -> Account;
  LastBlockFees : result Quantity;
  Delegations : result (gmap PublicKey (gmap PublicKey Delegation));
  DebondingDelegations :
    result (gmap PublicKey (gmap PublicKey (list DebondingDelegation)))
}.

(** Where [checkStaking] returns an error. *)
Inductive CheckError : Type :=
| EConsensusParameters (msg : string)
| ETotalSupply (msg : string)
| ETotalSupplyInvalid (q : Quantity)
| ECommonPool (msg : string)
| ECommonPoolInvalid (q : Quantity)
| EAccounts (msg : string)
| ESanityCheckAccount (id : PublicKey) (msg : string)
| ELastBlockFees (msg : string)
| ELastBlockFeesInvalid (q : Quantity)
| ESupplyMismatch (total totalSupply : Quantity)
| EDelegations (msg : string)
| ESanityCheckDelegations (acct : PublicKey) (msg : string)
| EDebondingDelegations (msg : string)
| ESanityCheckDebondingDelegations (acct : PublicKey) (msg : string)
| ESanityCheckAccountShares (id : PublicKey) (msg : string).

Section Check.

(** The commission schedule validation done by [SanityCheckAccount]
    ([PruneAndValidateForGenesis]); not in the sources. *)
Variable commissionScheduleValid : Z -> EpochTime -> Account -> bool.

(** Modelled from the spec: [staking.SanityCheckAccount] is absent from the
    sources. It rejects an account with an invalid balance, adds the
    general, active escrow and debonding escrow balances to the running
    total and validates the commission schedule. *)
Definition SanityCheckAccount (total : Quantity) (parameters : Z)
    (now : EpochTime) (id : PublicKey) (acct : Account)
  : option string * Quantity :=
  if negb (IsValid (General acct)) then
    (Some "general balance is invalid"%string, total)
  else if negb (IsValid (Balance (EscrowActive acct))) then
    (Some "escrow active balance is invalid"%string, total)
  else if negb (IsValid (Balance (EscrowDebonding acct))) then
    (Some "escrow debonding balance is invalid"%string, total)
  else
    let total := (Add total (General acct)).2 in
    let total := (Add total (Balance (EscrowActive acct))).2 in
    let total := (Add total (Balance (EscrowDebonding acct))).2 in
    if commissionScheduleValid parameters now acct then (None, total)
    else (Some "commission schedule is invalid"%string, total).

Definition sumShares (ds : list Quantity) : Quantity :=
  foldr (fun s acc => (Add acc s).2) 0 ds.

(** Modelled from the spec: [staking.SanityCheckDelegations] is absent; all
    shares of all delegations to an account add up to the account's
    active escrow total shares. *)
Definition SanityCheckDelegations (acct : Account)
    (delegations : gmap PublicKey Delegation) : option string :=
  let shares := sumShares (Shares <$> (map_to_list delegations).*2) in
  if Cmp shares (TotalShares (EscrowActive acct)) =? 0 then None
  else Some "delegation shares do not add up"%string.

(** Modelled from the spec: [staking.SanityCheckDebondingDelegations] is
    absent; the same for the debonding escrow total shares. *)
Definition SanityCheckDebondingDelegations (acct : Account)
    (delegations : gmap PublicKey (list DebondingDelegation)) : option string :=
  let shares :=
    sumShares (DebShares <$> concat (map_to_list delegations).*2) in
  if Cmp shares (TotalShares (EscrowDebonding acct)) =? 0 then None
  else Some "debonding delegation shares do not add up"%string.

(** Modelled from the spec: [staking.SanityCheckAccountShares] is absent;
    both share invariants for one account, a missing map entry counting as
    no delegations. *)
Definition SanityCheckAccountShares (acct : Account)
    (delegations : option (gmap PublicKey Delegation))
    (debondingDelegations : option (gmap PublicKey (list DebondingDelegation)))
  : option string :=
  match SanityCheckDelegations acct (default ∅ delegations) with
  | Some e => Some e
  | None => SanityCheckDebondingDelegations acct (default ∅ debondingDelegations)
  end.

(** [for _, id := range accounts { err = staking.SanityCheckAccount(&total, ...) }] *)
Fixpoint checkAccounts (st : MutableState) (parameters : Z) (now : EpochTime)
    (total : Quantity) (accounts : list PublicKey)
  : option CheckError * Quantity :=
  match accounts with
  | [] => (None, total)
  | id :: rest =>
      match SanityCheckAccount total parameters now id (GetAccount st id) with
      | (Some e, total') => (Some (ESanityCheckAccount id e), total')
      | (None, total') => checkAccounts st parameters now total' rest
      end
  end.

(** A [for k, v := range m] loop that returns the first error. *)
Fixpoint firstError {A : Type} (f : A -> option CheckError) (l : list A)
  : option CheckError :=
  match l with
  | [] => None
  | x :: rest => match f x with Some e => Some e | None => firstError f rest end
  end.

Definition checkStaking (st : MutableState) (now : EpochTime)
  : option CheckError :=
  match ConsensusParameters st with
  | Err e => Some (EConsensusParameters e)
  | Ok parameters =>
  match TotalSupply st with
  | Err e => Some (ETotalSupply e)
  | Ok totalSupply =>
  if negb (IsValid totalSupply) then Some (ETotalSupplyInvalid totalSupply) else
  match CommonPool st with
  | Err e => Some (ECommonPool e)
  | Ok commonPool =>
  if negb (IsValid commonPool) then Some (ECommonPoolInvalid commonPool) else
  match Accounts st with
  | Err e => Some (EAccounts e)
  | Ok accounts =>
  match checkAccounts st parameters now 0 accounts with
  | (Some e, _) => Some e
  | (None, total) =>
  match LastBlockFees st with
  | Err e => Some (ELastBlockFees e)
  | Ok totalFees =>
  if negb (IsValid totalFees) then Some (ELastBlockFeesInvalid commonPool) else
  let total := (Add total commonPool).2 in
  let total := (Add total totalFees).2 in
  if negb (Cmp total totalSupply =? 0) then
    Some (ESupplyMismatch total totalSupply)
  else
  match Delegations st with
  | Err e => Some (EDelegations e)
  | Ok delegationses =>
  match firstError
          (fun '(acct, delegations) =>
             ESanityCheckDelegations acct <$>
               SanityCheckDelegations (GetAccount st acct) delegations)
          (map_to_list delegationses) with
  | Some e => Some e
  | None =>
  match DebondingDelegations st with
  | Err e => Some (EDebondingDelegations e)
  | Ok debondingDelegationses =>
  match firstError
          (fun '(acct, debondingDelegations) =>
             ESanityCheckDebondingDelegations acct <$>
               SanityCheckDebondingDelegations (GetAccount st acct)
                 debondingDelegations)
          (map_to_list debondingDelegationses) with
  | Some e => Some e
  | None =>
  firstError
    (fun id =>
       ESanityCheckAccountShares id <$>
         SanityCheckAccountShares (GetAccount st id)
           (delegationses !! id) (debondingDelegationses !! id))
    accounts
  end end end end end end end end end end.

(** The left-hand side of the supply equation over the listed accounts. *)
Definition accountBalance (a : Account) : Z :=
  General a + Balance (EscrowActive a) + Balance (EscrowDebonding a).

Definition ledgerSum (st : MutableState) (accounts : list PublicKey)
    (commonPool totalFees : Quantity) : Z :=
  foldr (fun id acc => accountBalance (GetAccount st id) + acc) 0 accounts
  + commonPool + totalFees.

(** The supply equation holds for the state [st]. *)
Definition supplyConserved (st : MutableState) : Prop :=
  exists accounts commonPool totalFees totalSupply,
    Accounts st = Ok accounts /\ CommonPool st = Ok commonPool /\
    LastBlockFees st = Ok totalFees /\ TotalSupply st = Ok totalSupply /\
    ledgerSum st accounts commonPool totalFees = totalSupply.

End Check.

(** A ledger of one account holding the whole supply whose active escrow
    records five shares although nobody delegated to it. *)
Definition lonelyAccount : Account :=
  mkAccount 10 (mkSharePool 0 5) (mkSharePool 0 0) 0 0.

Definition unbackedShares : MutableState :=
  mkState (Ok 0) (Ok 10) (Ok 0) (Ok [1])
    (fun id => if decide (id = 1) then lonelyAccount
               else mkAccount 0 (mkSharePool 0 0) (mkSharePool 0 0) 0 0)
    (Ok 0) (Ok ∅) (Ok ∅).

(** A consistent ledger: one account with balance 7, common pool 2 and
    last block fees 1 for a supply of 10. *)
Definition smallLedger : MutableState :=
  mkState (Ok 0) (Ok 10) (Ok 2) (Ok [1])
    (fun id => if decide (id = 1)
               then mkAccount 7 (mkSharePool 0 0) (mkSharePool 0 0) 0 0
               else mkAccount 0 (mkSharePool 0 0) (mkSharePool 0 0) 0 0)
    (Ok 1) (Ok ∅) (Ok ∅).

End Staking.

(* ===================================================================== *)
(** ** Registry application: [registerNode] *)
(* ===================================================================== *)

Module Registry.
Local Open Scope Z_scope.

Definition PublicKey := Z.
Definition Namespace := Z.
Definition EpochTime := Z.

(** Go [error] values: the sentinels of the registry package that
    [registerNode] names, an error wrapped by [fmt.Errorf("...: %w", err)],
    and any other error value, identified by a code. *)
Inductive error : Type :=
| ErrInvalidArgument
| ErrForbidden
| ErrNodeExpired
| ErrBadEntityForNode
| ErrIncorrectTxSigner
| ErrNoSuchNode
| ErrNoSuchRuntime
| ErrWrapped (msg : string) (e : error)
| ErrOther (code : Z).

#[global] Instance error_eq_dec : EqDecision error.
Proof. solve_decision. Defined.

Inductive res (A : Type) : Type :=
| Ok (a : A)
| Err (e : error).
Arguments Ok {A} a.
Arguments Err {A} e.

(** [uint64] arithmetic and the conversion of a 64-bit pattern to [int]. *)
Definition wrap64 (x : Z) : Z := x mod 2 ^ 64.
Definition toInt (x : Z) : Z := (x + 2 ^ 63) mod 2 ^ 64 - 2 ^ 63.

Record NodeRuntime := mkNodeRuntime { nrID : Namespace }.

Record Node := mkNode {
  ID : PublicKey;
  EntityID : PublicKey;
  Expiration : Z;
  Runtimes : list NodeRuntime;
  Roles : Z
}.

Record SignedNode := mkSignedNode {
  Blob : list Z;
  SignaturePublicKey : PublicKey
}.

Record Entity := mkEntity {
  entID : PublicKey;
  AllowEntitySignedNodes : bool;
  entNodes : list PublicKey
}.

(** [RuntimeAdmissionPolicy]: two optional variants; [EntityWhitelist]
    carries [Entities map[signature.PublicKey]bool]. *)
Record RuntimeAdmissionPolicy := mkPolicy {
  AnyNode : option unit;
  EntityWhitelist : option (gmap PublicKey bool)
}.

Record Runtime := mkRuntime {
  rtID : Namespace;
  AdmissionPolicy : RuntimeAdmissionPolicy
}.

Record NodeStatus := mkNodeStatus {
  ExpirationProcessed : bool;
  FreezeEndTime : EpochTime
}.

Inductive GasOp : Type :=
| GasOpRegisterEntity
| GasOpDeregisterEntity
| GasOpRegisterNode
| GasOpUnfreezeNode
| GasOpRegisterRuntime
| GasOpRuntimeEpochMaintenance.

Inductive ThresholdKind : Type := KindEntity.

Record ConsensusParameters := mkParams {
  DebugBypassStake : bool;
  GasCosts : GasOp -> Z
}.

Inductive ContextMode : Type :=
| ContextInitChain
| ContextCheckTx
| ContextDeliverTx
| ContextSimulateTx
| ContextBeginBlock
| ContextEndBlock.

#[global] Instance ContextMode_eq_dec : EqDecision ContextMode.
Proof. solve_decision. Defined.

Inductive Event : Type :=
| EvRuntimeRegistered (rt : Runtime)
| EvNodeRegistered (n : Node).

(** What [registerNode] calls and the sources do not contain: the state
    accessors of [registryState] and [stakingState], the argument
    verifiers of [registry/api], the gas accountant behind [ctx.Gas()],
    the epoch time source and CBOR decoding. [Tree] is the mutable state
    tree behind [ctx.State()]; reads are functions of the tree, writes
    return the new tree (and an error, if any). *)
Class Backend := {
  Tree : Type;
  GasAccountant : Type;
  StakeCache : Type;
  UseGas : Z -> GasOp -> (GasOp -> Z) -> GasAccountant -> option error * GasAccountant;
  decodeNode : list Z -> res Node;
  stEntity : Tree -> PublicKey -> res Entity;
  stConsensusParameters : Tree -> res ConsensusParameters;
  VerifyRegisterNodeArgs :
    ConsensusParameters -> SignedNode -> Entity -> Z -> bool -> Tree ->
    res (Node * list Runtime);
  stRuntime : Tree -> Namespace -> res Runtime;
  NewStakeCache : Tree -> res StakeCache;
  EnsureSufficientStake : StakeCache -> PublicKey -> list ThresholdKind -> option error;
  EnsureNodeRegistrationStake : StakeCache -> PublicKey -> Z -> option error;
  stNumEntityNodes : Tree -> PublicKey -> res Z;
  GetEpoch : Z -> res EpochTime;
  stNode : Tree -> PublicKey -> res Node;
  IsExpired : Node -> Z -> bool;
  stSetNode : Node -> SignedNode -> Tree -> option error * Tree;
  stNodeStatus : Tree -> PublicKey -> res NodeStatus;
  stSetNodeStatus : PublicKey -> NodeStatus -> Tree -> option error * Tree;
  VerifyNodeUpdate : Node -> Node -> option error;
  stResumeRuntime : Namespace -> Tree -> option error * Tree
}.

Section App.
Context `{B : Backend}.

(** [abci.Context], as far as [registerNode] uses it. *)
Record Context := mkContext {
  mode : ContextMode;
  now : Z;
  txSigner : PublicKey;
  blockHeight : Z;
  gas : GasAccountant;
  events : list Event;
  state : Tree
}.

Definition setGas (g : GasAccountant) (ctx : Context) : Context :=
  mkContext (mode ctx) (now ctx) (txSigner ctx) (blockHeight ctx) g
    (events ctx) (state ctx).

Definition setState (t : Tree) (ctx : Context) : Context :=
  mkContext (mode ctx) (now ctx) (txSigner ctx) (blockHeight ctx) (gas ctx)
    (events ctx) t.

Definition addEvent (ev : Event) (ctx : Context) : Context :=
  mkContext (mode ctx) (now ctx) (txSigner ctx) (blockHeight ctx) (gas ctx)
    (events ctx ++ [ev]) (state ctx).

(** Modelled from the spec: [Context.IsCheckOnly] and [IsInitChain] are
    absent from the sources; they test the context's mode. *)
Definition IsCheckOnly (ctx : Context) : bool := bool_decide (mode ctx = ContextCheckTx).
Definition IsInitChain (ctx : Context) : bool := bool_decide (mode ctx = ContextInitChain).

(** Computations that read and update the context and may return an error. *)
Definition M (A : Type) : Type := Context -> res A * Context.

Definition ret {A} (a : A) : M A := fun ctx => (Ok a, ctx).
Definition fail {A} (e : error) : M A := fun ctx => (Err e, ctx).
Definition bind {A C} (m : M A) (f : A -> M C) : M C :=
  fun ctx => match m ctx with
             | (Ok a, ctx') => f a ctx'
             | (Err e, ctx') => (Err e, ctx')
             end.

#[global] Instance M_ret : MRet M := @ret.
#[global] Instance M_bind : MBind M := fun A C f m => bind m f.

(** A fallible read of the state tree. *)
Definition readState {A} (f : Tree -> res A) : M A :=
  fun ctx => (f (state ctx), ctx).

(** A write to the state tree; [wrap] is the error returned when it fails. *)
Definition writeState (f : Tree -> option error * Tree) (wrap : error -> error)
  : M unit :=
  fun ctx => match f (state ctx) with
             | (None, t) => (Ok tt, setState t ctx)
             | (Some e, t) => (Err (wrap e), setState t ctx)
             end.

Definition check (r : option error) : M unit :=
  match r with None => ret tt | Some e => fail e end.

(** [ctx.Gas().UseGas(n, op, costs)] *)
Definition useGas (n : Z) (op : GasOp) (costs : GasOp -> Z) : M unit :=
  fun ctx => match UseGas n op costs (gas ctx) with
             | (None, g) => (Ok tt, setGas g ctx)
             | (Some e, g) => (Err e, setGas g ctx)
             end.

Definition emitEvent (ev : Event) : M unit := fun ctx => (Ok tt, addEvent ev ctx).

(** Modelled from the spec: [Context.NewStateCheckpoint] is absent from the
    sources. "[handle.rollback()] reverts all state writes since the
    checkpoint; [handle.close()] makes them permanent."  The body runs
    under [defer func() { if !ok { sc.Rollback() }; sc.Close() }()], and
    [ok] is set exactly when the body reaches its end. *)
Definition withStateCheckpoint {A} (body : M A) : M A :=
  fun ctx =>
    let sc := state ctx in
    match body ctx with
    | (Ok a, ctx') => (Ok a, ctx')
    | (Err e, ctx') => (Err e, setState sc ctx')
    end.

(** The runtime's admission policy policyAllows the entity:
    not ([EntityWhitelist != nil && !EntityWhitelist.Entities[id]]). *)
Definition policyAllows (rt : Runtime) (entity : PublicKey) : bool :=
  match EntityWhitelist (AdmissionPolicy rt) with
  | Some entities => default false (entities !! entity)
  | None => true
  end.

(** From the start of the body to the transaction signer check. *)
Definition verifyAndCharge (sigNode : SignedNode)
  : M (ConsensusParameters * Node * list Runtime) :=
  untrustedNode ← (fun ctx => (decodeNode (Blob sigNode), ctx));
  untrustedEntity ← readState (fun t => stEntity t (EntityID untrustedNode));
  params ← readState stConsensusParameters;
  '(newNode, paidRuntimes) ←
    (fun ctx => (VerifyRegisterNodeArgs params sigNode untrustedEntity (now ctx)
                   (IsInitChain ctx) (state ctx), ctx));
  (if decide (SignaturePublicKey sigNode = EntityID newNode)
   then useGas 1 GasOpRegisterNode (GasCosts params)
   else ret tt);;
  (fun ctx =>
     if negb (IsInitChain ctx)
        && negb (bool_decide (SignaturePublicKey sigNode = txSigner ctx))
     then (Err ErrIncorrectTxSigner, ctx)
     else (Ok tt, ctx));;
  ret (params, newNode, paidRuntimes).

(** [for _, nrt := range newNode.Runtimes]: check runtime's whitelist. *)
Fixpoint checkWhitelist (entity : PublicKey) (rts : list NodeRuntime) : M unit :=
  match rts with
  | [] => ret tt
  | nrt :: rest =>
      rt ← readState (fun t => stRuntime t (nrID nrt));
      if negb (policyAllows rt entity) then fail ErrForbidden
      else checkWhitelist entity rest
  end.

(** Re-check that the entity has sufficient stake to still be an entity. *)
Definition checkEntityStake (params : ConsensusParameters) (newNode : Node)
  : M (option StakeCache * Z) :=
  if negb (DebugBypassStake params) then
    stakeCache ← readState NewStakeCache;
    check (EnsureSufficientStake stakeCache (EntityID newNode) [KindEntity]);;
    numEntityNodes ← readState (fun t => stNumEntityNodes t (EntityID newNode));
    ret (Some stakeCache, numEntityNodes)
  else ret (None, 0).

(** Ensure node is not expired at the epoch of the next block. *)
Definition checkNotExpired (newNode : Node) : M EpochTime :=
  epoch ← (fun ctx => (GetEpoch (toInt (blockHeight ctx + 1)), ctx));
  if decide (Expiration newNode <= epoch) then fail ErrNodeExpired
  else ret epoch.

(** Check if node exists: [None] for a new node. *)
Definition lookupExisting (newNode : Node) : M (option Node) :=
  fun ctx =>
    match stNode (state ctx) (ID newNode) with
    | Ok existingNode => (Ok (Some existingNode), ctx)
    | Err err =>
        if decide (err = ErrNoSuchNode) then (Ok None, ctx)
        else (Err ErrInvalidArgument, ctx)
    end.

Definition isNewNode (existingNode : option Node) : bool :=
  match existingNode with None => true | Some _ => false end.

Definition isExpiredNode (existingNode : option Node) (epoch : EpochTime) : bool :=
  match existingNode with None => false | Some n => IsExpired n epoch end.

(** The number of maintenance fee units: one per paid runtime and
    additional epoch. *)
Definition feeCount (newNode : Node) (existingNode : option Node)
    (epoch : EpochTime) (paidRuntimes : list Runtime) : Z :=
  let additionalEpochs := wrap64 (Expiration newNode - epoch) in
  let additionalEpochs :=
    match existingNode with
    | Some existing =>
        if negb (isNewNode existingNode) && negb (isExpiredNode existingNode epoch)
        then
          let remainingEpochs := wrap64 (Expiration existing - epoch) in
          if decide (additionalEpochs > remainingEpochs)
          then wrap64 (additionalEpochs - remainingEpochs)
          else 0
        else additionalEpochs
    | None => additionalEpochs
    end in
  toInt (Z.of_nat (length paidRuntimes) * toInt additionalEpochs).

Definition ensureNodeStake (params : ConsensusParameters)
    (stakeCache : option StakeCache) (entity : PublicKey) (n : Z) : M unit :=
  if negb (DebugBypassStake params) then
    match stakeCache with
    | Some sc => check (EnsureNodeRegistrationStake sc entity n)
    | None => ret tt
    end
  else ret tt.

(** [for _, rt := range paidRuntimes]: resume suspended runtimes. *)
Fixpoint resumeRuntimes (paidRuntimes : list Runtime) : M unit :=
  match paidRuntimes with
  | [] => ret tt
  | rt :: rest =>
      fun ctx =>
        match stResumeRuntime (rtID rt) (state ctx) with
        | (None, t) =>
            resumeRuntimes rest (addEvent (EvRuntimeRegistered rt) (setState t ctx))
        | (Some err, t) =>
            if decide (err = ErrNoSuchRuntime)
            then resumeRuntimes rest (setState t ctx)
            else (Err (ErrWrapped "failed to resume suspended runtime" err),
                  setState t ctx)
        end
  end.

(** The part of [registerNode] that runs under the state checkpoint. *)
Definition applyRegistration (params : ConsensusParameters)
    (sigNode : SignedNode) (newNode : Node) (paidRuntimes : list Runtime)
    (stakeCache : option StakeCache) (numEntityNodes : Z)
    (existingNode : option Node) (epoch : EpochTime) : M unit :=
  (if isNewNode existingNode || isExpiredNode existingNode epoch then
     ensureNodeStake params stakeCache (EntityID newNode)
       (toInt (numEntityNodes + 1));;
     writeState (stSetNode newNode sigNode) (fun _ => ErrBadEntityForNode);;
     status ←
       match existingNode with
       | Some _ =>
           fun ctx =>
             match stNodeStatus (state ctx) (ID newNode) with
             | Ok status => (Ok (mkNodeStatus false (FreezeEndTime status)), ctx)
             | Err _ => (Err ErrInvalidArgument, ctx)
             end
       | None => ret (mkNodeStatus false 0)
       end;
     writeState (stSetNodeStatus (ID newNode) status) (fun _ => ErrInvalidArgument)
   else
     ensureNodeStake params stakeCache (EntityID newNode) numEntityNodes;;
     match existingNode with
     | Some existing => check (VerifyNodeUpdate existing newNode)
     | None => ret tt
     end;;
     writeState (stSetNode newNode sigNode) (fun _ => ErrBadEntityForNode));;
  resumeRuntimes paidRuntimes.

Definition registerNode (ctx : Context) (sigNode : SignedNode)
  : option error * Context :=
  if IsCheckOnly ctx then (None, ctx)
  else
    let body : M unit :=
      '(params, newNode, paidRuntimes) ← verifyAndCharge sigNode;
      checkWhitelist (EntityID newNode) (Runtimes newNode);;
      '(stakeCache, numEntityNodes) ← checkEntityStake params newNode;
      epoch ← checkNotExpired newNode;
      existingNode ← lookupExisting newNode;
      useGas (feeCount newNode existingNode epoch paidRuntimes)
        GasOpRuntimeEpochMaintenance (GasCosts params);;
      withStateCheckpoint
        (applyRegistration params sigNode newNode paidRuntimes stakeCache
           numEntityNodes existingNode epoch);;
      emitEvent (EvNodeRegistered newNode)
    in
    match body ctx with
    | (Ok _, ctx') => (None, ctx')
    | (Err e, ctx') => (Some e, ctx')
    end.

(** The steps of [registerNode] from the maintenance charge on, and the
    steps after the arguments are verified: named suffixes of the body,
    used to state lemmas about a run.  [protect] is what the registration
    runs under: [withStateCheckpoint] in [registerNode]. *)
Definition chargeAndApply (protect : M unit -> M unit) (sigNode : SignedNode)
    (params : ConsensusParameters) (newNode : Node)
    (paidRuntimes : list Runtime) (stakeCache : option StakeCache)
    (numEntityNodes : Z) (existingNode : option Node) (epoch : EpochTime)
  : M unit :=
  useGas (feeCount newNode existingNode epoch paidRuntimes)
    GasOpRuntimeEpochMaintenance (GasCosts params);;
  protect
    (applyRegistration params sigNode newNode paidRuntimes stakeCache
       numEntityNodes existingNode epoch);;
  emitEvent (EvNodeRegistered newNode).

Definition afterVerify (protect : M unit -> M unit) (sigNode : SignedNode)
    (params : ConsensusParameters) (newNode : Node)
    (paidRuntimes : list Runtime) : M unit :=
  checkWhitelist (EntityID newNode) (Runtimes newNode);;
  '(stakeCache, numEntityNodes) ← checkEntityStake params newNode;
  epoch ← checkNotExpired newNode;
  existingNode ← lookupExisting newNode;
  chargeAndApply protect sigNode params newNode paidRuntimes stakeCache
    numEntityNodes existingNode epoch.

(** The body of [registerNode] run without the state checkpoint: where a
    failing registration stops, with everything it has done so far. *)
Definition registerUnprotected (sigNode : SignedNode) : M unit :=
  '(params, newNode, paidRuntimes) ← verifyAndCharge sigNode;
  afterVerify (fun body => body) sigNode params newNode paidRuntimes.

Definition toResult (r : res unit * Context) : option error * Context :=
  match r with
  | (Ok _, ctx') => (None, ctx')
  | (Err e, ctx') => (Some e, ctx')
  end.

(** The additional epochs a registration pays for, in the words of the
    specification: the whole registration for a new or expired node, and
    for a live node the excess of the new registration's epochs over the
    epochs remaining on the existing one. *)
Definition additionalEpochs (newNode : Node) (existingNode : option Node)
    (epoch : EpochTime) : Z :=
  match existingNode with
  | Some existing =>
      if IsExpired existing epoch then Expiration newNode - epoch
      else Z.max 0 ((Expiration newNode - epoch) - (Expiration existing - epoch))
  | None => Expiration newNode - epoch
  end.

(** The runtime is loaded and its admission policy policyAllows the entity. *)
Definition allowedRuntime (t : Tree) (entity : PublicKey) (nrt : NodeRuntime) : Prop :=
  exists rt, stRuntime t (nrID nrt) = Ok rt /\ policyAllows rt entity = true.

(** The helpers called after the expiry check report errors of their own. *)
Definition laterErrorsDistinct : Prop :=
  (forall n op costs g, (UseGas n op costs g).1 <> Some ErrNodeExpired) /\
  (forall sc id n, EnsureNodeRegistrationStake sc id n <> Some ErrNodeExpired) /\
  (forall a b, VerifyNodeUpdate a b <> Some ErrNodeExpired).

End App.

(** *** An in-memory backend

    Modelled from the spec: the registry and staking state, the verifiers
    and the gas accountant are absent from the sources.  This backend keeps
    the registry in finite maps, decodes a node from the list
    [id; entity; expiration; roles; runtime ids...], charges gas against a
    cap ("deducts and fails with OutOfGas if the cap would be exceeded")
    and places an epoch every ten blocks.  It serves to run [registerNode]
    on concrete inputs. *)
Record MemTree := mkMemTree {
  mEntities : gmap PublicKey Entity;
  mNodes : gmap PublicKey Node;
  mStatuses : gmap PublicKey NodeStatus;
  mRuntimes : gmap Namespace Runtime;
  mSuspended : gmap Namespace Runtime;
  mParams : ConsensusParameters
}.

Definition ErrNoSuchEntity : error := ErrOther 1.
Definition ErrOutOfGas : error := ErrOther 2.
Definition ErrMalformed : error := ErrOther 3.
Definition ErrInsufficientStake : error := ErrOther 4.
Definition ErrNodeUpdateNotAllowed : error := ErrOther 5.
Definition ErrNoSuchStatus : error := ErrOther 6.

Definition memDecodeNode (blob : list Z) : res Node :=
  match blob with
  | id :: entity :: expiration :: roles :: rts =>
      Ok (mkNode id entity expiration (mkNodeRuntime <$> rts) roles)
  | _ => Err ErrMalformed
  end.

Definition memLookup {A} (m : gmap Z A) (key : Z) (e : error) : res A :=
  match m !! key with Some a => Ok a | None => Err e end.

Definition memUseGas (n : Z) (op : GasOp) (costs : GasOp -> Z) (g : Z * Z)
  : option error * (Z * Z) :=
  let '(limit, used) := g in
  let amount := costs op * n in
  if decide (used + amount > limit) then (Some ErrOutOfGas, g)
  else (None, (limit, used + amount)).

Definition memVerifyRegisterNodeArgs (params : ConsensusParameters)
    (sigNode : SignedNode) (entity : Entity) (now : Z) (isGenesis : bool)
    (t : MemTree) : res (Node * list Runtime) :=
  match memDecodeNode (Blob sigNode) with
  | Err e => Err e
  | Ok n =>
      if bool_decide (SignaturePublicKey sigNode = entID entity)
         || bool_decide (SignaturePublicKey sigNode ∈ entNodes entity)
      then Ok (n, omap (fun nrt => (mRuntimes t ∪ mSuspended t) !! nrID nrt)
                    (Runtimes n))
      else Err ErrInvalidArgument
  end.

Definition memResumeRuntime (id : Namespace) (t : MemTree)
  : option error * MemTree :=
  match mSuspended t !! id with
  | Some rt =>
      (None, mkMemTree (mEntities t) (mNodes t) (mStatuses t)
               (<[id := rt]> (mRuntimes t)) (delete id (mSuspended t)) (mParams t))
  | None => (Some ErrNoSuchRuntime, t)
  end.

#[global] Instance memBackend : Backend := {|
  Tree := MemTree;
  GasAccountant := Z * Z;
  StakeCache := unit;
  UseGas := memUseGas;
  decodeNode := memDecodeNode;
  stEntity t id := memLookup (mEntities t) id ErrNoSuchEntity;
  stConsensusParameters t := Ok (mParams t);
  VerifyRegisterNodeArgs := memVerifyRegisterNodeArgs;
  stRuntime t id := memLookup (mRuntimes t) id ErrNoSuchRuntime;
  NewStakeCache t := Ok tt;
  EnsureSufficientStake sc id kinds := None;
  EnsureNodeRegistrationStake sc id n :=
    if decide (n <= 2) then None else Some ErrInsufficientStake;
  stNumEntityNodes t id :=
    Ok (Z.of_nat (length (filter (fun p => EntityID p.2 = id)
                            (map_to_list (mNodes t)))));
  GetEpoch height := Ok (height `div` 10);
  stNode t id := memLookup (mNodes t) id ErrNoSuchNode;
  IsExpired n epoch := Expiration n <? epoch;
  stSetNode n sigNode t :=
    (None, mkMemTree (mEntities t) (<[ID n := n]> (mNodes t)) (mStatuses t)
             (mRuntimes t) (mSuspended t) (mParams t));
  stNodeStatus t id := memLookup (mStatuses t) id ErrNoSuchStatus;
  stSetNodeStatus id status t :=
    (None, mkMemTree (mEntities t) (mNodes t) (<[id := status]> (mStatuses t))
             (mRuntimes t) (mSuspended t) (mParams t));
  VerifyNodeUpdate existing newNode :=
    if decide (EntityID existing = EntityID newNode
               /\ Expiration existing <= Expiration newNode)
    then None else Some ErrNodeUpdateNotAllowed;
  stResumeRuntime := memResumeRuntime
|}.

(** Scenario S2 of the specification: runtime 7 policyAllows any node, runtime 8
    has the whitelist [{entity 100}]; entities 100 and 200 are registered. *)
Definition s2Tree : MemTree :=
  mkMemTree
    {[ 100 := mkEntity 100 true []; 200 := mkEntity 200 true [] ]}
    ∅ ∅
    {[ 7 := mkRuntime 7 (mkPolicy (Some tt) None);
       8 := mkRuntime 8 (mkPolicy None (Some {[ 100 := true ]})) ]}
    ∅
    (mkParams false (fun _ => 1)).

Definition s2Context (m : ContextMode) (signer : PublicKey) : Context :=
  mkContext m 0 signer 41 (1000, 0) [] s2Tree.

(** Node 1 of entity [entity], expiring at [expiration], for runtime [rt],
    signed by its entity. *)
Definition nodeFor (entity expiration rt : Z) : SignedNode :=
  mkSignedNode [1; entity; expiration; 0; rt] entity.

(** A tree in which node 1 of entity 100 is registered until epoch 2 but
    has no status record. *)
Definition staleTree : MemTree :=
  mkMemTree (mEntities s2Tree)
    {[ 1 := mkNode 1 100 2 [mkNodeRuntime 7] 0 ]} ∅
    (mRuntimes s2Tree) ∅ (mParams s2Tree).

(** A tree in which node 1 of entity 100 is registered until epoch 9. *)
Definition liveTree : MemTree :=
  mkMemTree (mEntities s2Tree)
    {[ 1 := mkNode 1 100 9 [mkNodeRuntime 7] 0 ]}
    {[ 1 := mkNodeStatus false 0 ]}
    (mRuntimes s2Tree) ∅ (mParams s2Tree).

Definition contextOn (t : MemTree) : Context :=
  mkContext ContextDeliverTx 0 100 41 (1000, 0) [] t.

(** The whitelisted runtime 8 and the values that the verification of
    [nodeFor e x rt] yields on [s2Tree]. *)
Definition runtime7 : Runtime := mkRuntime 7 (mkPolicy (Some tt) None).
Definition runtime8 : Runtime :=
  mkRuntime 8 (mkPolicy None (Some {[ 100 := true ]})).

Definition verifiedNode (entity expiration rt : Z) : Node :=
  mkNode 1 entity expiration [mkNodeRuntime rt] 0.

Definition chargedContext (t : MemTree) (signer : PublicKey) : Context :=
  mkContext ContextDeliverTx 0 signer 41 (1000, 1) [] t.

(** [s2Tree] with runtime 7 suspended. *)
Definition suspendedTree : MemTree :=
  mkMemTree (mEntities s2Tree) ∅ ∅ (mRuntimes s2Tree) {[ 7 := runtime7 ]}
    (mParams s2Tree).

End Registry.


(* ===================================================================== *)
(** ** The ABCI application multiplexer ([abci/mux.go]) *)
(* ===================================================================== *)

Module Mux.
Local Open Scope Z_scope.

Definition Bytes := list Z.
Definition Hash := list Z.
Definition PublicKey := Z.
Definition EpochTime := Z.
Definition Event := (string * Bytes)%type.

Inductive error : Type :=
| ErrHaltMode                       (* "halt mode, rejecting all transactions" *)
| ErrOversizedTx                    (* errOversizedTx *)
| ErrUnknownMethod (method : string)
| ErrAlreadyRegistered (name : string)
| ErrBlessedExists
| ErrMethodRegistered (method : string)
| ErrTransactionExists
| ErrOther (msg : string).          (* an error of an application or a decoder *)

Inductive res (A : Type) : Type :=
| Ok (a : A)
| Err (e : error).
Arguments Ok {A} a.
Arguments Err {A} e.

(** The result of an ABCI entry point: it returns or it panics. *)
Inductive outcome (A : Type) : Type :=
| Return (a : A)
| Panic (msg : string).
Arguments Return {A} a.
Arguments Panic {A} msg.

Definition toInt64 (x : Z) : Z := (x + 2 ^ 63) mod 2 ^ 64 - 2 ^ 63.

Inductive ContextMode : Type :=
| ContextInitChain
| ContextCheckTx
| ContextDeliverTx
| ContextSimulateTx
| ContextBeginBlock
| ContextEndBlock.

Inductive CheckTxType : Type := CheckTxType_New | CheckTxType_Recheck.

Record Transaction := mkTransaction {
  Nonce : Z;
  Method : string;
  Body : Bytes
}.

Record GenesisDocument := mkGenesis {
  genTime : Z;
  genMaxTxSize : Z;
  genMaxBlockGas : Z
}.

Record RequestInitChain := mkRequestInitChain {
  AppStateBytes : Bytes;
  reqConsensusParams : option Bytes
}.
Record ResponseInitChain := mkResponseInitChain {
  Validators : list Bytes;
  ConsensusParams : option Bytes
}.
Record RequestBeginBlock := mkRequestBeginBlock { HeaderTime : Z }.
Record ResponseBeginBlock := mkResponseBeginBlock { bbEvents : list Event }.
Record RequestCheckTx := mkRequestCheckTx { ctTx : Bytes; ctType : CheckTxType }.
Record ResponseCheckTx := mkResponseCheckTx {
  ctCodespace : string;
  ctCode : Z;
  ctLog : string;
  ctGasWanted : Z;
  ctGasUsed : Z
}.
Record RequestDeliverTx := mkRequestDeliverTx { dtTx : Bytes }.
Record ResponseDeliverTx := mkResponseDeliverTx {
  dtCodespace : string;
  dtCode : Z;
  dtLog : string;
  dtData : Bytes;
  dtEvents : list Event;
  dtGasWanted : Z;
  dtGasUsed : Z
}.
Record RequestEndBlock := mkRequestEndBlock { ebHeight : Z }.
Record ResponseEndBlock := mkResponseEndBlock {
  ValidatorUpdates : list Bytes;
  ebEvents : list Event
}.

Definition CodeTypeOK : Z := 0.

(** What the applications work on: the two state trees, the block
    context (absent, or holding a gas accountant with a limit, [None] for
    the no-op accountant) and the fields of the current [Context]. *)
Record World := mkWorld {
  deliverTxTree : gmap string Bytes;
  checkTxTree : gmap string Bytes;
  blockCtx : option (option Z);
  ctxMode : ContextMode;
  ctxNow : Z;
  ctxEvents : list Event;
  ctxTxSigner : option PublicKey;
  ctxGasWanted : Z;
  ctxGasUsed : Z;
  ctxData : Bytes
}.

(** [type Application interface]; the other application handed to
    [ForeignExecuteTx] is given by its name, and the lifecycle methods
    carry the prefix [App] to keep them apart from the multiplexer's. *)
Record Application := mkApplication {
  Name : string;
  ID : Z;
  Methods : list string;
  Blessed : bool;
  Dependencies : list string;
  ExecuteTx : Transaction -> World -> option error * World;
  ForeignExecuteTx : string -> Transaction -> World -> option error * World;
  AppInitChain : RequestInitChain -> GenesisDocument -> World -> option error * World;
  AppBeginBlock : RequestBeginBlock -> World -> option error * World;
  AppEndBlock : RequestEndBlock -> World -> (ResponseEndBlock * option error) * World
}.

(** An unbuffered [chan error]: whether a receiver is blocked on it, what
    its receiver has received, whether it is closed. *)
Record Chan := mkChan {
  waiting : bool;
  received : list error;
  closed : bool
}.

(** A ghost record of the handlers the multiplexer invokes, in order. *)
Inductive Call : Type :=
| CallGenesisHook (i : nat)
| CallHaltHook (i : nat) (height : Z) (epoch : EpochTime)
| CallInitChain (app : string)
| CallBeginBlock (app : string)
| CallFireTimers (app : string)
| CallEndBlock (app : string)
| CallAuthenticateTx
| CallExecuteTx (app : string) (tx : Transaction)
| CallForeignExecuteTx (app other : string) (tx : Transaction).

(** [abciMux] together with the fields of [ApplicationState] it uses, the
    channels handed to subscribers and the ghost trace. *)
Record abciMux := mkMux {
  appsByName : gmap string Application;
  appsByMethod : gmap string Application;
  appsByLexOrder : list Application;
  appBlessed : option Application;
  lastBeginBlock : Z;
  currentTime : Z;
  maxTxSize : Z;
  maxBlockGas : Z;
  genesisHooks : list (World -> World);
  haltHooks : list (Z -> EpochTime -> World -> World);
  invalidatedTxs : gmap Hash nat;
  blockHeight : Z;
  haltMode : bool;
  haltEpochHeight : EpochTime;
  txAuthHandler : option (Transaction -> World -> option error * World);
  GetEpoch : Z -> res EpochTime;
  world : World;
  chans : gmap nat Chan;
  trace : list Call
}.

Definition setApps (byName byMethod : gmap string Application)
    (byLex : list Application) (blessed : option Application) (m : abciMux) :=
  mkMux byName byMethod byLex blessed (lastBeginBlock m) (currentTime m)
    (maxTxSize m) (maxBlockGas m) (genesisHooks m) (haltHooks m)
    (invalidatedTxs m) (blockHeight m) (haltMode m) (haltEpochHeight m)
    (txAuthHandler m) (GetEpoch m) (world m) (chans m) (trace m).

Definition setClock (lastBegin time : Z) (m : abciMux) :=
  mkMux (appsByName m) (appsByMethod m) (appsByLexOrder m) (appBlessed m)
    lastBegin time (maxTxSize m) (maxBlockGas m) (genesisHooks m)
    (haltHooks m) (invalidatedTxs m) (blockHeight m) (haltMode m)
    (haltEpochHeight m) (txAuthHandler m) (GetEpoch m) (world m) (chans m)
    (trace m).

Definition setLimits (txSize blockGas : Z) (m : abciMux) :=
  mkMux (appsByName m) (appsByMethod m) (appsByLexOrder m) (appBlessed m)
    (lastBeginBlock m) (currentTime m) txSize blockGas (genesisHooks m)
    (haltHooks m) (invalidatedTxs m) (blockHeight m) (haltMode m)
    (haltEpochHeight m) (txAuthHandler m) (GetEpoch m) (world m) (chans m)
    (trace m).

Definition setSubscriptions (subs : gmap Hash nat) (cs : gmap nat Chan)
    (m : abciMux) :=
  mkMux (appsByName m) (appsByMethod m) (appsByLexOrder m) (appBlessed m)
    (lastBeginBlock m) (currentTime m) (maxTxSize m) (maxBlockGas m)
    (genesisHooks m) (haltHooks m) subs (blockHeight m) (haltMode m)
    (haltEpochHeight m) (txAuthHandler m) (GetEpoch m) (world m) cs (trace m).

Definition setHaltMode (b : bool) (m : abciMux) :=
  mkMux (appsByName m) (appsByMethod m) (appsByLexOrder m) (appBlessed m)
    (lastBeginBlock m) (currentTime m) (maxTxSize m) (maxBlockGas m)
    (genesisHooks m) (haltHooks m) (invalidatedTxs m) (blockHeight m) b
    (haltEpochHeight m) (txAuthHandler m) (GetEpoch m) (world m) (chans m)
    (trace m).

Definition setWorld (w : World) (m : abciMux) :=
  mkMux (appsByName m) (appsByMethod m) (appsByLexOrder m) (appBlessed m)
    (lastBeginBlock m) (currentTime m) (maxTxSize m) (maxBlockGas m)
    (genesisHooks m) (haltHooks m) (invalidatedTxs m) (blockHeight m)
    (haltMode m) (haltEpochHeight m) (txAuthHandler m) (GetEpoch m) w
    (chans m) (trace m).

Definition logCall (c : Call) (m : abciMux) :=
  mkMux (appsByName m) (appsByMethod m) (appsByLexOrder m) (appBlessed m)
    (lastBeginBlock m) (currentTime m) (maxTxSize m) (maxBlockGas m)
    (genesisHooks m) (haltHooks m) (invalidatedTxs m) (blockHeight m)
    (haltMode m) (haltEpochHeight m) (txAuthHandler m) (GetEpoch m) (world m)
    (chans m) (trace m ++ [c]).

Definition setTrees (d c : gmap string Bytes) (w : World) : World :=
  mkWorld d c (blockCtx w) (ctxMode w) (ctxNow w) (ctxEvents w)
    (ctxTxSigner w) (ctxGasWanted w) (ctxGasUsed w) (ctxData w).

Definition setBlockCtx (b : option (option Z)) (w : World) : World :=
  mkWorld (deliverTxTree w) (checkTxTree w) b (ctxMode w) (ctxNow w)
    (ctxEvents w) (ctxTxSigner w) (ctxGasWanted w) (ctxGasUsed w) (ctxData w).

Definition SetTxSigner (signer : PublicKey) (w : World) : World :=
  mkWorld (deliverTxTree w) (checkTxTree w) (blockCtx w) (ctxMode w) (ctxNow w)
    (ctxEvents w) (Some signer) (ctxGasWanted w) (ctxGasUsed w) (ctxData w).

(** Modelled from the spec: [NewContext] is absent from the sources; each
    invocation runs under a fresh context bearing the mode and the time,
    with an empty event sink and no signer. *)
Definition NewContext (mode : ContextMode) (now : Z) (w : World) : World :=
  mkWorld (deliverTxTree w) (checkTxTree w) (blockCtx w) mode now [] None 0 0 [].

Definition stateKeyGenesisDigest : string := "OasisGenesisDigest".
Definition stateKeyGenesisRequest : string := "OasisGenesisRequest".
Definition stateKeyInitChainEvents : string := "OasisInitChainEvents".

Section Multiplexer.

(** Library functions the multiplexer calls: JSON and CBOR coding, the
    digest of the genesis request, the transaction hash, the code and text
    of an error, and the timer dispatch of [timer.go]. *)
Variable parseGenesisAppState : RequestInitChain -> res GenesisDocument.
Variable genesisDigest : RequestInitChain -> Bytes.
Variable marshalRequest : RequestInitChain -> Bytes.
Variable marshalEvents : list Event -> Bytes.
Variable unmarshalEvents : Bytes -> list Event.
Variable marshalData : Bytes -> Bytes.
Variable openTransaction : Bytes -> res (Transaction * PublicKey).
Variable hashFromBytes : Bytes -> Hash.
Variable errorCode : error -> string * Z.
Variable errorString : error -> string.
Variable fireTimers : Application -> World -> option error * World.

(** *** Registration *)

(** [sort.Strings]: ascending byte-wise lexicographic order. *)
Definition sortStrings (l : list string) : list string :=
  merge_sort String.le l.

Definition rebuildAppLexOrdering (m : abciMux) : abciMux :=
  let appOrder := sortStrings (map_to_list (appsByName m)).*1 in
  setApps (appsByName m) (appsByMethod m)
    (omap (fun name => appsByName m !! name) appOrder)
    (appBlessed m) m.

(** [for _, m := range app.Methods()] of [doRegister]. *)
Fixpoint registerMethods (app : Application) (methods : list string)
    (byMethod : gmap string Application)
  : option error * gmap string Application :=
  match methods with
  | [] => (None, byMethod)
  | meth :: rest =>
      match byMethod !! meth with
      | Some _ => (Some (ErrMethodRegistered meth), byMethod)
      | None => registerMethods app rest (<[meth := app]> byMethod)
      end
  end.

Definition doRegister (app : Application) (m : abciMux) : option error * abciMux :=
  let name := Name app in
  match appsByName m !! name with
  | Some _ => (Some (ErrAlreadyRegistered name), m)
  | None =>
      match (if Blessed app then
               match appBlessed m with
               | Some _ => Err ErrBlessedExists
               | None => Ok (Some app)
               end
             else Ok (appBlessed m)) with
      | Err e => (Some e, m)
      | Ok blessed =>
          let byName := <[name := app]> (appsByName m) in
          match registerMethods app (Methods app) (appsByMethod m) with
          | (Some e, byMethod) =>
              (Some e, setApps byName byMethod (appsByLexOrder m) blessed m)
          | (None, byMethod) =>
              (None, rebuildAppLexOrdering
                       (setApps byName byMethod (appsByLexOrder m) blessed m))
          end
      end
  end.

Definition registerHaltHook (hook : Z -> EpochTime -> World -> World)
    (m : abciMux) : abciMux :=
  mkMux (appsByName m) (appsByMethod m) (appsByLexOrder m) (appBlessed m)
    (lastBeginBlock m) (currentTime m) (maxTxSize m) (maxBlockGas m)
    (genesisHooks m) (haltHooks m ++ [hook]) (invalidatedTxs m) (blockHeight m)
    (haltMode m) (haltEpochHeight m) (txAuthHandler m) (GetEpoch m) (world m)
    (chans m) (trace m).

(** *** Mempool invalidation subscriptions *)

(** [watchInvalidatedTx]: [c] is the fresh channel made by
    [make(chan error)]; a receiver may block on it later. *)
Definition watchInvalidatedTx (txHash : Hash) (c : nat) (m : abciMux)
  : res nat * abciMux :=
  let cs := <[c := mkChan false [] false]> (chans m) in
  match invalidatedTxs m !! txHash with
  | Some _ => (Err ErrTransactionExists, setSubscriptions (invalidatedTxs m) cs m)
  | None => (Ok c, setSubscriptions (<[txHash := c]> (invalidatedTxs m)) cs m)
  end.

(** [invalidatedTxSubscription.Close] *)
Definition closeSubscription (txHash : Hash) (m : abciMux) : abciMux :=
  setSubscriptions (delete txHash (invalidatedTxs m)) (chans m) m.

(** A receiver starts to wait on channel [c]. *)
Definition startReceive (c : nat) (m : abciMux) : abciMux :=
  setSubscriptions (invalidatedTxs m)
    (alter (fun ch => mkChan true (received ch) (closed ch)) c (chans m)) m.

(** [select { case ch <- err: default: }] on an unbuffered channel: the
    send happens only if a receiver is waiting. *)
Definition trySend (err : error) (ch : Chan) : Chan :=
  if waiting ch then mkChan false (received ch ++ [err]) (closed ch) else ch.

Definition closeChan (ch : Chan) : Chan :=
  mkChan (waiting ch) (received ch) true.

(** *** Lifecycle dispatch *)

(** [for _, app := range mux.appsByLexOrder { if err := run(app); err != nil
    { panic(...) } }] *)
Fixpoint dispatch (call : string -> Call)
    (run : Application -> World -> option error * World) (what : string)
    (apps : list Application) (m : abciMux) : outcome unit * abciMux :=
  match apps with
  | [] => (Return tt, m)
  | app :: rest =>
      let m1 := logCall (call (Name app)) m in
      match run app (world m1) with
      | (Some err, w) =>
          (Panic (what ++ ": fatal error in application: '" ++ Name app
                  ++ "': " ++ errorString err), setWorld w m1)
      | (None, w) => dispatch call run what rest (setWorld w m1)
      end
  end.

Fixpoint runGenesisHooks (i : nat) (hooks : list (World -> World))
    (m : abciMux) : abciMux :=
  match hooks with
  | [] => m
  | hook :: rest =>
      let m1 := logCall (CallGenesisHook i) m in
      runGenesisHooks (S i) rest (setWorld (hook (world m1)) m1)
  end.

Fixpoint runHaltHooks (i : nat) (hooks : list (Z -> EpochTime -> World -> World))
    (height : Z) (epoch : EpochTime) (m : abciMux) : abciMux :=
  match hooks with
  | [] => m
  | hook :: rest =>
      let m1 := logCall (CallHaltHook i height epoch) m in
      runHaltHooks (S i) rest height epoch
        (setWorld (hook height epoch (world m1)) m1)
  end.

Definition treeSetDeliver (key : string) (v : Bytes) (m : abciMux) : abciMux :=
  setWorld (setTrees (<[key := v]> (deliverTxTree (world m)))
              (checkTxTree (world m)) (world m)) m.

Definition treeSetCheck (key : string) (v : Bytes) (m : abciMux) : abciMux :=
  setWorld (setTrees (deliverTxTree (world m))
              (<[key := v]> (checkTxTree (world m))) (world m)) m.

Definition InitChain (req : RequestInitChain) (m : abciMux)
  : outcome ResponseInitChain * abciMux :=
  match parseGenesisAppState req with
  | Err _ => (Panic "mux: invalid genesis application state", m)
  | Ok st =>
      let m := setLimits (genMaxTxSize st) (genMaxBlockGas st) m in
      let m := setClock (lastBeginBlock m) (genTime st) m in
      let m := treeSetDeliver stateKeyGenesisDigest (genesisDigest req) m in
      let resp := mkResponseInitChain [] (reqConsensusParams req) in
      let m := runGenesisHooks 0 (genesisHooks m) m in
      let b := marshalRequest req in
      let m := treeSetDeliver stateKeyGenesisRequest b m in
      let m := treeSetCheck stateKeyGenesisRequest b m in
      let m := setWorld (NewContext ContextInitChain (currentTime m) (world m)) m in
      match dispatch CallInitChain (fun app => AppInitChain app req st)
              "mux: InitChain" (appsByLexOrder m) m with
      | (Panic msg, m) => (Panic msg, m)
      | (Return _, m) =>
          let evBinary := marshalEvents (ctxEvents (world m)) in
          (Return resp, treeSetDeliver stateKeyInitChainEvents evBinary m)
      end
  end.

Definition inHaltEpoch (m : abciMux) : bool * abciMux :=
  match GetEpoch m (toInt64 (blockHeight m + 1)) with
  | Err _ => (false, m)
  | Ok currentEpoch =>
      let b := bool_decide (currentEpoch = haltEpochHeight m) in
      (b, setHaltMode b m)
  end.

Definition afterHaltEpoch (m : abciMux) : bool :=
  match GetEpoch m (toInt64 (blockHeight m + 1)) with
  | Err _ => false
  | Ok currentEpoch => bool_decide (currentEpoch > haltEpochHeight m)
  end.

(** The tail of [BeginBlock]: dispatch to all applications and collect
    the events. *)
Definition beginBlockApps (req : RequestBeginBlock) (m : abciMux)
  : outcome ResponseBeginBlock * abciMux :=
  match dispatch CallBeginBlock (fun app => AppBeginBlock app req)
          "mux: BeginBlock" (appsByLexOrder m) m with
  | (Panic msg, m) => (Panic msg, m)
  | (Return _, m) =>
      let events := ctxEvents (world m) in
      if decide (blockHeight m = 0) then
        match deliverTxTree (world m) !! stateKeyInitChainEvents with
        | Some evBinary =>
            (Return (mkResponseBeginBlock (unmarshalEvents evBinary ++ events)),
             setWorld (setTrees (delete stateKeyInitChainEvents
                                   (deliverTxTree (world m)))
                         (checkTxTree (world m)) (world m)) m)
        | None => (Return (mkResponseBeginBlock events), m)
        end
      else (Return (mkResponseBeginBlock events), m)
  end.

Definition BeginBlock (req : RequestBeginBlock) (m : abciMux)
  : outcome ResponseBeginBlock * abciMux :=
  let blockHeight := blockHeight m in
  if decide (lastBeginBlock m = blockHeight) then
    (Panic "mux: redundant BeginBlock", m)
  else
    let m := setClock blockHeight (HeaderTime req) m in
    let m := setWorld (setBlockCtx
                         (Some (if decide (maxBlockGas m > 0)
                                then Some (maxBlockGas m) else None))
                         (world m)) m in
    let m := setWorld (NewContext ContextBeginBlock (currentTime m) (world m)) m in
    if haltMode m then
      if negb (afterHaltEpoch m) then (Return (mkResponseBeginBlock []), m)
      else (Panic "tendermint: after halt epoch, halting", m)
    else
      match inHaltEpoch m with
      | (false, m) => beginBlockApps req m
      | (true, m) =>
          let m := runHaltHooks 0 (haltHooks m) blockHeight (haltEpochHeight m) m in
          (Return (mkResponseBeginBlock []), m)
      end.

(** *** Transactions *)

Definition decodeTx (rawTx : Bytes) (m : abciMux) : res (Transaction * PublicKey) :=
  if haltMode m then Err ErrHaltMode
  else if bool_decide (maxTxSize m > 0)
          && bool_decide (Z.of_nat (length rawTx) > maxTxSize m)
  then Err ErrOversizedTx
  else openTransaction rawTx.

(** [for _, foreignApp := range mux.appsByLexOrder]; an application is
    identified by its name, under which alone it can be registered. *)
Fixpoint foreignExecute (owner : Application) (tx : Transaction)
    (apps : list Application) (m : abciMux) : option error * abciMux :=
  match apps with
  | [] => (None, m)
  | foreignApp :: rest =>
      if bool_decide (Name foreignApp = Name owner) then
        foreignExecute owner tx rest m
      else
        let m1 := logCall (CallForeignExecuteTx (Name foreignApp) (Name owner) tx) m in
        match ForeignExecuteTx foreignApp (Name owner) tx (world m1) with
        | (Some err, w) => (Some err, setWorld w m1)
        | (None, w) => foreignExecute owner tx rest (setWorld w m1)
        end
  end.

Definition authenticate (tx : Transaction) (m : abciMux) : option error * abciMux :=
  match txAuthHandler m with
  | Some handler =>
      let m1 := logCall CallAuthenticateTx m in
      let '(r, w) := handler tx (world m1) in
      (r, setWorld w m1)
  | None => (None, m)
  end.

Definition processTx (tx : Transaction) (m : abciMux) : option error * abciMux :=
  match authenticate tx m with
  | (Some err, m) => (Some err, m)
  | (None, m) =>
      match appsByMethod m !! Method tx with
      | None => (Some (ErrUnknownMethod (Method tx)), m)
      | Some app =>
          let m1 := logCall (CallExecuteTx (Name app) tx) m in
          match ExecuteTx app tx (world m1) with
          | (Some err, w) => (Some err, setWorld w m1)
          | (None, w) =>
              foreignExecute app tx (appsByLexOrder m1) (setWorld w m1)
          end
      end
  end.

Definition executeTx (rawTx : Bytes) (m : abciMux) : option error * abciMux :=
  match decodeTx rawTx m with
  | Err err => (Some err, m)
  | Ok (tx, signer) =>
      processTx tx (setWorld (SetTxSigner signer (world m)) m)
  end.

(** The notification of [CheckTx] on a failed re-check. *)
Definition notifyInvalidated (txHash : Hash) (err : error) (m : abciMux) : abciMux :=
  match invalidatedTxs m !! txHash with
  | Some c =>
      setSubscriptions (delete txHash (invalidatedTxs m))
        (alter (fun ch => closeChan (trySend err ch)) c (chans m)) m
  | None => m
  end.

Definition CheckTx (req : RequestCheckTx) (m : abciMux)
  : ResponseCheckTx * abciMux :=
  let m := setWorld (NewContext ContextCheckTx (currentTime m) (world m)) m in
  match executeTx (ctTx req) m with
  | (Some err, m) =>
      let '(module, code) := errorCode err in
      let m :=
        match ctType req with
        | CheckTxType_Recheck => notifyInvalidated (hashFromBytes (ctTx req)) err m
        | CheckTxType_New => m
        end in
      (mkResponseCheckTx module code (errorString err)
         (ctxGasWanted (world m)) (ctxGasUsed (world m)), m)
  | (None, m) =>
      (mkResponseCheckTx "" CodeTypeOK ""
         (ctxGasWanted (world m)) (ctxGasUsed (world m)), m)
  end.

Definition DeliverTx (req : RequestDeliverTx) (m : abciMux)
  : ResponseDeliverTx * abciMux :=
  let m := setWorld (NewContext ContextDeliverTx (currentTime m) (world m)) m in
  match executeTx (dtTx req) m with
  | (Some err, m) =>
      let '(module, code) := errorCode err in
      (mkResponseDeliverTx module code (errorString err) [] []
         (ctxGasWanted (world m)) (ctxGasUsed (world m)), m)
  | (None, m) =>
      (mkResponseDeliverTx "" CodeTypeOK "" (marshalData (ctxData (world m)))
         (ctxEvents (world m)) (ctxGasWanted (world m)) (ctxGasUsed (world m)), m)
  end.

(** [for _, app := range mux.appsByLexOrder { newResp, err := app.EndBlock(...) }] *)
Fixpoint endBlockApps (req : RequestEndBlock) (resp : ResponseEndBlock)
    (apps : list Application) (m : abciMux)
  : outcome ResponseEndBlock * abciMux :=
  match apps with
  | [] => (Return resp, m)
  | app :: rest =>
      let m1 := logCall (CallEndBlock (Name app)) m in
      match AppEndBlock app req (world m1) with
      | ((_, Some err), w) =>
          (Panic ("mux: EndBlock: fatal error in application: '" ++ Name app
                  ++ "': " ++ errorString err), setWorld w m1)
      | ((newResp, None), w) =>
          endBlockApps req (if Blessed app then newResp else resp) rest
            (setWorld w m1)
      end
  end.

Definition EndBlock (req : RequestEndBlock) (m : abciMux)
  : outcome ResponseEndBlock * abciMux :=
  if haltMode m then (Return (mkResponseEndBlock [] []), m)
  else
    let m := setWorld (NewContext ContextEndBlock (currentTime m) (world m)) m in
    match dispatch CallFireTimers fireTimers "mux: EndBlock"
            (appsByLexOrder m) m with
    | (Panic msg, m) => (Panic msg, m)
    | (Return _, m) =>
        match endBlockApps req (mkResponseEndBlock [] []) (appsByLexOrder m) m with
        | (Panic msg, m) => (Panic msg, m)
        | (Return resp, m) =>
            (Return (mkResponseEndBlock (ValidatorUpdates resp)
                       (ctxEvents (world m))),
             setWorld (setBlockCtx None (world m)) m)
        end
    end.

End Multiplexer.

(** Every application is registered under its own name. *)
Definition namesOk (m : abciMux) : Prop :=
  forall n a, appsByName m !! n = Some a -> Name a = n.

(** [appsByLexOrder] lists the registered applications, each once, in
    ascending lexicographic order of their names. *)
Definition lexOrdered (m : abciMux) : Prop :=
  namesOk m /\
  StronglySorted String.le (Name <$> appsByLexOrder m) /\
  NoDup (Name <$> appsByLexOrder m) /\
  forall a, a ∈ appsByLexOrder m <-> exists n, appsByName m !! n = Some a.

(** The calls expected of a lifecycle dispatch over [apps], of the foreign
    hooks after [owner] executed [tx], of the authentication and of the
    hooks. *)
Definition lifecycleCalls (call : string -> Call) (apps : list Application)
  : list Call :=
  (fun a => call (Name a)) <$> apps.

Definition foreignCalls (owner : Application) (tx : Transaction)
    (apps : list Application) : list Call :=
  (fun a => CallForeignExecuteTx (Name a) (Name owner) tx)
    <$> filter (fun a => Name a <> Name owner) apps.

Definition authCalls (m : abciMux) : list Call :=
  match txAuthHandler m with Some _ => [CallAuthenticateTx] | None => [] end.

Definition genesisHookCalls (m : abciMux) : list Call :=
  CallGenesisHook <$> seq 0 (length (genesisHooks m)).

Definition haltHookCalls (m : abciMux) : list Call :=
  (fun i => CallHaltHook i (blockHeight m) (haltEpochHeight m))
    <$> seq 0 (length (haltHooks m)).

(** The configuration of the multiplexer, which no entry point changes. *)
Definition stable (m m' : abciMux) : Prop :=
  appsByName m' = appsByName m /\
  appsByMethod m' = appsByMethod m /\
  appsByLexOrder m' = appsByLexOrder m /\
  txAuthHandler m' = txAuthHandler m /\
  haltHooks m' = haltHooks m /\
  genesisHooks m' = genesisHooks m /\
  haltEpochHeight m' = haltEpochHeight m /\
  blockHeight m' = blockHeight m /\
  GetEpoch m' = GetEpoch m.

(** The channel of a subscriber after the notification of a failed
    re-check with [err]: the error was received if a receiver was waiting,
    and the channel is closed. *)
Definition notified (err : error) (ch : Chan) : Chan :=
  mkChan false (received ch ++ (if waiting ch then [err] else [])) true.

(** *** A small multiplexer to run

    Three applications registered out of order; a transaction is the list
    [nonce; method code]; the staking application accepts nonce 1 only;
    an epoch lasts ten blocks and the chain halts in epoch 5. *)
Definition idle : World -> option error * World := fun w => (None, w).

Definition testApp (name : string) (methods : list string)
    (exec : Transaction -> World -> option error * World) : Application :=
  mkApplication name 0 methods false [] exec (fun _ _ => idle)
    (fun _ _ => idle) (fun _ => idle)
    (fun _ w => ((mkResponseEndBlock [] [], None), w)).

Definition stakingApp : Application :=
  testApp "staking" ["staking.Transfer"]
    (fun tx w => if decide (Nonce tx = 1) then (None, w)
                 else (Some (ErrOther "invalid nonce"), w)).
Definition registryApp : Application :=
  testApp "registry" ["registry.RegisterNode"] (fun _ => idle).
Definition keymanagerApp : Application :=
  testApp "keymanager" [] (fun _ w => (Some (ErrOther "not supported"), w)).

Definition testOpen (rawTx : Bytes) : res (Transaction * PublicKey) :=
  match rawTx with
  | [n; 0] => Ok (mkTransaction n "staking.Transfer" [], 7)
  | [n; 1] => Ok (mkTransaction n "registry.RegisterNode" [], 7)
  | _ => Err (ErrOther "malformed transaction")
  end.

Definition testErrorCode (e : error) : string * Z := ("test"%string, 1).
Definition testErrorString (e : error) : string := "error".

Definition emptyWorld : World :=
  mkWorld ∅ ∅ None ContextInitChain 0 [] None 0 0 [].

Definition newMux (height : Z) (halted : bool) : abciMux :=
  mkMux ∅ ∅ [] None (-1) 0 0 0 []
    [fun _ _ w => w; fun _ _ w => w] ∅ height halted 5 None
    (fun h => Ok (h `div` 10)) emptyWorld ∅ [].

Definition registerAll (apps : list Application) (m : abciMux) : abciMux :=
  foldl (fun m app => (doRegister app m).2) m apps.

Definition testMux (height : Z) (halted : bool) : abciMux :=
  registerAll [stakingApp; registryApp; keymanagerApp] (newMux height halted).

(** Scenario S6: a subscriber watches the hash of the transaction
    [2; 0], whose nonce the staking application rejects. *)
Definition watched : abciMux :=
  (watchInvalidatedTx [2; 0] 0%nat (testMux 41 false)).2.

Definition recheck : RequestCheckTx := mkRequestCheckTx [2; 0] CheckTxType_Recheck.

(** The configuration, the halt mode and the subscriptions are the same. *)
Definition unchanged (m m' : abciMux) : Prop :=
  stable m m' /\ haltMode m' = haltMode m /\
  invalidatedTxs m' = invalidatedTxs m /\ chans m' = chans m.

(** *** Further parts of [mux.go] *)

(** [invalidatedTxSubscription]; [subLive] stands for [s.mux != nil]. *)
Record Subscription := mkSubscription { subLive : bool; subHash : Hash }.

(** The subscription [watchInvalidatedTx] returns beside the channel. *)
Definition newSubscription (txHash : Hash) : Subscription :=
  mkSubscription true txHash.

(** [invalidatedTxSubscription.Close] *)
Definition subscriptionClose (s : Subscription) (m : abciMux)
  : Subscription * abciMux :=
  if negb (subLive s) then (s, m)
  else (mkSubscription false (subHash s), closeSubscription (subHash s) m).

(** The loops of [checkDependencies]: every dependency that is not
    registered, with the application that needs it.  Go ranges over the map
    in no fixed order; here the order is that of [map_to_list]. *)
Definition missingDependencies (m : abciMux) : list (string * string) :=
  p ← map_to_list (appsByName m);
  dep ← Dependencies p.2;
  if decide (appsByName m !! dep = None) then [(dep, p.1)] else [].

(** [checkDependencies]: the error carries the missing dependencies. *)
Definition checkDependencies (m : abciMux) : option (list (string * string)) :=
  match missingDependencies m with
  | [] => None
  | missingDeps => Some missingDeps
  end.

(** At most one registered application is blessed, and [appBlessed] is
    that application. *)
Definition blessedOk (m : abciMux) : Prop :=
  (forall n a, appsByName m !! n = Some a -> Blessed a = true ->
               appBlessed m = Some a) /\
  (forall b, appBlessed m = Some b ->
             Blessed b = true /\ appsByName m !! Name b = Some b).

(** An application whose [InitChain] emits one event, and a multiplexer
    that has only this application. *)
Definition announcer : Application :=
  mkApplication "announcer" 0 [] false [] (fun _ => idle) (fun _ _ => idle)
    (fun _ _ w =>
       (None, mkWorld (deliverTxTree w) (checkTxTree w) (blockCtx w) (ctxMode w)
                (ctxNow w) (ctxEvents w ++ [("genesis"%string, [1])])
                (ctxTxSigner w) (ctxGasWanted w) (ctxGasUsed w) (ctxData w)))
    (fun _ => idle)
    (fun _ w => ((mkResponseEndBlock [] [], None), w)).

Definition announcerMux : abciMux :=
  registerAll [announcer] (newMux 0 false).

(** A blessed application that reports one validator update. *)
Definition validatorApp : Application :=
  mkApplication "scheduler" 0 [] true ["registry"%string] (fun _ => idle)
    (fun _ _ => idle) (fun _ _ => idle) (fun _ => idle)
    (fun _ w => ((mkResponseEndBlock [[7]] [], None), w)).

Definition blessedMux : abciMux :=
  registerAll [stakingApp; validatorApp; registryApp] (newMux 3 false).

End Mux.

(* ===================================================================== *)
(** ** Key manager application: status recomputation on epoch change *)
(* ===================================================================== *)

Module KeyManager.
Local Open Scope Z_scope.

Definition Bytes := list Z.
Definition PublicKey := Z.
Definition Namespace := Z.

Definition ChecksumSize : nat := 32.
Definition TEEHardwareInvalid : Z := 0.

Record CapabilityTEE := mkCapabilityTEE { Hardware : Z }.

(** [node.Runtime] *)
Record NodeRuntime := mkNodeRuntime {
  nrID : Namespace;
  CapabilitiesTEE : option CapabilityTEE;
  ExtraInfo : Bytes
}.

Record Node := mkNode {
  ID : PublicKey;
  Roles : Z;
  Runtimes : list NodeRuntime
}.

Inductive RuntimeKind : Type := KindCompute | KindKeyManager.

#[global] Instance RuntimeKind_eq_dec : EqDecision RuntimeKind.
Proof. solve_decision. Defined.

(** [registry.Runtime] *)
Record Runtime := mkRuntime {
  rtID : Namespace;
  Kind : RuntimeKind;
  TEEHardware : Z
}.

(** [api.Status]; the signed policy is kept as an opaque value. *)
Record Status := mkStatus {
  stID : Namespace;
  IsInitialized : bool;
  IsSecure : bool;
  Checksum : Bytes;
  Nodes : list PublicKey;
  Policy : option Bytes
}.

(** [api.InitResponse], as returned by [api.VerifyExtraInfo]. *)
Record InitResponse := mkInitResponse {
  irIsSecure : bool;
  irChecksum : Bytes;
  irPolicyChecksum : Bytes
}.

Inductive Event : Type := EvStatusUpdate (statuses : list Status).

Inductive error : Type :=
| ErrStatusQuery (id : Namespace).  (* "failed to query key manager status" *)

(** The context of [onEpochChange]: the time, the runtimes and nodes of
    the registry state, the key manager's part of the state tree (status
    records by runtime id, serialized) and the event sink. *)
Record Context := mkContext {
  now : Z;
  regRuntimes : list Runtime;
  regNodes : list Node;
  kmTree : gmap Namespace Bytes;
  events : list Event
}.

Section App.

(** What the application calls and the sources do not contain. *)
Variable RoleKeyManager : Z.
Variable sha3Sum256 : Bytes -> Bytes.
Variable marshalPolicy : Bytes -> Bytes.
Variable marshalStatus : Status -> Bytes.
Variable unmarshalStatus : Bytes -> option Status.
Variable VerifyExtraInfo : Runtime -> NodeRuntime -> Z -> option InitResponse.
Variable SortNodeList : list Node -> list Node.

(** Modelled from the spec: [Node.HasRoles] is absent from the sources;
    a node has a role when the role's bit is set in its role mask. *)
Definition HasRoles (n : Node) (r : Z) : bool := negb (Z.land (Roles n) r =? 0).

Definition emptyHashSha3 : Bytes := sha3Sum256 [].

(** [for _, rt := range n.Runtimes { if rt.ID.Equal(&kmrt.ID) { nodeRt = rt; break } }] *)
Definition findRuntime (kmrt : Runtime) (n : Node) : option NodeRuntime :=
  list_find (fun rt => nrID rt = rtID kmrt) (Runtimes n) ≫= (fun p => Some p.2).

(** The first part of the loop body of [generateStatus]: the node's init
    response, unless one of the checks makes the loop [continue]. *)
Definition verifiedResponse (now : Z) (kmrt : Runtime) (policyHash : Bytes)
    (n : Node) : option InitResponse :=
  if negb (HasRoles n RoleKeyManager) then None
  else
    match findRuntime kmrt n with
    | None => None
    | Some nodeRt =>
        let teeOk :=
          match CapabilitiesTEE nodeRt with
          | None => bool_decide (TEEHardware kmrt = TEEHardwareInvalid)
          | Some tee => bool_decide (TEEHardware kmrt = Hardware tee)
          end in
        if negb teeOk then None
        else
          match VerifyExtraInfo kmrt nodeRt now with
          | None => None
          | Some initResponse =>
              match
                (if decide (length (irPolicyChecksum initResponse) = 0%nat)
                 then Some emptyHashSha3
                 else if decide (length (irPolicyChecksum initResponse) = ChecksumSize)
                 then Some (irPolicyChecksum initResponse)
                 else None)
              with
              | None => None
              | Some nodePolicyHash =>
                  if bool_decide (policyHash <> nodePolicyHash) then None
                  else Some initResponse
              end
          end
    end.

Definition appendNode (status : Status) (id : PublicKey) : Status :=
  mkStatus (stID status) (IsInitialized status) (IsSecure status)
    (Checksum status) (Nodes status ++ [id]) (Policy status).

(** The second part of the loop body: update the status with the init
    response of a node that passed the checks. *)
Definition acceptNode (status : Status) (n : Node) (initResponse : InitResponse)
  : Status :=
  if IsInitialized status then
    if bool_decide (irIsSecure initResponse <> IsSecure status) then status
    else if bool_decide (irChecksum initResponse <> Checksum status) then status
    else appendNode status (ID n)
  else
    if bool_decide (irIsSecure initResponse <> IsSecure status)
       && negb (irIsSecure initResponse)
    then status
    else
      appendNode
        (mkStatus (stID status) true (irIsSecure initResponse)
           (irChecksum initResponse) (Nodes status) (Policy status))
        (ID n).

Definition generateStatus (now : Z) (kmrt : Runtime) (oldStatus : Status)
    (nodes : list Node) : Status :=
  let status :=
    mkStatus (rtID kmrt) (IsInitialized oldStatus) (IsSecure oldStatus)
      (Checksum oldStatus) [] (Policy oldStatus) in
  let rawPolicy :=
    match Policy status with Some p => marshalPolicy p | None => [] end in
  let policyHash := sha3Sum256 rawPolicy in
  foldl (fun status n =>
           match verifiedResponse now kmrt policyHash n with
           | None => status
           | Some initResponse => acceptNode status n initResponse
           end)
        status nodes.

(** Modelled from the spec: [keymanagerState] is absent from the sources.
    [state.Status(id)] yields no status for a runtime without a previous
    status, the stored status, or an error when the record does not
    decode; [SetStatus] stores the serialized status under its id. *)
Definition stateStatus (tree : gmap Namespace Bytes) (id : Namespace)
  : option (option Status) :=
  match tree !! id with
  | None => Some None
  | Some raw =>
      match unmarshalStatus raw with
      | Some s => Some (Some s)
      | None => None
      end
  end.

Definition SetStatus (status : Status) (tree : gmap Namespace Bytes)
  : gmap Namespace Bytes :=
  <[stID status := marshalStatus status]> tree.

(** [for _, rt := range runtimes] of [onEpochChange]. *)
Fixpoint recomputeStatuses (now : Z) (nodes : list Node)
    (runtimes : list Runtime) (tree : gmap Namespace Bytes)
    (toEmit : list Status)
  : option error * gmap Namespace Bytes * list Status :=
  match runtimes with
  | [] => (None, tree, toEmit)
  | rt :: rest =>
      if bool_decide (Kind rt <> KindKeyManager) then
        recomputeStatuses now nodes rest tree toEmit
      else
        match stateStatus tree (rtID rt) with
        | None => (Some (ErrStatusQuery (rtID rt)), tree, toEmit)
        | Some stored =>
            let forceEmit := bool_decide (stored = None) in
            let oldStatus :=
              default (mkStatus (rtID rt) false false [] [] None) stored in
            let newStatus := generateStatus now rt oldStatus nodes in
            if forceEmit
               || bool_decide (marshalStatus oldStatus <> marshalStatus newStatus)
            then
              recomputeStatuses now nodes rest (SetStatus newStatus tree)
                (toEmit ++ [newStatus])
            else recomputeStatuses now nodes rest tree toEmit
        end
  end.

Definition onEpochChange (ctx : Context) : option error * Context :=
  let runtimes := regRuntimes ctx in
  let nodes := SortNodeList (regNodes ctx) in
  match recomputeStatuses (now ctx) nodes runtimes (kmTree ctx) [] with
  | (Some err, tree, _) =>
      (Some err, mkContext (now ctx) (regRuntimes ctx) (regNodes ctx) tree
                   (events ctx))
  | (None, tree, toEmit) =>
      (None, mkContext (now ctx) (regRuntimes ctx) (regNodes ctx) tree
               (if decide (0 < length toEmit)%nat
                then events ctx ++ [EvStatusUpdate toEmit]
                else events ctx))
  end.

(** *** Specification vocabulary *)

(** The nodes that pass the role, runtime, TEE hardware, extra info and
    policy checksum checks, with their init responses, in list order. *)
Definition candidates (now : Z) (kmrt : Runtime) (policy : option Bytes)
    (nodes : list Node) : list (PublicKey * InitResponse) :=
  let policyHash :=
    sha3Sum256 (match policy with Some p => marshalPolicy p | None => [] end) in
  omap (fun n => (fun ir => (ID n, ir)) <$> verifiedResponse now kmrt policyHash n)
       nodes.

(** An uninitialized status may take its values from this response:
    a secure status is not turned insecure. *)
Definition mayInitialize (isSecure : bool) (ir : InitResponse) : bool :=
  negb (isSecure && negb (irIsSecure ir)).

(** The response agrees with the pair (is_secure, checksum). *)
Definition agrees (isSecure : bool) (checksum : Bytes) (ir : InitResponse) : bool :=
  bool_decide (irIsSecure ir = isSecure) && bool_decide (irChecksum ir = checksum).

(** The status of a runtime before the recomputation, and whether the
    recomputed status is stored and emitted. *)
Definition previousStatus (tree : gmap Namespace Bytes) (rt : Runtime)
  : option Status :=
  tree !! rtID rt ≫= unmarshalStatus.

Definition recomputed (now : Z) (nodes : list Node)
    (tree : gmap Namespace Bytes) (rt : Runtime) : Status :=
  generateStatus now rt
    (default (mkStatus (rtID rt) false false [] [] None) (previousStatus tree rt))
    nodes.

Definition changed (now : Z) (nodes : list Node)
    (tree : gmap Namespace Bytes) (rt : Runtime) : bool :=
  match previousStatus tree rt with
  | None => true
  | Some old =>
      bool_decide (marshalStatus old <> marshalStatus (recomputed now nodes tree rt))
  end.

(** The second part of the loop body, on a candidate. *)
Definition accept (status : Status) (c : PublicKey * InitResponse) : Status :=
  acceptNode status (mkNode c.1 0 []) c.2.

(** The ids of the candidates whose response agrees with the pair. *)
Definition agreeing (isSecure : bool) (checksum : Bytes)
    (cands : list (PublicKey * InitResponse)) : list PublicKey :=
  omap (fun c => if agrees isSecure checksum c.2 then Some c.1 else None) cands.

(** The statuses [onEpochChange] is expected to store and emit. *)
Definition expectedEmit (now : Z) (nodes : list Node)
    (tree : gmap Namespace Bytes) (runtimes : list Runtime) : list Status :=
  omap (fun rt => if bool_decide (Kind rt = KindKeyManager)
                     && changed now nodes tree rt
                  then Some (recomputed now nodes tree rt) else None)
       runtimes.

(** The ids of the key manager runtimes among [runtimes]. *)
Definition keyManagerIds (runtimes : list Runtime) : list Namespace :=
  omap (fun rt => if bool_decide (Kind rt = KindKeyManager)
                  then Some (rtID rt) else None) runtimes.

End App.

(** *** A small registry to run

    Key manager runtime 9 without a TEE; the extra info of a node's
    runtime is [is_secure; checksum] and nodes carry the key manager role
    bit 4.  Node 1 reports an insecure key manager with checksum 7, node 2
    a secure one with checksum 8, node 3 a secure one with checksum 8. *)
Definition testVerify (kmrt : Runtime) (nodeRt : NodeRuntime) (now : Z)
  : option InitResponse :=
  match ExtraInfo nodeRt with
  | [sec; cs] => Some (mkInitResponse (bool_decide (sec = 1)) [cs] [])
  | _ => None
  end.

Definition testMarshalStatus (s : Status) : Bytes :=
  stID s :: (if IsInitialized s then 1 else 0) :: (if IsSecure s then 1 else 0)
  :: Z.of_nat (length (Checksum s)) :: Checksum s ++ Nodes s.

Definition kmRuntime : Runtime := mkRuntime 9 KindKeyManager TEEHardwareInvalid.

Definition kmNode (id sec cs : Z) : Node :=
  mkNode id 4 [mkNodeRuntime 9 None [sec; cs]].

Definition kmNodes : list Node := [kmNode 1 0 7; kmNode 2 1 8; kmNode 3 1 8].

(** A status set secure in the genesis block, not yet initialized. *)
Definition genesisSecure : Status := mkStatus 9 false true [] [] None.

Definition kmContext : Context :=
  mkContext 0 [kmRuntime] kmNodes ∅ [].

(** The decoder for [testMarshalStatus], for statuses without a policy. *)
Definition testUnmarshalStatus (raw : Bytes) : option Status :=
  match raw with
  | id :: init :: sec :: n :: rest =>
      Some (mkStatus id (bool_decide (init = 1)) (bool_decide (sec = 1))
              (take (Z.to_nat n) rest) (drop (Z.to_nat n) rest) None)
  | _ => None
  end.

(** A registry state in which the record of the key manager runtime is
    corrupt. *)
Definition corruptContext : Context :=
  mkContext 0 [kmRuntime] kmNodes {[ 9 := [0] ]} [].

End KeyManager.

(* ===================================================================== *)
(** * Properties *)
(* ===================================================================== *)

Module AlgSpec.
Import Alg.
Local Open Scope Z_scope.

Lemma land_shiftr_1 (b n : Z) :
  Z.land (Z.shiftr b n) 1 = Z.b2z (Z.testbit b n).
Proof.
  change 1 with (Z.ones 1) at 1.
  rewrite Z.land_ones by lia.
  change (2 ^ 1) with 2.
  rewrite <- Z.bit0_mod, Z.shiftr_spec by lia.
  reflexivity.
Qed.

Lemma index_nth (l : list Z) (i : Z) :
  0 <= i < Z.of_nat (length l) ->
  index l i = Some (nth (Z.to_nat i) l 0).
Proof.
  intros Hi. unfold index. rewrite decide_True by lia.
  destruct (lookup_lt_is_Some_2 l (Z.to_nat i)) as [x Hx]; [lia|].
  rewrite Hx. f_equal. symmetry. by apply nth_lookup_Some.
Qed.

Lemma GetBit_spec (key : Key) (j : Z) :
  0 <= msbBix key -> 0 <= j < NumBits key ->
  GetBit key j = Some (Z.b2z (bitAt (k key) (msbBix key + j))).
Proof.
  intros Hm Hj. unfold GetBit, NumBits in *.
  rewrite decide_False by lia.
  rewrite Z.quot_div_nonneg, Z.rem_mod_nonneg by lia.
  rewrite index_nth.
  2:{ split; [apply Z.div_pos; lia|]. apply Z.div_lt_upper_bound; lia. }
  simpl. by rewrite land_shiftr_1.
Qed.

(** *** The reference implementation *)

Lemma testbit_bit01 (v x : Z) :
  v = 0 \/ v = 1 -> Z.testbit v x = (x =? 0) && (v =? 1).
Proof.
  intros [-> | ->].
  - rewrite Z.bits_0. by rewrite andb_false_r.
  - change 1 with (2 ^ 0) at 1. rewrite Z.pow2_bits_eqb by lia.
    rewrite andb_true_r. apply Z.eqb_sym.
Qed.

Lemma SetBit_spec (key : Key) (j v : Z) :
  0 <= msbBix key -> 0 <= j < NumBits key -> v = 0 \/ v = 1 ->
  exists key', SetBit key j v = Some key' /\
    msbBix key' = msbBix key /\
    length (k key') = length (k key) /\
    forall p, 0 <= p ->
      bitAt (k key') p =
      if decide (p = msbBix key + j) then (v =? 1) else bitAt (k key) p.
Proof.
  intros Hm Hj Hv. unfold SetBit.
  assert (Hlen : 0 <= (msbBix key + j) / 8 < Z.of_nat (length (k key))).
  { unfold NumBits in Hj. split; [apply Z.div_pos; lia|].
    apply Z.div_lt_upper_bound; lia. }
  rewrite decide_False by lia.
  rewrite decide_False by lia.
  rewrite Z.quot_div_nonneg, Z.rem_mod_nonneg by lia.
  rewrite index_nth by done. simpl.
  eexists; split; [reflexivity|]. simpl.
  split; [done|]. split; [by rewrite length_insert|].
  intros p Hp. unfold bitAt.
  set (kix := msbBix key + j) in *.
  pose proof (Z.mod_pos_bound kix 8 ltac:(lia)) as Hr.
  pose proof (Z.mod_pos_bound p 8 ltac:(lia)) as Hrp.
  destruct (decide (p / 8 = kix / 8)) as [Heq | Hne].
  - rewrite Heq.
    erewrite nth_lookup_Some by (apply list_lookup_insert_eq; lia).
    rewrite Z.lor_spec, Z.ldiff_spec.
    unfold toByte. change 256 with (2 ^ 8).
    rewrite !Z.mod_pow2_bits_low by lia.
    rewrite !Z.shiftl_spec by lia.
    rewrite (testbit_bit01 1), (testbit_bit01 v) by auto.
    case_decide as Hpk.
    + subst p. rewrite Z.sub_diag. simpl.
      rewrite andb_false_r. simpl. reflexivity.
    + assert (p mod 8 <> kix mod 8).
      { intros E. apply Hpk.
        rewrite (Z.div_mod p 8), (Z.div_mod kix 8) by lia. lia. }
      replace (7 - p mod 8 - (7 - kix mod 8) =? 0) with false
        by (symmetry; apply Z.eqb_neq; lia).
      simpl. rewrite andb_true_r, orb_false_r. reflexivity.
  - rewrite decide_False by (intros ->; done).
    f_equal. rewrite !nth_lookup. f_equal.
    assert (0 <= p / 8) by (apply Z.div_pos; lia).
    apply list_lookup_insert_ne. lia.
Qed.

Lemma copyBits_spec (sfx : Key) (n : nat) :
  0 <= msbBix sfx ->
  forall (pfx : Key) (jx : Z),
  0 <= msbBix pfx -> 0 <= jx ->
  jx + Z.of_nat n <= NumBits sfx ->
  jx + Z.of_nat n <= NumBits pfx ->
  exists pfx', copyBits sfx pfx jx n = Some pfx' /\
    msbBix pfx' = msbBix pfx /\
    length (k pfx') = length (k pfx) /\
    forall j, 0 <= j ->
      bitAt (k pfx') (msbBix pfx + j) =
      if decide (jx <= j < jx + Z.of_nat n)
      then bitAt (k sfx) (msbBix sfx + j)
      else bitAt (k pfx) (msbBix pfx + j).
Proof.
  intros Hs. induction n as [|n IH]; intros pfx jx Hp Hjx Hns Hnp.
  - simpl. exists pfx. repeat split; try done.
    intros j Hj. by rewrite decide_False by lia.
  - simpl. rewrite GetBit_spec by lia. simpl.
    destruct (SetBit_spec pfx jx (Z.b2z (bitAt (k sfx) (msbBix sfx + jx))))
      as (p1 & Hset & Hm1 & Hl1 & Hb1); [lia | lia | |].
    { destruct (bitAt _ _); auto. }
    rewrite Hset. simpl.
    destruct (IH p1 (jx + 1)) as (p2 & Hcopy & Hm2 & Hl2 & Hb2);
      [lia | lia | lia | unfold NumBits in *; rewrite Hl1, Hm1; lia |].
    exists p2. split; [done|]. split; [congruence|]. split; [congruence|].
    intros j Hj. rewrite <- Hm1, Hb2 by done. rewrite Hm1.
    destruct (decide (jx + 1 <= j < jx + 1 + Z.of_nat n)).
    + by rewrite decide_True by lia.
    + rewrite Hb1 by lia.
      destruct (decide (j = jx)) as [-> | Hne].
      * rewrite decide_True by done. rewrite decide_True by lia.
        by destruct (bitAt _ _).
      * rewrite decide_False by lia. by rewrite decide_False by lia.
Qed.

(** *** The shift-copy implementation *)

Lemma shiftCopy_spec (kk : list Z) (hi low : Z) (kx : nat) :
  forall (jx partial : Z) (pfxK : list Z),
  (kx <= length pfxK)%nat ->
  jx < Z.of_nat (length kk) ->
  partial = Z.shiftr (byteOr0 kk (jx + 1)) low ->
  exists res, shiftCopy kk hi low kx jx partial pfxK = Some res /\
    length res = length pfxK /\
    (forall i, (kx <= i)%nat -> res !! i = pfxK !! i) /\
    forall i, (i < kx)%nat ->
      res !! i =
      Some (Z.lor (Z.shiftr (byteOr0 kk (jx - (Z.of_nat kx - 1 - Z.of_nat i) + 1)) low)
                  (toByte (Z.shiftl (byteOr0 kk (jx - (Z.of_nat kx - 1 - Z.of_nat i))) hi))).
Proof.
  induction kx as [|kx IH]; intros jx partial pfxK Hlen Hjx Hpart.
  - simpl. exists pfxK. repeat split; try done. intros i Hi. lia.
  - simpl.
    assert (Hb : (if decide (0 <= jx) then index kk jx else Some 0)
                 = Some (byteOr0 kk jx)).
    { unfold byteOr0. case_decide; [|done]. by rewrite index_nth by lia. }
    rewrite Hb. simpl.
    set (pfxK' := <[kx := _]> pfxK).
    destruct (IH (jx - 1) (Z.shiftr (byteOr0 kk jx) low) pfxK')
      as (res & Hres & Hl & Hge & Hi).
    { unfold pfxK'. rewrite length_insert. lia. }
    { lia. }
    { f_equal. f_equal. lia. }
    exists res. split; [done|]. split.
    { rewrite Hl. unfold pfxK'. by rewrite length_insert. }
    split.
    { intros i Hle. rewrite Hge by lia. unfold pfxK'.
      apply list_lookup_insert_ne. lia. }
    intros i Hlt.
    destruct (decide (i = kx)) as [-> | Hne].
    + rewrite Hge by lia. unfold pfxK'.
      rewrite list_lookup_insert_eq by lia. subst partial.
      f_equal. f_equal; f_equal; f_equal; f_equal; lia.
    + rewrite Hi by lia. f_equal. f_equal; f_equal; f_equal; f_equal; lia.
Qed.

Lemma byteOr0_range (l : list Z) (j : Z) :
  Forall (fun b => 0 <= b < 256) l -> 0 <= byteOr0 l j < 256.
Proof.
  intros Hl. unfold byteOr0. case_decide; [|lia].
  rewrite nth_lookup. destruct (l !! Z.to_nat j) as [x|] eqn:E; simpl; [|lia].
  by apply (Forall_lookup_1 _ _ _ _ Hl E).
Qed.

Lemma testbit_byte_high (b x : Z) :
  0 <= b < 256 -> 8 <= x -> Z.testbit b x = false.
Proof.
  intros Hb Hx. rewrite <- (Z.mod_small b (2 ^ 8)) by (change (2 ^ 8) with 256; lia).
  apply Z.mod_pow2_bits_high. lia.
Qed.

(** One byte of the shift-copied prefix holds the low bits of one source
    byte followed by the high bits of the next. *)
Lemma shifted_byte_bit (b0 b1 hi t : Z) :
  0 <= b1 < 256 -> 0 < hi < 8 -> 0 <= t < 8 ->
  Z.testbit (Z.lor (Z.shiftr b1 (8 - hi)) (toByte (Z.shiftl b0 hi))) t =
  if decide (t < hi) then Z.testbit b1 (t + 8 - hi) else Z.testbit b0 (t - hi).
Proof.
  intros Hb1 Hhi Ht. rewrite Z.lor_spec, Z.shiftr_spec by lia.
  unfold toByte. change 256 with (2 ^ 8).
  rewrite Z.mod_pow2_bits_low, Z.shiftl_spec by lia.
  case_decide.
  - rewrite (Z.testbit_neg_r b0) by lia. rewrite orb_false_r.
    f_equal. lia.
  - rewrite (testbit_byte_high b1) by lia. reflexivity.
Qed.

Lemma divmod8 (q c d : Z) :
  q = 8 * c + d -> 0 <= d < 8 -> q / 8 = c /\ q mod 8 = d.
Proof. intros -> Hd. Z.div_mod_to_equations. lia. Qed.

Lemma SplitAt_spec (key : Key) (ix : Z) :
  wf key -> 0 <= ix <= NumBits key ->
  exists p, SplitAt key ix = Some (p, mkKey (k key) (ix + msbBix key)) /\
    0 <= msbBix p /\ NumBits p = ix /\
    forall j, 0 <= j < ix ->
      bitAt (k p) (msbBix p + j) = bitAt (k key) (msbBix key + j).
Proof.
  intros [Hbytes Hmsb] Hix. unfold SplitAt, NumBits in *.
  rewrite decide_False by lia.
  set (splitBix := ix + msbBix key).
  rewrite !Z.rem_mod_nonneg, !Z.quot_div_nonneg by lia.
  pose proof (Z.div_mod splitBix 8 ltac:(lia)) as Hdm.
  pose proof (Z.mod_pos_bound splitBix 8 ltac:(lia)) as Hr.
  assert (0 <= splitBix / 8) by (apply Z.div_pos; lia).
  case_decide as Hal.
  - (* byte aligned *)
    rewrite decide_True by lia.
    eexists; split; [reflexivity|]. simpl.
    rewrite length_take. split; [lia|]. split; [lia|].
    intros j Hj. unfold bitAt. f_equal.
    assert (0 <= (msbBix key + j) / 8 < splitBix / 8).
    { split; [apply Z.div_pos; lia|]. apply Z.div_lt_upper_bound; lia. }
    rewrite !nth_lookup. f_equal. apply lookup_take_lt. lia.
  - (* shift-copy *)
    set (nb := (ix + 7) / 8).
    pose proof (Z.div_mod (ix + 7) 8 ltac:(lia)) as Hnb.
    pose proof (Z.mod_pos_bound (ix + 7) 8 ltac:(lia)) as Hnbr.
    fold nb in Hnb.
    set (boundary := splitBix / 8) in *.
    set (hi := splitBix mod 8) in *.
    rewrite index_nth by lia. simpl.
    destruct (shiftCopy_spec (k key) hi (8 - hi) (Z.to_nat nb) (boundary - 1)
                (Z.shiftr (nth (Z.to_nat boundary) (k key) 0) (8 - hi))
                (replicate (Z.to_nat nb) 0))
      as (res & Hres & Hl & _ & Hi).
    { by rewrite length_replicate. }
    { lia. }
    { unfold byteOr0. rewrite decide_True by lia. do 3 f_equal. lia. }
    rewrite Hres. simpl. rewrite length_replicate in Hl.
    eexists; split; [reflexivity|]. simpl. rewrite Hl.
    split; [lia|]. split; [lia|].
    intros j Hj. unfold bitAt.
    set (p := 8 * nb - ix + j).
    pose proof (Z.div_mod p 8 ltac:(lia)) as Hp.
    pose proof (Z.mod_pos_bound p 8 ltac:(lia)) as Hpr.
    assert (Hpi : 0 <= p / 8 < nb).
    { split; [apply Z.div_pos; lia|]. apply Z.div_lt_upper_bound; lia. }
    erewrite (nth_lookup_Some res) by (apply Hi; lia).
    rewrite shifted_byte_bit; [| by apply byteOr0_range | lia | lia].
    rewrite !Z2Nat.id by lia.
    case_decide.
    + destruct (divmod8 (msbBix key + j) (boundary - nb + p / 8 + 1)
                  (p mod 8 + hi - 8)) as [-> ->]; [lia | lia |].
      unfold byteOr0. rewrite decide_True by lia.
      f_equal; [|lia]. do 2 f_equal. lia.
    + destruct (divmod8 (msbBix key + j) (boundary - nb + p / 8)
                  (p mod 8 + hi)) as [Hq ->]; [lia | lia |].
      assert (0 <= (msbBix key + j) / 8) by (apply Z.div_pos; lia).
      rewrite Hq in *.
      unfold byteOr0. rewrite decide_True by lia.
      f_equal; [|lia]. do 2 f_equal. lia.
Qed.

Lemma SplitAtObviouslyCorrect_spec (key : Key) (ix : Z) :
  wf key -> 0 <= ix <= NumBits key ->
  exists p, SplitAtObviouslyCorrect key ix
            = Some (p, mkKey (k key) (msbBix key + ix)) /\
    0 <= msbBix p /\ NumBits p = ix /\
    forall j, 0 <= j < ix ->
      bitAt (k p) (msbBix p + j) = bitAt (k key) (msbBix key + j).
Proof.
  intros [Hbytes Hmsb] Hix. unfold SplitAtObviouslyCorrect.
  rewrite decide_False by lia.
  rewrite Z.quot_div_nonneg by lia.
  set (nb := (ix + 7) / 8).
  pose proof (Z.div_mod (ix + 7) 8 ltac:(lia)) as Hnb.
  pose proof (Z.mod_pos_bound (ix + 7) 8 ltac:(lia)) as Hnbr.
  fold nb in Hnb.
  destruct (copyBits_spec (Clone key) (Z.to_nat ix) (proj1 Hmsb)
              (mkKey (replicate (Z.to_nat nb) 0) (8 * nb - ix)) 0)
    as (p & Hp & Hm & Hl & Hb).
  { simpl. lia. }
  { lia. }
  { unfold NumBits in *. simpl. lia. }
  { unfold NumBits. simpl. rewrite length_replicate. lia. }
  rewrite Hp. simpl. unfold DropBits.
  rewrite decide_False by (unfold NumBits in *; simpl; lia). simpl.
  exists p. split; [done|]. simpl in *.
  split; [lia|]. split.
  { unfold NumBits. rewrite Hl, Hm, length_replicate. lia. }
  intros j Hj. rewrite Hm, Hb by lia. by rewrite decide_True by lia.
Qed.

(** C10: for every well-formed key and every index [0 <= ix <= NumBits],
    the optimized [SplitAt] and the reference [SplitAtObviouslyCorrect]
    both return, and their prefixes (and their suffixes) have the same
    [NumBits] and the same [GetBit] at every position. *)
Theorem SplitAt_refines_obvious (key : Key) (ix : Z) :
  wf key -> 0 <= ix <= NumBits key ->
  exists pfx sfx pfx' sfx',
    SplitAt key ix = Some (pfx, sfx) /\
    SplitAtObviouslyCorrect key ix = Some (pfx', sfx') /\
    bitwiseEqual pfx pfx' /\ bitwiseEqual sfx sfx'.
Proof.
  intros Hwf Hix.
  destruct (SplitAt_spec key ix Hwf Hix) as (p & Hp & Hpm & Hpn & Hpb).
  destruct (SplitAtObviouslyCorrect_spec key ix Hwf Hix)
    as (q & Hq & Hqm & Hqn & Hqb).
  exists p, (mkKey (k key) (ix + msbBix key)), q,
    (mkKey (k key) (msbBix key + ix)).
  split; [done|]. split; [done|]. split.
  - split; [congruence|]. intros j Hj.
    exists (Z.b2z (bitAt (k key) (msbBix key + j))).
    rewrite !GetBit_spec by lia.
    rewrite Hpb, Hqb by lia. done.
  - rewrite (Z.add_comm ix). split; [done|].
    intros j Hj. destruct Hwf as [_ Hm].
    eexists. rewrite GetBit_spec; [done | simpl; lia | done].
Qed.

(** The test vector of [TestKeySplitAt] split at bit 3. *)
Lemma SplitAt_refines_obvious_witness :
  exists pfx sfx pfx' sfx',
    SplitAt (NewKey [0x7a; 0xa5]) 3 = Some (pfx, sfx) /\
    SplitAtObviouslyCorrect (NewKey [0x7a; 0xa5]) 3 = Some (pfx', sfx') /\
    bitwiseEqual pfx pfx' /\ bitwiseEqual sfx sfx'.
Proof.
  apply SplitAt_refines_obvious.
  - split; [repeat constructor; lia | simpl; lia].
  - unfold NumBits; simpl; lia.
Defined.

(** ** Keys as bit strings *)

(** *** The bit string of a key *)

Lemma omap_fmap_ext {A B} (f : A -> option B) (g : A -> B) (l : list A) :
  (forall x, x ∈ l -> f x = Some (g x)) -> omap f l = g <$> l.
Proof.
  induction l as [|x l IH]; intros H; simpl; [done|].
  rewrite (H x) by left. simpl. f_equal. apply IH.
  intros y Hy. apply H. by right.
Qed.

Lemma bits_fmap (key : Key) :
  wf key -> bits key = bitOf key <$> seq 0 (Z.to_nat (NumBits key)).
Proof.
  intros [_ Hm]. unfold bits. apply omap_fmap_ext.
  intros j Hj. apply elem_of_seq in Hj.
  rewrite GetBit_spec by lia. done.
Qed.

Lemma bits_length (key : Key) :
  wf key -> length (bits key) = Z.to_nat (NumBits key).
Proof. intros Hwf. by rewrite bits_fmap, length_fmap, length_seq. Qed.

Lemma NumBits_nonneg (key : Key) : wf key -> 0 <= NumBits key.
Proof. intros [_ Hm]. unfold NumBits. lia. Qed.

Lemma bits_lookup (key : Key) (j : Z) :
  wf key -> 0 <= j < NumBits key ->
  GetBit key j = bits key !! Z.to_nat j.
Proof.
  intros Hwf Hj. rewrite bits_fmap by done.
  rewrite list_lookup_fmap, lookup_seq_lt by lia. simpl.
  destruct Hwf as [_ Hm]. rewrite GetBit_spec by lia.
  unfold bitOf. by rewrite Z2Nat.id by lia.
Qed.

Lemma bits_01 (key : Key) :
  wf key -> Forall bit01 (bits key).
Proof.
  intros Hwf. rewrite bits_fmap by done.
  apply Forall_fmap, Forall_forall. intros j _. unfold bitOf, bit01. simpl.
  destruct (bitAt _ _); auto.
Qed.

Lemma bits_empty : bits EmptyKey = [].
Proof. reflexivity. Qed.

(** *** [Equals] and [IsPrefixOf] *)

Lemma sameBits_spec (a b : Key) (n : nat) :
  0 <= msbBix a -> 0 <= msbBix b ->
  forall i : nat,
  Z.of_nat (i + n) <= NumBits a -> Z.of_nat (i + n) <= NumBits b ->
  sameBits a b (Z.of_nat i) n
  = Some (bool_decide (bitOf a <$> seq i n = bitOf b <$> seq i n)).
Proof.
  intros Ha Hb. induction n as [|n IH]; intros i Hna Hnb; [done|].
  change (seq i (S n)) with (i :: seq (S i) n). rewrite !fmap_cons.
  cbn [sameBits]. rewrite !GetBit_spec by lia. cbn [mbind option_bind].
  fold (bitOf a i) (bitOf b i).
  case_decide as Hd.
  - rewrite bool_decide_false; [done|]. intros E. by simplify_eq.
  - replace (Z.of_nat i + 1) with (Z.of_nat (S i)) by lia.
    rewrite IH by lia. f_equal. apply bool_decide_ext. rewrite Hd.
    split; [intros E; by f_equal | intros E; by simplify_eq].
Qed.

Lemma Equals_bits (a b : Key) :
  wf a -> wf b -> Equals a b = Some (bool_decide (bits a = bits b)).
Proof.
  intros Hwa Hwb. unfold Equals.
  pose proof (NumBits_nonneg a Hwa). pose proof (NumBits_nonneg b Hwb).
  case_decide as Hn.
  - rewrite bool_decide_false; [done|]. intros E.
    apply (f_equal length) in E. rewrite !bits_length in E by done. lia.
  - rewrite (sameBits_spec a b _ (proj1 (proj2 Hwa)) (proj1 (proj2 Hwb)) 0%nat)
      by lia.
    rewrite !bits_fmap by done. by rewrite Hn.
Qed.

Lemma IsPrefixOf_bits (a b : Key) :
  wf a -> wf b ->
  IsPrefixOf a b = Some (bool_decide (bits a `prefix_of` bits b)).
Proof.
  intros Hwa Hwb. unfold IsPrefixOf.
  pose proof (NumBits_nonneg a Hwa). pose proof (NumBits_nonneg b Hwb).
  case_decide as Hn.
  - rewrite bool_decide_false; [done|]. intros E.
    apply prefix_length in E. rewrite !bits_length in E by done. lia.
  - rewrite (sameBits_spec a b _ (proj1 (proj2 Hwa)) (proj1 (proj2 Hwb)) 0%nat)
      by lia.
    f_equal. apply bool_decide_ext.
    rewrite !bits_fmap by done.
    replace (Z.to_nat (NumBits b))
      with (Z.to_nat (NumBits a) + (Z.to_nat (NumBits b) - Z.to_nat (NumBits a)))%nat
      by lia.
    rewrite seq_app, fmap_app. simpl. split.
    + intros ->. by eexists.
    + intros [t E]. apply app_inj_1 in E as [E _]; [done|].
      by rewrite !length_fmap.
Qed.

(** *** Byte ranges *)

Lemma byte_bits (x : Z) :
  0 <= x -> (forall n, 8 <= n -> Z.testbit x n = false) -> 0 <= x < 256.
Proof.
  intros Hx Hb. split; [done|].
  assert (E : x = x mod 2 ^ 8).
  { apply Z.bits_inj'. intros n Hn. destruct (decide (n < 8)).
    - by rewrite Z.mod_pow2_bits_low by lia.
    - rewrite Z.mod_pow2_bits_high by lia. apply Hb. lia. }
  rewrite E. apply Z.mod_pos_bound. lia.
Qed.

Lemma lor_byte (x y : Z) :
  0 <= x < 256 -> 0 <= y < 256 -> 0 <= Z.lor x y < 256.
Proof.
  intros Hx Hy. apply byte_bits; [apply Z.lor_nonneg; lia|].
  intros n Hn. by rewrite Z.lor_spec, !testbit_byte_high by lia.
Qed.

Lemma land_byte (x y : Z) : 0 <= x < 256 -> 0 <= y -> 0 <= Z.land x y < 256.
Proof.
  intros Hx Hy. apply byte_bits; [apply Z.land_nonneg; lia|].
  intros n Hn. by rewrite Z.land_spec, (testbit_byte_high x) by lia.
Qed.

Lemma ldiff_byte (x y : Z) : 0 <= x < 256 -> 0 <= Z.ldiff x y < 256.
Proof.
  intros Hx. apply byte_bits; [apply Z.ldiff_nonneg; lia|].
  intros n Hn. by rewrite Z.ldiff_spec, (testbit_byte_high x) by lia.
Qed.

Lemma shiftr_byte (x n : Z) : 0 <= x < 256 -> 0 <= n -> 0 <= Z.shiftr x n < 256.
Proof.
  intros Hx Hn. apply byte_bits; [apply Z.shiftr_nonneg; lia|].
  intros p Hp. rewrite Z.shiftr_spec by lia. apply testbit_byte_high; lia.
Qed.

Lemma toByte_range (x : Z) : 0 <= toByte x < 256.
Proof. unfold toByte. apply Z.mod_pos_bound. lia. Qed.

Lemma shiftCopy_bytes (kk : list Z) (hi low : Z) (kx : nat) :
  Forall (fun b => 0 <= b < 256) kk -> 0 <= low ->
  forall jx partial pfxK res,
  0 <= partial < 256 ->
  Forall (fun b => 0 <= b < 256) pfxK ->
  shiftCopy kk hi low kx jx partial pfxK = Some res ->
  Forall (fun b => 0 <= b < 256) res.
Proof.
  intros Hkk Hlow. induction kx as [|kx IH]; intros jx partial pfxK res Hp Hpfx; simpl.
  - by intros [= <-].
  - destruct (if decide (0 <= jx) then index kk jx else Some 0) as [b|] eqn:Hb;
      [|done]. simpl.
    assert (0 <= b < 256) as Hbr.
    { case_decide; [|simplify_eq; lia]. unfold index in Hb.
      case_decide; [|done]. by apply (Forall_lookup_1 _ _ _ _ Hkk Hb). }
    apply IH.
    + by apply shiftr_byte.
    + apply Forall_insert; [done|]. apply lor_byte; [done | apply toByte_range].
Qed.

(** *** [SplitAt] *)

Lemma bitOf_ext (a b : Key) (off n : nat) :
  (forall j, (j < n)%nat -> bitOf a j = bitOf b (off + j)) ->
  bitOf a <$> seq 0 n = bitOf b <$> seq off n.
Proof.
  intros H. replace (seq off n) with (seq (off + 0) n) by (f_equal; lia).
  rewrite <- (fmap_add_seq off 0 n), <- list_fmap_compose.
  apply list_eq. intros i. rewrite !list_lookup_fmap.
  destruct (seq 0 n !! i) as [j|] eqn:E; [|done]. simpl.
  apply lookup_seq in E as [-> ?]. f_equal. by apply H.
Qed.

Lemma SplitAt_bits (key : Key) (ix : Z) :
  wf key -> 0 <= ix <= NumBits key ->
  exists pfx sfx, SplitAt key ix = Some (pfx, sfx) /\
    wf pfx /\ wf sfx /\
    bits pfx = take (Z.to_nat ix) (bits key) /\
    bits sfx = drop (Z.to_nat ix) (bits key) /\
    DropBits key ix = Some sfx.
Proof.
  intros Hwf Hix.
  destruct (SplitAt_spec key ix Hwf Hix) as (p & Hp & Hpm & Hpn & Hpb).
  pose proof Hwf as [Hbytes Hmsb].
  assert (Hwp : wf p).
  { split; [|unfold NumBits in Hpn; lia].
    revert Hp. unfold SplitAt. rewrite decide_False by lia.
    case_decide.
    - case_decide; [|done]. intros [= <-]. simpl. by apply Forall_take.
    - destruct (index (k key) _) as [kb|] eqn:Hkb; [|done]. simpl.
      destruct (shiftCopy _ _ _ _ _ _ _) as [res|] eqn:Hres; [|done].
      intros [= <-]. simpl.
      assert (0 <= kb < 256).
      { unfold index in Hkb. case_decide; [|done].
        by apply (Forall_lookup_1 _ _ _ _ Hbytes Hkb). }
      pose proof (Z.rem_bound_pos (ix + msbBix key) 8 ltac:(lia) ltac:(lia)).
      eapply shiftCopy_bytes; [exact Hbytes | | | | exact Hres].
      + lia.
      + apply shiftr_byte; lia.
      + apply Forall_replicate. lia. }
  set (s := mkKey (k key) (ix + msbBix key)) in *.
  assert (Hws : wf s).
  { split; [done|]. unfold NumBits in Hix. simpl. lia. }
  assert (Hns : NumBits s = NumBits key - ix).
  { unfold NumBits. simpl. lia. }
  exists p, s. split; [done|]. split; [done|]. split; [done|].
  rewrite !bits_fmap by done. rewrite Hpn, Hns.
  split; [|split].
  - rewrite <- fmap_take, take_seq.
    replace (Z.to_nat ix `min` Z.to_nat (NumBits key))%nat with (Z.to_nat ix) by lia.
    apply (bitOf_ext p key 0). intros j Hj. unfold bitOf.
    f_equal. apply Hpb. lia.
  - rewrite <- fmap_drop, drop_seq. simpl.
    replace (Z.to_nat (NumBits key - ix))
      with (Z.to_nat (NumBits key) - Z.to_nat ix)%nat by lia.
    apply bitOf_ext. intros j Hj. unfold bitOf, s. simpl.
    do 2 f_equal. lia.
  - unfold DropBits. rewrite decide_False by lia.
    unfold s. do 2 f_equal. lia.
Qed.

Lemma SplitAt_out_of_range (key : Key) (ix : Z) :
  ix < 0 \/ NumBits key < ix -> SplitAt key ix = None.
Proof. intros H. unfold SplitAt. by rewrite decide_True. Qed.

(** *** [MSB] and [MSBAndDerive] *)

Lemma MSB_GetBit (key : Key) :
  NumBits key <> 0 -> 0 <= NumBits key -> MSB key = GetBit key 0.
Proof.
  intros Hne Hn. unfold MSB, IsEmpty, GetBit.
  rewrite bool_decide_false by done. rewrite decide_False by lia.
  by rewrite Z.add_0_r.
Qed.

Lemma MSBAndDerive_bits (key : Key) :
  wf key ->
  match MSBAndDerive key with
  | Some (b, key') =>
      wf key' /\ bits key = b :: bits key' /\ GetBit key 0 = Some b /\
      DropBits key 1 = Some key'
  | None => bits key = []
  end.
Proof.
  intros Hwf. pose proof (NumBits_nonneg key Hwf) as Hn.
  pose proof Hwf as [Hbytes Hm].
  unfold MSBAndDerive. destruct (decide (NumBits key = 0)) as [Hz | Hnz].
  - unfold MSB, IsEmpty. rewrite bool_decide_true by done. simpl.
    unfold bits. by rewrite Hz.
  - rewrite MSB_GetBit by done. rewrite GetBit_spec by lia. simpl.
    set (key' := mkKey (k key) (msbBix key + 1)).
    assert (Hw' : wf key').
    { split; [done|]. unfold NumBits in *. simpl. lia. }
    split; [done|]. split; [|split; [done|]].
    + rewrite !bits_fmap by done.
      replace (Z.to_nat (NumBits key)) with (S (Z.to_nat (NumBits key'))).
      2:{ unfold NumBits in *. simpl. lia. }
      change (seq 0 (S ?n)) with (0%nat :: seq 1 n). rewrite fmap_cons.
      f_equal.
      symmetry. apply (bitOf_ext key' key 1). intros j Hj.
      unfold bitOf, key'. simpl. do 2 f_equal. lia.
    + unfold DropBits. by rewrite decide_False by lia.
Qed.

(** *** [SetBit] *)

Lemma SetBit_bits (key : Key) (j v : Z) :
  wf key -> 0 <= j < NumBits key -> v = 0 \/ v = 1 ->
  exists key', SetBit key j v = Some key' /\
    wf key' /\ bits key' = <[Z.to_nat j := v]> (bits key).
Proof.
  intros Hwf Hj Hv. pose proof Hwf as [Hbytes Hm].
  destruct (SetBit_spec key j v) as (key' & Hset & Hm' & Hl' & Hb');
    [lia | done | done |].
  exists key'. split; [done|].
  assert (Hw' : wf key').
  { split; [|rewrite Hm', Hl'; done].
    revert Hset. unfold SetBit.
    rewrite decide_False by lia. rewrite decide_False by lia.
    destruct (index (k key) _) as [old|] eqn:Hold; [|done]. simpl.
    intros [= <-]. simpl.
    apply Forall_insert; [done|].
    apply lor_byte; [|apply toByte_range].
    apply ldiff_byte. unfold index in Hold. case_decide; [|done].
    by apply (Forall_lookup_1 _ _ _ _ Hbytes Hold). }
  split; [done|].
  assert (Hn' : NumBits key' = NumBits key).
  { unfold NumBits. by rewrite Hm', Hl'. }
  rewrite !bits_fmap by done. rewrite Hn'.
  apply list_eq. intros i.
  destruct (decide (i = Z.to_nat j)) as [-> | Hne].
  - rewrite list_lookup_insert_eq by (rewrite length_fmap, length_seq; lia).
    rewrite list_lookup_fmap, lookup_seq_lt by lia. simpl.
    unfold bitOf. rewrite Hm', Hb' by lia.
    rewrite decide_True by lia. destruct Hv as [-> | ->]; done.
  - rewrite list_lookup_insert_ne by done.
    rewrite !list_lookup_fmap.
    destruct (seq 0 _ !! i) as [i'|] eqn:E; [|done]. simpl.
    apply lookup_seq in E as [-> ?]. simpl.
    unfold bitOf. rewrite Hm', Hb' by lia.
    by rewrite decide_False by lia.
Qed.

(** *** [DiffAt] and [cmp] *)

Lemma firstDiff_spec (a b : Key) (n : nat) :
  0 <= msbBix a -> 0 <= msbBix b ->
  forall i : nat,
  Z.of_nat (i + n) <= NumBits a -> Z.of_nat (i + n) <= NumBits b ->
  exists found, firstDiff a b (Z.of_nat i) n = Some found /\
    forall ta tb,
      compareBits ((bitOf a <$> seq i n) ++ ta) ((bitOf b <$> seq i n) ++ tb)
        (Z.of_nat i)
      = match found with
        | Some r => r
        | None => compareBits ta tb (Z.of_nat (i + n))
        end.
Proof.
  intros Ha Hb. induction n as [|n IH]; intros i Hna Hnb.
  - exists None. split; [done|]. intros ta tb. simpl. by rewrite Nat.add_0_r.
  - change (seq i (S n)) with (i :: seq (S i) n). rewrite !fmap_cons.
    cbn [firstDiff]. rewrite !GetBit_spec by lia. cbn [mbind option_bind].
    fold (bitOf a i) (bitOf b i).
    destruct (decide (bitOf a i <> bitOf b i)) as [Hd | Hd].
    + eexists. split; [reflexivity|]. intros ta tb. simpl.
      by rewrite decide_True by done.
    + replace (Z.of_nat i + 1) with (Z.of_nat (S i)) by lia.
      destruct (IH (S i)) as (found & Hf & Hc); [lia | lia |].
      exists found. split; [done|]. intros ta tb. simpl.
      rewrite decide_False by done.
      replace (Z.of_nat i + 1) with (Z.of_nat (S i)) by lia.
      rewrite Hc. by replace (S i + n)%nat with (i + S n)%nat by lia.
Qed.

Lemma bits_split (key : Key) (n : nat) :
  wf key -> Z.of_nat n <= NumBits key ->
  bits key = (bitOf key <$> seq 0 n)
             ++ (bitOf key <$> seq n (Z.to_nat (NumBits key) - n)).
Proof.
  intros Hwf Hn. rewrite bits_fmap by done.
  rewrite <- fmap_app. f_equal.
  replace (Z.to_nat (NumBits key)) with (n + (Z.to_nat (NumBits key) - n))%nat
    at 1 by lia.
  by rewrite seq_app.
Qed.

Lemma DiffAt_compareBits (a b : Key) :
  wf a -> wf b -> DiffAt a b = Some (compareBits (bits a) (bits b) 0).
Proof.
  intros Hwa Hwb.
  pose proof (NumBits_nonneg a Hwa) as Hna.
  pose proof (NumBits_nonneg b Hwb) as Hnb.
  pose proof Hwa as [_ Hma]. pose proof Hwb as [_ Hmb].
  unfold DiffAt.
  set (lim := Z.to_nat (Alg.min (NumBits a) (NumBits b))).
  assert (Hlim : Z.of_nat lim = Z.min (NumBits a) (NumBits b)).
  { unfold lim, Alg.min. case_decide; lia. }
  destruct (firstDiff_spec a b lim (proj1 Hma) (proj1 Hmb) 0%nat)
    as (found & Hf & Hc); [lia | lia |].
  change (Z.of_nat 0) with 0 in Hf. rewrite Hf. cbn [mbind option_bind].
  rewrite (bits_split a lim), (bits_split b lim) by (done || lia).
  rewrite Hc. destruct found as [r|]; [done|].
  simpl. rewrite Hlim.
  destruct (decide (NumBits a < NumBits b)) as [Hlt | Hge].
  - replace (Z.to_nat (NumBits a) - lim)%nat with 0%nat by lia.
    replace (Z.to_nat (NumBits b) - lim)%nat
      with (S (Z.to_nat (NumBits b) - lim - 1))%nat by lia.
    rewrite GetBit_spec by lia. simpl.
    replace (Z.min (NumBits a) (NumBits b)) with (NumBits a) by lia.
    unfold bitOf. replace (Z.of_nat lim) with (NumBits a) by lia.
    by destruct (decide (_ = 0)).
  - destruct (decide (NumBits a > NumBits b)) as [Hgt | Hle].
    + replace (Z.to_nat (NumBits b) - lim)%nat with 0%nat by lia.
      replace (Z.to_nat (NumBits a) - lim)%nat
        with (S (Z.to_nat (NumBits a) - lim - 1))%nat by lia.
      rewrite GetBit_spec by lia. simpl.
      replace (Z.min (NumBits a) (NumBits b)) with (NumBits b) by lia.
      unfold bitOf. replace (Z.of_nat lim) with (NumBits b) by lia.
      by destruct (decide (_ = 0)).
    + replace (Z.to_nat (NumBits b) - lim)%nat with 0%nat by lia.
      replace (Z.to_nat (NumBits a) - lim)%nat with 0%nat by lia.
      simpl. do 2 f_equal. lia.
Qed.

Lemma compareBits_sign_shift (la lb : list Z) (i j : Z) :
  (compareBits la lb i).1 = (compareBits la lb j).1.
Proof.
  revert lb i j. induction la as [|x la IH]; intros [|y lb] i j; simpl;
    repeat case_decide; try done; try apply IH.
Qed.

Lemma compareBits_sym (la lb : list Z) (i : Z) :
  Forall bit01 la -> Forall bit01 lb ->
  compareBits lb la i = (- (compareBits la lb i).1, (compareBits la lb i).2).
Proof.
  intros Ha. revert lb i. induction Ha as [|x la Hx Ha IH];
    intros lb i Hb; destruct Hb as [|y lb Hy Hb]; simpl.
  - done.
  - by case_decide.
  - by case_decide.
  - unfold bit01 in *. repeat case_decide; try done; try lia.
    by apply IH.
Qed.

Lemma compareBits_zero (la lb : list Z) (i : Z) :
  (compareBits la lb i).1 = 0 <-> la = lb.
Proof.
  revert lb i. induction la as [|x la IH]; intros [|y lb] i; simpl.
  - done.
  - by case_decide.
  - by case_decide.
  - case_decide as Hd.
    + split; [by case_decide | intros [= -> _]; done].
    + subst y. rewrite IH.
      split; [by intros -> | by intros [= ->]].
Qed.

Lemma compareBits_range (la lb : list Z) (i : Z) :
  (compareBits la lb i).1 = -1 \/ (compareBits la lb i).1 = 0
  \/ (compareBits la lb i).1 = 1.
Proof.
  revert lb i. induction la as [|x la IH]; intros [|y lb] i; simpl;
    repeat case_decide; auto.
Qed.

(** The position [compareBits] returns is the length of the longest common
    prefix; the sign is decided by what stands there. *)
Lemma compareBits_pos (la lb : list Z) (i : Z) :
  Forall bit01 la -> Forall bit01 lb ->
  exists p : nat,
    (compareBits la lb i).2 = i + Z.of_nat p /\
    take p la = take p lb /\
    ((compareBits la lb i).1 <> 0 -> la !! p <> lb !! p) /\
    ((compareBits la lb i).1 = 0 -> p = length la) /\
    ((compareBits la lb i).1 = -1 <->
       (la !! p = Some 0 /\ lb !! p <> Some 0)
       \/ (la !! p = None /\ lb !! p = Some 1)).
Proof.
  intros Ha. revert lb i. induction Ha as [|x la Hx Ha IH];
    intros lb i Hb; destruct Hb as [|y lb Hy Hb]; simpl.
  - exists 0%nat. simpl. split; [lia|]. repeat split; try done.
    + intros [[? _] | [_ ?]]; done.
  - exists 0%nat. unfold bit01 in *. simpl.
    case_decide; simpl; (split; [lia|]); repeat split; try done;
      try (intros [[? _] | [_ ?]]; simplify_eq; lia).
    intros _. right. split; [done|]. f_equal. lia.
  - exists 0%nat. unfold bit01 in *. simpl.
    case_decide; simpl; (split; [lia|]); repeat split; try done;
      try (intros [[? _] | [? _]]; simplify_eq; lia).
    intros _. left. split; [by subst|done].
  - unfold bit01 in *. case_decide as Hd.
    + exists 0%nat. simpl.
      destruct (decide (x = 0)) as [-> | Hx0]; simpl.
      * split; [lia|]. split; [done|].
        split; [intros _ E; by simplify_eq|]. split; [done|].
        split; [|done]. intros _. left. split; [done|].
        intros E. by simplify_eq.
      * split; [lia|]. split; [done|].
        split; [intros _ E; by simplify_eq|]. split; [done|].
        split; [done|]. intros [[E _] | [E _]]; by simplify_eq.
    + subst y.
      destruct (IH lb (i + 1) Hb) as (p & Hp & Ht & Hne & Hz & Hs).
      exists (S p). simpl. split; [lia|]. split; [by f_equal|].
      split; [done|]. split; [intros E; f_equal; by apply Hz | done].
Qed.

Lemma compareBits_trans (la lb lc : list Z) (i : Z) :
  Forall bit01 la -> Forall bit01 lb -> Forall bit01 lc ->
  (compareBits la lb i).1 = -1 -> (compareBits lb lc i).1 = -1 ->
  (compareBits la lc i).1 = -1.
Proof.
  intros Ha. revert lb lc i. induction Ha as [|x la Hx Ha IH];
    intros lb lc i Hb Hc; destruct Hb as [|y lb Hy Hb];
    destruct Hc as [|z lc Hz Hc]; unfold bit01 in *; simpl;
    repeat case_decide; simpl; try done; try lia.
  by apply IH.
Qed.

(** *** [HashData] *)

Lemma lengthHeader_fresh (nb : Z) :
  lengthHeader nb (replicate 17 0) = (headerByte nb <$> seq 0 16) ++ [0].
Proof. reflexivity. Qed.

Lemma headerByte_inj (n n' : Z) :
  0 <= n < 2 ^ 128 -> 0 <= n' < 2 ^ 128 ->
  headerByte n <$> seq 0 16 = headerByte n' <$> seq 0 16 -> n = n'.
Proof.
  intros Hn Hn' E. apply Z.bits_inj'. intros p Hp.
  destruct (decide (p < 128)) as [Hlt | Hge].
  - assert (Hq : 0 <= p / 8 < 16).
    { split; [apply Z.div_pos; lia|]. apply Z.div_lt_upper_bound; lia. }
    pose proof (Z.div_mod p 8 ltac:(lia)) as Hdm.
    pose proof (Z.mod_pos_bound p 8 ltac:(lia)) as Hr.
    apply (f_equal (fun l => l !! Z.to_nat (15 - p / 8))) in E.
    rewrite !list_lookup_fmap, lookup_seq_lt in E by lia.
    simpl in E. injection E as E. unfold headerByte, toByte in E.
    apply (f_equal (fun x => Z.testbit x (p mod 8))) in E.
    change 256 with (2 ^ 8) in E.
    rewrite !Z.mod_pow2_bits_low, !Z.shiftr_spec in E by lia.
    replace (p mod 8 + 8 * (16 - 1 - Z.of_nat (Z.to_nat (15 - p / 8))))
      with p in E by lia.
    done.
  - rewrite <- (Z.mod_small n (2 ^ 128)), <- (Z.mod_small n' (2 ^ 128)) by lia.
    by rewrite !Z.mod_pow2_bits_high by lia.
Qed.

(** What [HashData] returns for a non-empty key: the length header, the
    partial byte with the consumed bits masked off, and the remaining
    bytes; every bit of the key can be read off the partial byte and the
    rest. *)
Lemma HashData_form (key : Key) :
  wf key -> NumBits key <> 0 ->
  let r := (- NumBits key) mod 8 in
  exists partial rest,
    HashData key
    = Some ((headerByte (NumBits key) <$> seq 0 16) ++ [partial], rest) /\
    0 <= partial < 2 ^ (8 - r) /\
    Forall (fun b => 0 <= b < 256) rest /\
    Z.of_nat (length rest) = (NumBits key + r) / 8 - 1 /\
    forall j : nat, Z.of_nat j < NumBits key ->
      bitOf key j
      = Z.b2z (if decide (Z.of_nat j < 8 - r)
               then Z.testbit partial (7 - r - Z.of_nat j)
               else Z.testbit
                      (nth (Z.to_nat ((Z.of_nat j - (8 - r)) / 8)) rest 0)
                      (7 - (Z.of_nat j - (8 - r)) mod 8)).
Proof.
  intros Hwf Hne r. pose proof Hwf as [Hbytes Hm].
  pose proof (NumBits_nonneg key Hwf) as Hn.
  set (m := msbBix key) in *. set (len := Z.of_nat (length (k key))) in *.
  assert (HN : NumBits key = 8 * len - m) by done.
  pose proof (Z.div_mod m 8 ltac:(lia)) as Hdm.
  pose proof (Z.mod_pos_bound m 8 ltac:(lia)) as Hr0.
  assert (Hq : 0 <= m / 8 < len).
  { split; [apply Z.div_pos; lia|]. apply Z.div_lt_upper_bound; lia. }
  assert (Hrr : r = m mod 8).
  { unfold r. rewrite HN. replace (- (8 * len - m)) with (m + (- len) * 8) by lia.
    by rewrite Z.mod_add by lia. }
  rewrite Hrr. clear r Hrr. set (r := m mod 8) in *. set (q := m / 8) in *.
  unfold HashData. fold m.
  rewrite Z.quot_div_nonneg, Z.rem_mod_nonneg by lia. fold q r.
  rewrite index_nth by (fold len; lia). cbn [mbind option_bind].
  set (B := nth (Z.to_nat q) (k key) 0).
  assert (HB : 0 <= B < 256).
  { unfold B. rewrite nth_lookup.
    destruct (k key !! Z.to_nat q) as [x|] eqn:E; simpl; [|lia].
    by apply (Forall_lookup_1 _ _ _ _ Hbytes E). }
  assert (Hmask : Z.land B (toByte (Z.shiftl 1 (8 - r) - 1)) = B mod 2 ^ (8 - r)).
  { rewrite Z.shiftl_1_l.
    assert (2 ^ (8 - r) <= 2 ^ 8) by (apply Z.pow_le_mono_r; lia).
    assert (0 < 2 ^ (8 - r)) by (apply Z.pow_pos_nonneg; lia).
    unfold toByte. rewrite Z.mod_small by (change 256 with (2 ^ 8); lia).
    rewrite <- Z.land_ones by lia. f_equal.
    rewrite Z.ones_equiv. lia. }
  rewrite Hmask, lengthHeader_fresh.
  exists (B mod 2 ^ (8 - r)), (drop (Z.to_nat (q + 1)) (k key)).
  split.
  { reflexivity. }
  split; [apply Z.mod_pos_bound, Z.pow_pos_nonneg; lia|].
  split; [by apply Forall_drop|].
  split.
  { rewrite length_drop. fold len.
    replace (NumBits key + r) with ((len - q) * 8) by lia.
    rewrite Z.div_mul by lia. lia. }
  intros j Hj. unfold bitOf, bitAt. fold m. f_equal.
  case_decide as Hlow.
  - destruct (divmod8 (m + Z.of_nat j) q (r + Z.of_nat j)) as [-> ->];
      [lia | lia |].
    fold B. rewrite Z.mod_pow2_bits_low by lia. f_equal. lia.
  - set (j' := Z.of_nat j - (8 - r)).
    pose proof (Z.div_mod j' 8 ltac:(lia)) as Hdj.
    pose proof (Z.mod_pos_bound j' 8 ltac:(lia)) as Hrj.
    assert (0 <= j' / 8) by (apply Z.div_pos; lia).
    destruct (divmod8 (m + Z.of_nat j) (q + 1 + j' / 8) (j' mod 8)) as [-> ->];
      [lia | lia |].
    f_equal. rewrite !nth_lookup, lookup_drop. do 2 f_equal. lia.
Qed.

Lemma HashData_empty (key : Key) :
  wf key -> NumBits key = 0 -> HashData key = None.
Proof.
  intros [Hbytes Hm] Hz. unfold HashData, NumBits in *.
  rewrite Z.quot_div_nonneg by lia.
  replace (msbBix key) with (Z.of_nat (length (k key)) * 8) by lia.
  rewrite Z.div_mul by lia. unfold index. rewrite decide_True by lia.
  rewrite Nat2Z.id. by rewrite lookup_ge_None_2.
Qed.

Lemma b2z_inj (x y : bool) : Z.b2z x = Z.b2z y -> x = y.
Proof. by destruct x, y. Qed.

(** Keys with the same bit string have the same hash data. *)
Lemma HashData_of_bits (a b : Key) :
  wf a -> wf b -> NumBits a <> 0 -> bits a = bits b ->
  HashData a = HashData b.
Proof.
  intros Hwa Hwb Hne Hbits.
  assert (Hn : NumBits a = NumBits b).
  { apply (f_equal length) in Hbits. rewrite !bits_length in Hbits by done.
    pose proof (NumBits_nonneg a Hwa). pose proof (NumBits_nonneg b Hwb). lia. }
  destruct (HashData_form a Hwa Hne) as (pa & ra & Ha & Hpa & Hra & Hla & Hba).
  destruct (HashData_form b Hwb ltac:(congruence))
    as (pb & rb & Hb & Hpb & Hrb & Hlb & Hbb).
  rewrite Ha, Hb, <- Hn. rewrite <- Hn in Hpb, Hlb, Hbb.
  set (r := (- NumBits a) mod 8) in *.
  pose proof (Z.mod_pos_bound (- NumBits a) 8 ltac:(lia)) as Hr. fold r in Hr.
  pose proof (NumBits_nonneg a Hwa) as Hna.
  assert (Hlen : 0 <= (NumBits a + r) / 8 - 1) by lia.
  assert (Hnr : NumBits a + r = 8 * ((NumBits a + r) / 8)).
  { pose proof (Z.div_mod (NumBits a + r) 8 ltac:(lia)) as Hd.
    assert ((NumBits a + r) mod 8 = 0); [|lia].
    unfold r. rewrite Z.add_mod_idemp_r by lia.
    by replace (NumBits a + - NumBits a) with 0 by lia. }
  assert (Hbit : forall j : nat, Z.of_nat j < NumBits a -> bitOf a j = bitOf b j).
  { intros j Hj.
    assert (bits a !! j = bits b !! j) as E by (by rewrite Hbits).
    rewrite !bits_fmap, !list_lookup_fmap, <- Hn in E by done.
    rewrite lookup_seq_lt in E by lia. simpl in E. by injection E. }
  assert (pa = pb) as ->.
  { apply Z.bits_inj'. intros t Ht.
    destruct (decide (t < 8 - r)) as [Hlt | Hge].
    - pose proof (Hbit (Z.to_nat (7 - r - t)) ltac:(lia)) as E.
      rewrite Hba, Hbb in E by lia. apply b2z_inj in E.
      rewrite !decide_True in E by lia.
      by replace (7 - r - Z.of_nat (Z.to_nat (7 - r - t))) with t in E by lia.
    - rewrite <- (Z.mod_small pa (2 ^ (8 - r))),
        <- (Z.mod_small pb (2 ^ (8 - r))) by lia.
      by rewrite !Z.mod_pow2_bits_high by lia. }
  assert (ra = rb) as ->; [|done].
  apply list_eq_same_length with (length ra); [lia | done |].
  intros i x y Hi Hx Hy.
  assert (0 <= x < 256) by (by apply (Forall_lookup_1 _ _ _ _ Hra Hx)).
  assert (0 <= y < 256) by (by apply (Forall_lookup_1 _ _ _ _ Hrb Hy)).
  apply Z.bits_inj'. intros t Ht.
  destruct (decide (t < 8)) as [Hlt | Hge];
    [|by rewrite !testbit_byte_high by lia].
  set (j := 8 - r + 8 * Z.of_nat i + (7 - t)).
  pose proof (Hbit (Z.to_nat j) ltac:(lia)) as E.
  rewrite Hba, Hbb in E by lia. apply b2z_inj in E.
  rewrite !decide_False in E by lia.
  rewrite Z2Nat.id in E by lia.
  destruct (divmod8 (j - (8 - r)) (Z.of_nat i) (7 - t)) as [Hq Hm];
    [lia | lia |].
  rewrite Hq, Hm, Nat2Z.id in E.
  rewrite !nth_lookup, Hx, Hy in E. simpl in E.
  by replace (7 - (7 - t)) with t in E by lia.
Qed.

(** The hash data of a key determines its bit string. *)
Lemma bits_of_HashData (a b : Key) :
  wf a -> wf b -> NumBits a <> 0 -> NumBits b <> 0 ->
  NumBits a < 2 ^ 128 -> NumBits b < 2 ^ 128 ->
  HashData a = HashData b -> bits a = bits b.
Proof.
  intros Hwa Hwb Hnea Hneb Hba' Hbb' E.
  destruct (HashData_form a Hwa Hnea) as (pa & ra & Ha & _ & _ & _ & Hba).
  destruct (HashData_form b Hwb Hneb) as (pb & rb & Hb & _ & _ & _ & Hbb).
  rewrite Ha, Hb in E. apply (inj Some), pair_equal_spec in E as [E1 E2].
  apply app_inj_1 in E1 as [E1 E3]; [|by rewrite !length_fmap].
  injection E3 as ->. subst rb.
  pose proof (NumBits_nonneg a Hwa). pose proof (NumBits_nonneg b Hwb).
  apply headerByte_inj in E1; [|lia|lia].
  rewrite !bits_fmap by done. rewrite <- E1.
  apply list_eq. intros i. rewrite !list_lookup_fmap.
  destruct (seq 0 _ !! i) as [j|] eqn:Hj; [|done]. simpl.
  apply lookup_seq in Hj as [-> Hlt]. simpl. f_equal.
  rewrite Hba, Hbb by lia. by rewrite E1.
Qed.

(** *** [Hash.IsNull] *)

Lemma allZeroFrom_spec (h : list Z) (n : nat) :
  forall i,
  allZeroFrom h i n
  = if decide (Forall (fun b => b = 0) (take n (drop i h)))
    then (if decide (n <= length (drop i h))%nat then Some true else None)
    else Some false.
Proof.
  induction n as [|n IH]; intros i.
  - done.
  - cbn [allZeroFrom]. destruct (h !! i) as [b|] eqn:Hb.
    + rewrite (drop_S _ _ _ Hb). cbn [mbind option_bind take length].
      destruct (decide (b <> 0)) as [Hnz | Hz].
      * rewrite decide_False; [done|]. intros HF. by inversion HF.
      * apply dec_stable in Hz. subst b. rewrite IH.
        repeat case_decide; try done; try lia;
          try (match goal with
               | H : ~ Forall _ (_ :: _) |- _ => exfalso; apply H; by constructor
               end);
          try (match goal with
               | H : Forall _ (_ :: _), H' : ~ Forall _ _ |- _ =>
                   exfalso; apply H'; by inversion H
               end).
    + rewrite (drop_ge h i) by (by apply lookup_ge_None).
      done.
Qed.

Lemma IsNull_take (h : list Z) :
  (sha256Size <= length h)%nat -> IsNull h = IsNull (take sha256Size h).
Proof.
  intros Hl. unfold IsNull. rewrite !allZeroFrom_spec.
  change (drop 0 ?l) with l. rewrite take_take, Nat.min_id.
  destruct (decide (Forall _ _)); [|done].
  rewrite !decide_True; [done | rewrite length_take; lia | lia].
Qed.

(** *** The theorems *)

Ltac solve_wf := split; [simpl; repeat constructor; lia | simpl; lia].

(** X1: on well-formed keys [Equals] returns without a panic, is
    symmetric, and returns [true] exactly when the two keys stand for the
    same bit string, whatever slices and offsets hold the bits. *)
Theorem Equals_same_bits (a b : Key) :
  wf a -> wf b ->
  exists r, Equals a b = Some r /\ Equals b a = Some r /\
            (r = true <-> bits a = bits b).
Proof.
  intros Hwa Hwb. rewrite !Equals_bits by done.
  eexists. split; [reflexivity|]. split.
  - f_equal. by apply bool_decide_ext.
  - apply bool_decide_eq_true.
Qed.

Lemma Equals_same_bits_witness :
  exists r, Equals (NewKey [0x7a; 0xa5]) (mkKey [0xff; 0x7a; 0xa5] 8) = Some r /\
            Equals (mkKey [0xff; 0x7a; 0xa5] 8) (NewKey [0x7a; 0xa5]) = Some r /\
            (r = true <-> bits (NewKey [0x7a; 0xa5]) = bits (mkKey [0xff; 0x7a; 0xa5] 8)).
Proof. apply Equals_same_bits; solve_wf. Defined.

(** X2: on well-formed keys [IsPrefixOf] returns [true] exactly when the
    bit string of the first key is a prefix of that of the second; when the
    first key is not longer, this is [Equals] against the prefix that
    [SplitAt] cuts off the second key at the first key's length. *)
Theorem IsPrefixOf_SplitAt (a b : Key) :
  wf a -> wf b ->
  IsPrefixOf a b = Some (bool_decide (bits a `prefix_of` bits b)) /\
  (NumBits a <= NumBits b ->
   exists pfx sfx, SplitAt b (NumBits a) = Some (pfx, sfx) /\
     IsPrefixOf a b = Equals a pfx).
Proof.
  intros Hwa Hwb. split; [by apply IsPrefixOf_bits|].
  intros Hle. pose proof (NumBits_nonneg a Hwa) as Hna.
  destruct (SplitAt_bits b (NumBits a) Hwb ltac:(lia))
    as (pfx & sfx & Hs & Hwp & _ & Hbp & _).
  exists pfx, sfx. split; [done|].
  rewrite IsPrefixOf_bits, Equals_bits by done. f_equal.
  apply bool_decide_ext. rewrite Hbp, <- (bits_length a Hwa). split.
  - intros [t ->]. by rewrite take_app_length.
  - intros E. exists (drop (length (bits a)) (bits b)).
    rewrite E at 1. by rewrite take_drop.
Qed.

Lemma IsPrefixOf_SplitAt_witness :
  IsPrefixOf (mkKey [0x07] 5) (mkKey [0xff; 0x7a; 0xa5] 8)
  = Some (bool_decide (bits (mkKey [0x07] 5)
                       `prefix_of` bits (mkKey [0xff; 0x7a; 0xa5] 8))).
Proof.
  apply (proj1 (IsPrefixOf_SplitAt (mkKey [0x07] 5) (mkKey [0xff; 0x7a; 0xa5] 8)
                  ltac:(solve_wf) ltac:(solve_wf))).
Defined.

(** X3: [SplitAt] on a well-formed key panics exactly when the index is
    out of range; otherwise it cuts the bit string of the key in two at the
    index: the prefix holds the first [ix] bits, the suffix the rest, both
    are well-formed, and the suffix is the key with [ix] bits dropped. *)
Theorem SplitAt_partitions (key : Key) (ix : Z) :
  wf key ->
  (ix < 0 \/ NumBits key < ix -> SplitAt key ix = None) /\
  (0 <= ix <= NumBits key ->
   exists pfx sfx, SplitAt key ix = Some (pfx, sfx) /\
     wf pfx /\ wf sfx /\
     bits pfx ++ bits sfx = bits key /\
     length (bits pfx) = Z.to_nat ix /\
     DropBits key ix = Some sfx).
Proof.
  intros Hwf. split; [apply SplitAt_out_of_range|].
  intros Hix.
  destruct (SplitAt_bits key ix Hwf Hix)
    as (pfx & sfx & Hs & Hwp & Hws & Hbp & Hbs & Hd).
  exists pfx, sfx. repeat (split; [done|]).
  split; [by rewrite Hbp, Hbs, take_drop|]. split; [|done].
  rewrite Hbp, length_take, bits_length by done. lia.
Qed.

Lemma SplitAt_partitions_witness :
  exists pfx sfx, SplitAt (NewKey [0x7a; 0xa5]) 10 = Some (pfx, sfx) /\
    wf pfx /\ wf sfx /\
    bits pfx ++ bits sfx = bits (NewKey [0x7a; 0xa5]) /\
    length (bits pfx) = Z.to_nat 10 /\
    DropBits (NewKey [0x7a; 0xa5]) 10 = Some sfx.
Proof.
  apply (proj2 (SplitAt_partitions (NewKey [0x7a; 0xa5]) 10 ltac:(solve_wf))).
  unfold NumBits. simpl. lia.
Defined.

(** X4: on a well-formed key [MSBAndDerive] panics exactly when the key is
    empty; otherwise it returns the first bit of the key ([MSB], which is
    [GetBit] at 0) and a well-formed key that stands for the remaining
    bits, the key with one bit dropped. *)
Theorem MSBAndDerive_head_tail (key : Key) :
  wf key ->
  (IsEmpty key = true -> MSBAndDerive key = None) /\
  (IsEmpty key = false ->
   exists b key', MSBAndDerive key = Some (b, key') /\
     wf key' /\ bits key = b :: bits key' /\
     MSB key = Some b /\ GetBit key 0 = Some b /\
     DropBits key 1 = Some key').
Proof.
  intros Hwf. pose proof (MSBAndDerive_bits key Hwf) as H.
  pose proof (NumBits_nonneg key Hwf) as Hn.
  unfold IsEmpty. split; intros He.
  - apply bool_decide_eq_true in He.
    unfold MSBAndDerive, MSB, IsEmpty. by rewrite bool_decide_true.
  - apply bool_decide_eq_false in He.
    unfold MSBAndDerive in *. rewrite MSB_GetBit in * by done.
    destruct (GetBit key 0) as [b|] eqn:Hb; simpl in *.
    + destruct H as (Hw' & Hbits & _ & Hd). by eexists _, _.
    + exfalso. apply (f_equal length) in H.
      rewrite bits_length in H by done. simpl in H. lia.
Qed.

Lemma MSBAndDerive_head_tail_witness :
  exists b key', MSBAndDerive (mkKey [0x07] 5) = Some (b, key') /\
    wf key' /\ bits (mkKey [0x07] 5) = b :: bits key' /\
    MSB (mkKey [0x07] 5) = Some b /\ GetBit (mkKey [0x07] 5) 0 = Some b /\
    DropBits (mkKey [0x07] 5) 1 = Some key'.
Proof.
  apply (proj2 (MSBAndDerive_head_tail (mkKey [0x07] 5) ltac:(solve_wf))).
  reflexivity.
Defined.

(** X5: [SetBit] on a well-formed key panics when the position is out of
    range or the value is not a bit; otherwise the key it leaves is
    well-formed, [GetBit] at the position returns the value set, and every
    other position reads as before. *)
Theorem SetBit_GetBit (key : Key) (j v : Z) :
  wf key ->
  (j < 0 \/ NumBits key <= j -> SetBit key j v = None) /\
  (v <> 0 /\ v <> 1 -> SetBit key j v = None) /\
  (0 <= j < NumBits key -> v = 0 \/ v = 1 ->
   exists key', SetBit key j v = Some key' /\
     wf key' /\
     GetBit key' j = Some v /\
     (forall i, i <> j -> GetBit key' i = GetBit key i) /\
     bits key' = <[Z.to_nat j := v]> (bits key)).
Proof.
  intros Hwf. split; [|split].
  - intros H. unfold SetBit. by rewrite decide_True.
  - intros H. unfold SetBit. case_decide; [done|]. by rewrite decide_True.
  - intros Hj Hv.
    destruct (SetBit_bits key j v Hwf Hj Hv) as (key' & Hset & Hw' & Hb).
    exists key'. split; [done|]. split; [done|].
    assert (Hn : NumBits key' = NumBits key).
    { apply (f_equal length) in Hb.
      rewrite length_insert, !bits_length in Hb by done.
      pose proof (NumBits_nonneg key Hwf). pose proof (NumBits_nonneg key' Hw').
      lia. }
    split; [|split; [|done]].
    + rewrite bits_lookup, Hb by (done || lia).
      apply list_lookup_insert_eq. rewrite bits_length by done. lia.
    + intros i Hi.
      destruct (decide (0 <= i < NumBits key)) as [Hin | Hout].
      * rewrite !bits_lookup, Hb by (done || lia).
        apply list_lookup_insert_ne. lia.
      * unfold GetBit. rewrite Hn. by rewrite !decide_True by lia.
Qed.

Lemma SetBit_GetBit_witness :
  exists key', SetBit (NewKey [0x00; 0x00]) 0 1 = Some key' /\
    wf key' /\
    GetBit key' 0 = Some 1 /\
    (forall i, i <> 0 -> GetBit key' i = GetBit (NewKey [0x00; 0x00]) i) /\
    bits key' = <[Z.to_nat 0 := 1]> (bits (NewKey [0x00; 0x00])).
Proof.
  apply (proj2 (proj2 (SetBit_GetBit (NewKey [0x00; 0x00]) 0 1 ltac:(solve_wf)))).
  - unfold NumBits. simpl. lia.
  - by right.
Defined.

(** X6: on well-formed keys [DiffAt] returns without a panic the length of
    the longest common prefix of the two bit strings and a sign that is 0
    exactly when the bit strings are equal, and otherwise -1 exactly when
    at the first difference the first key has a 0 (where the second has a 1
    or ends), or the first key ends where the second has a 1. *)
Theorem DiffAt_first_difference (a b : Key) :
  wf a -> wf b ->
  exists c (p : nat), DiffAt a b = Some (c, Z.of_nat p) /\
    take p (bits a) = take p (bits b) /\
    (c <> 0 -> bits a !! p <> bits b !! p) /\
    (c = 0 <-> bits a = bits b) /\
    (c = 0 -> p = length (bits a)) /\
    (c = -1 <-> (bits a !! p = Some 0 /\ bits b !! p <> Some 0)
                \/ (bits a !! p = None /\ bits b !! p = Some 1)) /\
    (c = -1 \/ c = 0 \/ c = 1).
Proof.
  intros Hwa Hwb. rewrite DiffAt_compareBits by done.
  destruct (compareBits_pos (bits a) (bits b) 0 (bits_01 a Hwa) (bits_01 b Hwb))
    as (p & Hp & Ht & Hne & Hz & Hs).
  exists (compareBits (bits a) (bits b) 0).1, p.
  split.
  { f_equal. rewrite <- (Z.add_0_l (Z.of_nat p)), <- Hp.
    by destruct (compareBits _ _ _). }
  split; [done|]. split; [done|].
  split; [apply compareBits_zero|]. split; [done|]. split; [done|].
  apply compareBits_range.
Qed.

Lemma DiffAt_first_difference_witness :
  exists c (p : nat),
    DiffAt (mkKey [0x07] 5) (NewKey [0x7a; 0xa5]) = Some (c, Z.of_nat p) /\
    take p (bits (mkKey [0x07] 5)) = take p (bits (NewKey [0x7a; 0xa5])) /\
    (c <> 0 -> bits (mkKey [0x07] 5) !! p <> bits (NewKey [0x7a; 0xa5]) !! p) /\
    (c = 0 <-> bits (mkKey [0x07] 5) = bits (NewKey [0x7a; 0xa5])) /\
    (c = 0 -> p = length (bits (mkKey [0x07] 5))) /\
    (c = -1 <-> (bits (mkKey [0x07] 5) !! p = Some 0
                 /\ bits (NewKey [0x7a; 0xa5]) !! p <> Some 0)
                \/ (bits (mkKey [0x07] 5) !! p = None
                    /\ bits (NewKey [0x7a; 0xa5]) !! p = Some 1)) /\
    (c = -1 \/ c = 0 \/ c = 1).
Proof. apply DiffAt_first_difference; solve_wf. Defined.

(** X7: on well-formed keys [cmp] is a three-way comparison of a total
    order: swapping the arguments negates the result, the result is 0
    exactly when [Equals] holds, and "less than" is transitive. *)
Theorem cmp_total_order (a b c : Key) :
  wf a -> wf b -> wf c ->
  (exists r, cmp a b = Some r /\ cmp b a = Some (- r) /\
             (r = 0 <-> Equals a b = Some true)) /\
  (cmp a b = Some (-1) -> cmp b c = Some (-1) -> cmp a c = Some (-1)).
Proof.
  intros Hwa Hwb Hwc. unfold cmp.
  rewrite !DiffAt_compareBits by done. cbn [mbind option_bind].
  pose proof (bits_01 a Hwa) as Ha. pose proof (bits_01 b Hwb) as Hb.
  pose proof (bits_01 c Hwc) as Hc.
  split.
  - eexists. split; [reflexivity|]. split.
    + by rewrite (compareBits_sym (bits a) (bits b)).
    + rewrite compareBits_zero, Equals_bits by done. split.
      * intros E. by rewrite bool_decide_true.
      * intros [= E]. by apply bool_decide_eq_true in E.
  - intros [= H1] [= H2]. f_equal.
    by apply (compareBits_trans (bits a) (bits b) (bits c)).
Qed.

Lemma cmp_total_order_witness :
  exists r, cmp (mkKey [0x07] 5) (NewKey [0x7a; 0xa5]) = Some r /\
    cmp (NewKey [0x7a; 0xa5]) (mkKey [0x07] 5) = Some (- r) /\
    (r = 0 <-> Equals (mkKey [0x07] 5) (NewKey [0x7a; 0xa5]) = Some true).
Proof.
  apply (proj1 (cmp_total_order (mkKey [0x07] 5) (NewKey [0x7a; 0xa5]) EmptyKey
                  ltac:(solve_wf) ltac:(solve_wf) ltac:(solve_wf))).
Defined.

(** X9: two well-formed, non-empty keys built within [NewKey]'s size limit
    have the same hash data exactly when [Equals] holds of them. *)
Theorem HashData_iff_Equals (a b : Key) :
  wf a -> wf b -> IsEmpty a = false -> IsEmpty b = false ->
  Z.of_nat (length (k a)) <= MaxInt / 8 ->
  Z.of_nat (length (k b)) <= MaxInt / 8 ->
  exists ha hb, HashData a = Some ha /\ HashData b = Some hb /\
    (ha = hb <-> Equals a b = Some true).
Proof.
  intros Hwa Hwb Hea Heb Hla Hlb.
  apply bool_decide_eq_false in Hea, Heb.
  destruct (HashData_form a Hwa Hea) as (pa & ra & Ha & _).
  destruct (HashData_form b Hwb Heb) as (pb & rb & Hb & _).
  eexists _, _. split; [exact Ha|]. split; [exact Hb|].
  rewrite Equals_bits by done.
  change (MaxInt / 8) with (2 ^ 60 - 1) in *.
  assert (NumBits a < 2 ^ 128 /\ NumBits b < 2 ^ 128) as [Hba Hbb].
  { destruct Hwa as [_ ?], Hwb as [_ ?]. unfold NumBits. lia. }
  split.
  - intros E. f_equal. apply bool_decide_eq_true.
    apply bits_of_HashData; try done. by rewrite Ha, Hb, E.
  - intros [= E]. apply bool_decide_eq_true in E.
    pose proof (HashData_of_bits a b Hwa Hwb Hea E) as H.
    rewrite Ha, Hb in H. by apply (inj Some) in H.
Qed.

Lemma HashData_iff_Equals_witness :
  exists ha hb, HashData (NewKey [0x7a; 0xa5]) = Some ha /\
    HashData (mkKey [0xff; 0x7a; 0xa5] 8) = Some hb /\
    (ha = hb <-> Equals (NewKey [0x7a; 0xa5]) (mkKey [0xff; 0x7a; 0xa5] 8)
                 = Some true).
Proof.
  apply HashData_iff_Equals; try solve_wf; try reflexivity.
  - vm_compute. discriminate.
  - vm_compute. discriminate.
Defined.

(** X10: [Hash.IsNull] looks at the first [sha256.Size] bytes only: it
    returns [true] exactly when the hash has that many bytes and they are
    all zero, [false] exactly when one of them is not zero, and it panics
    exactly on a shorter slice of zero bytes. *)
Theorem IsNull_first_bytes (h : list Z) :
  (IsNull h = Some true <->
     (sha256Size <= length h)%nat /\
     Forall (fun b => b = 0) (take sha256Size h)) /\
  (IsNull h = Some false <-> ~ Forall (fun b => b = 0) (take sha256Size h)) /\
  (IsNull h = None <->
     (length h < sha256Size)%nat /\ Forall (fun b => b = 0) h).
Proof.
  unfold IsNull. rewrite allZeroFrom_spec. change (drop 0 h) with h.
  destruct (decide (Forall _ (take sha256Size h))) as [HF | HF].
  - destruct (decide (sha256Size <= length h)%nat) as [Hl | Hl].
    + split; [done|]. split; [done|]. split; [done|]. intros [? _]. lia.
    + assert (HF' : Forall (fun b => b = 0) h)
        by (by rewrite take_ge in HF by lia).
      split; [split; [done | intros [? _]; lia]|].
      split; [done|]. split; [intros _; split; [lia | done] | done].
  - split; [split; [done | intros [_ ?]; done]|].
    split; [done|]. split; [done|]. intros [Hl HF']. exfalso. apply HF.
    by rewrite take_ge by lia.
Qed.

Section NodeHash.
Variable sha256Sum : list Z -> list Z.

(** X8: [HashData] on a well-formed key panics exactly when the key is
    empty, as [EmptyKey()] is; so does [HashNodeData] of a node whose
    compressed key is empty. *)
Theorem HashData_panics_on_empty (key : Key) :
  wf key ->
  (HashData key = None <-> IsEmpty key = true) /\
  (forall lh vh rh,
      HashNodeData sha256Sum lh vh rh key = None <-> IsEmpty key = true).
Proof.
  intros Hwf.
  assert (H : HashData key = None <-> IsEmpty key = true).
  { unfold IsEmpty. rewrite bool_decide_eq_true. split.
    - intros Hn. destruct (decide (NumBits key = 0)) as [|Hne]; [done|].
      destruct (HashData_form key Hwf Hne) as (p & r & Hh & _). congruence.
    - by apply HashData_empty. }
  split; [done|]. intros lh vh rh. rewrite <- H. unfold HashNodeData.
  destruct (HashData key) as [[pfx sfx]|]; simpl; split; done.
Qed.

(** X11: the value [HashNodeData] returns begins with the right child's
    hash, so that [IsNull] of a node's hash is [IsNull] of the hash of its
    right child: the hash of a node without a right child tests as null. *)
Theorem HashNodeData_IsNull (lh vh rh hv : list Z) (key : Key) :
  (sha256Size <= length rh)%nat ->
  HashNodeData sha256Sum lh vh rh key = Some hv ->
  take (length rh) hv = rh /\ IsNull hv = IsNull rh.
Proof.
  intros Hl. unfold HashNodeData.
  destruct (HashData key) as [[pfx sfx]|]; [|done]. simpl.
  intros [= <-]. split; [by rewrite take_app_length|].
  rewrite IsNull_take by (rewrite length_app; lia).
  rewrite (IsNull_take rh) by done. f_equal.
  by rewrite take_app_le by done.
Qed.

End NodeHash.

Lemma HashData_panics_on_empty_witness :
  HashData EmptyKey = None <-> IsEmpty EmptyKey = true.
Proof.
  apply (proj1 (HashData_panics_on_empty (fun _ => []) EmptyKey ltac:(solve_wf))).
Defined.

Lemma HashNodeData_IsNull_witness :
  take (length nullHash) (nullHash ++ [1; 2; 3]) = nullHash /\
  IsNull (nullHash ++ [1; 2; 3]) = IsNull nullHash.
Proof.
  apply (HashNodeData_IsNull (fun _ => [1; 2; 3]) [] [] nullHash
           (nullHash ++ [1; 2; 3]) (NewKey [0x7a; 0xa5])).
  - reflexivity.
  - reflexivity.
Defined.

End AlgSpec.

Module StakingSpec.
Import Staking.
Local Open Scope Z_scope.

Section Check.
Variable commissionScheduleValid : Z -> EpochTime -> Account -> bool.

Lemma Add_valid (q n : Quantity) : IsValid n = true -> (Add q n).2 = q + n.
Proof. intros H. unfold Add. by rewrite H. Qed.

Lemma Cmp_eq (q n : Quantity) : (Cmp q n =? 0) = true <-> q = n.
Proof.
  unfold Cmp. destruct (q ?= n) eqn:E; simpl.
  - apply Z.compare_eq_iff in E. split; [done | reflexivity].
  - split; [discriminate|]. intros ->. by rewrite Z.compare_refl in E.
  - split; [discriminate|]. intros ->. by rewrite Z.compare_refl in E.
Qed.

Lemma SanityCheckAccount_total total parameters now id acct total' :
  SanityCheckAccount commissionScheduleValid total parameters now id acct
  = (None, total') ->
  total' = total + accountBalance acct.
Proof.
  unfold SanityCheckAccount, accountBalance.
  destruct (IsValid (General acct)) eqn:E1; simpl; [|discriminate].
  destruct (IsValid (Balance (EscrowActive acct))) eqn:E2; simpl; [|discriminate].
  destruct (IsValid (Balance (EscrowDebonding acct))) eqn:E3; simpl; [|discriminate].
  rewrite !Add_valid by done.
  destruct (commissionScheduleValid _ _ _); [|discriminate].
  intros [= <-]. lia.
Qed.

Lemma checkAccounts_total st parameters now accounts :
  forall total total',
  checkAccounts commissionScheduleValid st parameters now total accounts
  = (None, total') ->
  total' = total
           + foldr (fun id acc => accountBalance (GetAccount st id) + acc) 0 accounts.
Proof.
  induction accounts as [|id rest IH]; intros total total'; simpl.
  - intros [= <-]. lia.
  - destruct (SanityCheckAccount _ _ _ _ _ _) as [[e|] t1] eqn:E; [discriminate|].
    intros H. apply IH in H. apply SanityCheckAccount_total in E. lia.
Qed.


End Check.



End StakingSpec.

Module RegistrySpec.
Import Registry.
Local Open Scope Z_scope.

Section App.
Context `{B : Backend}.

Lemma run_bind {A C} (m : M A) (f : A -> M C) (ctx : Context) :
  (m ≫= f) ctx =
  match m ctx with
  | (Ok a, ctx') => f a ctx'
  | (Err e, ctx') => (Err e, ctx')
  end.
Proof. reflexivity. Qed.

(** *** Frame properties: what a computation leaves untouched *)

Definition preserves {X A} (proj : Context -> X) (m : M A) : Prop :=
  forall ctx, proj (m ctx).2 = proj ctx.

Lemma preserves_ret {X A} (proj : Context -> X) (a : A) : preserves proj (ret a).
Proof. done. Qed.

Lemma preserves_mret {X A} (proj : Context -> X) (a : A) :
  preserves proj (mret a : M A).
Proof. done. Qed.

Lemma preserves_fail {X A} (proj : Context -> X) (e : error) :
  preserves proj (fail e : M A).
Proof. done. Qed.

Lemma preserves_bind {X A C} (proj : Context -> X) (m : M A) (f : A -> M C) :
  preserves proj m -> (forall a, preserves proj (f a)) ->
  preserves proj (m ≫= f).
Proof.
  intros Hm Hf ctx. rewrite run_bind. specialize (Hm ctx).
  destruct (m ctx) as [[a|e] ctx']; simpl in *; [|done].
  by rewrite Hf.
Qed.

Lemma preserves_pure {X A} (proj : Context -> X) (f : Context -> res A) :
  preserves proj (fun ctx => (f ctx, ctx)).
Proof. done. Qed.

Lemma preserves_readState {X A} (proj : Context -> X) (f : Tree -> res A) :
  preserves proj (readState f).
Proof. done. Qed.

Lemma preserves_check {X} (proj : Context -> X) (r : option error) :
  preserves proj (check r).
Proof. by destruct r. Qed.

Lemma preserves_useGas {X} (proj : Context -> X) n op costs :
  (forall g ctx, proj (setGas g ctx) = proj ctx) ->
  preserves proj (useGas n op costs).
Proof.
  intros H ctx. unfold useGas.
  by destruct (UseGas n op costs (gas ctx)) as [[e|] g]; simpl.
Qed.

Lemma preserves_writeState {X} (proj : Context -> X) f wrap :
  (forall t ctx, proj (setState t ctx) = proj ctx) ->
  preserves proj (writeState f wrap).
Proof.
  intros H ctx. unfold writeState.
  by destruct (f (state ctx)) as [[e|] t]; simpl.
Qed.

Lemma preserves_emitEvent {X} (proj : Context -> X) ev :
  (forall ctx, proj (addEvent ev ctx) = proj ctx) ->
  preserves proj (emitEvent ev).
Proof. intros H ctx. apply H. Qed.

Lemma preserves_if {X A} (proj : Context -> X) (b : bool) (m1 m2 : M A) :
  preserves proj m1 -> preserves proj m2 ->
  preserves proj (if b then m1 else m2).
Proof. by destruct b. Qed.

Lemma preserves_decide {X A} (proj : Context -> X) (P : Prop) `{Decision P}
    (m1 m2 : M A) :
  preserves proj m1 -> preserves proj m2 ->
  preserves proj (if decide P then m1 else m2).
Proof. by destruct (decide P). Qed.

Ltac frame :=
  repeat first
    [ apply preserves_bind; [|intros]
    | apply preserves_ret | apply preserves_mret | apply preserves_fail
    | apply preserves_readState | apply preserves_check
    | apply preserves_useGas; [done]
    | apply preserves_writeState; [done]
    | apply preserves_emitEvent; [done]
    | apply preserves_if | apply preserves_decide
    | apply preserves_pure
    | match goal with |- preserves _ (let '(_, _) := ?p in _) => destruct p end
    | match goal with |- preserves _ (match ?p with Some _ => _ | None => _ end) =>
        destruct p end ].

Lemma verifyAndCharge_state sigNode : preserves state (verifyAndCharge sigNode).
Proof.
  unfold verifyAndCharge. frame.
  intros ctx. by destruct (_ && _).
Qed.

Lemma verifyAndCharge_height sigNode : preserves blockHeight (verifyAndCharge sigNode).
Proof.
  unfold verifyAndCharge. frame.
  intros ctx. by destruct (_ && _).
Qed.

Lemma checkWhitelist_id entity rts ctx : (checkWhitelist entity rts ctx).2 = ctx.
Proof.
  induction rts as [|nrt rest IH]; simpl; [done|].
  rewrite run_bind. unfold readState.
  destruct (stRuntime _ _) as [rt|e]; simpl; [|done].
  by destruct (negb _).
Qed.

Lemma checkEntityStake_id params newNode ctx :
  (checkEntityStake params newNode ctx).2 = ctx.
Proof.
  unfold checkEntityStake. destruct (negb _); [|done].
  rewrite run_bind. unfold readState.
  destruct (NewStakeCache _) as [sc|e]; simpl; [|done].
  rewrite run_bind.
  destruct (EnsureSufficientStake _ _ _); simpl; [done|].
  rewrite run_bind.
  by destruct (stNumEntityNodes _ _).
Qed.

Lemma checkNotExpired_id newNode ctx : (checkNotExpired newNode ctx).2 = ctx.
Proof.
  unfold checkNotExpired. rewrite run_bind.
  destruct (GetEpoch _); simpl; [|done]. by case_decide.
Qed.

Lemma lookupExisting_id newNode ctx : (lookupExisting newNode ctx).2 = ctx.
Proof.
  unfold lookupExisting. destruct (stNode _ _); simpl; [done|]. by case_decide.
Qed.

Lemma resumeRuntimes_gas paid : preserves gas (resumeRuntimes paid).
Proof.
  induction paid as [|rt rest IH]; intros ctx; simpl; [done|].
  destruct (stResumeRuntime _ _) as [[e|] t]; simpl.
  - case_decide; [by rewrite IH | done].
  - by rewrite IH.
Qed.

Lemma ensureNodeStake_id params sc entity n ctx :
  (ensureNodeStake params sc entity n ctx).2 = ctx.
Proof.
  unfold ensureNodeStake. destruct (negb _); [|done].
  destruct sc; [|done]. by destruct (EnsureNodeRegistrationStake _ _ _).
Qed.

Lemma applyRegistration_gas params sigNode newNode paid sc n existing epoch :
  preserves gas
    (applyRegistration params sigNode newNode paid sc n existing epoch).
Proof.
  unfold applyRegistration. apply preserves_bind; [|intros; apply resumeRuntimes_gas].
  apply preserves_if.
  - apply preserves_bind; [intros ctx; by rewrite ensureNodeStake_id|intros].
    frame. intros ctx. by destruct (stNodeStatus _ _).
  - apply preserves_bind; [intros ctx; by rewrite ensureNodeStake_id|intros].
    frame.
Qed.

Lemma withStateCheckpoint_gas {A} (body : M A) :
  preserves gas body -> preserves gas (withStateCheckpoint body).
Proof.
  intros H ctx. unfold withStateCheckpoint. specialize (H ctx).
  by destruct (body ctx) as [[a|e] ctx'].
Qed.

(** A failed body leaves the tree as it was at the checkpoint. *)
Lemma withStateCheckpoint_rollback {A} (body : M A) ctx e ctx' :
  withStateCheckpoint body ctx = (Err e, ctx') -> state ctx' = state ctx.
Proof.
  unfold withStateCheckpoint.
  destruct (body ctx) as [[a|e'] c]; [discriminate|].
  by intros [= _ <-].
Qed.

(** *** Shape of a run of [registerNode] *)

(** In check-only mode [registerNode] returns nil at once. *)
Lemma registerNode_check_only ctx sigNode :
  IsCheckOnly ctx = true -> registerNode ctx sigNode = (None, ctx).
Proof. intros Hm. unfold registerNode. by rewrite Hm. Qed.

Lemma registerNode_unfold ctx sigNode :
  IsCheckOnly ctx = false ->
  registerNode ctx sigNode =
  match verifyAndCharge sigNode ctx with
  | (Ok (params, newNode, paid), ctx1) =>
      toResult (afterVerify withStateCheckpoint sigNode params newNode paid ctx1)
  | (Err e, ctx1) => (Some e, ctx1)
  end.
Proof.
  intros Hm. unfold registerNode. rewrite Hm. rewrite run_bind.
  destruct (verifyAndCharge sigNode ctx) as [[[[params newNode] paid]|e] ctx1];
    reflexivity.
Qed.

Lemma afterVerify_unfold protect sigNode params newNode paid ctx1 :
  afterVerify protect sigNode params newNode paid ctx1 =
  match checkWhitelist (EntityID newNode) (Runtimes newNode) ctx1 with
  | (Err e, c) => (Err e, c)
  | (Ok _, _) =>
    match checkEntityStake params newNode ctx1 with
    | (Err e, c) => (Err e, c)
    | (Ok (sc, n), _) =>
      match checkNotExpired newNode ctx1 with
      | (Err e, c) => (Err e, c)
      | (Ok epoch, _) =>
        match lookupExisting newNode ctx1 with
        | (Err e, c) => (Err e, c)
        | (Ok existing, _) =>
            chargeAndApply protect sigNode params newNode paid sc n existing epoch
              ctx1
        end
      end
    end
  end.
Proof.
  unfold afterVerify. rewrite run_bind.
  pose proof (checkWhitelist_id (EntityID newNode) (Runtimes newNode) ctx1) as H1.
  destruct (checkWhitelist _ _ ctx1) as [[[]|e] c]; simpl in H1; subst c; [|done].
  rewrite run_bind.
  pose proof (checkEntityStake_id params newNode ctx1) as H2.
  destruct (checkEntityStake _ _ ctx1) as [[[sc n]|e] c]; simpl in H2; subst c; [|done].
  rewrite run_bind.
  pose proof (checkNotExpired_id newNode ctx1) as H3.
  destruct (checkNotExpired _ ctx1) as [[epoch|e] c]; simpl in H3; subst c; [|done].
  rewrite run_bind.
  pose proof (lookupExisting_id newNode ctx1) as H4.
  destruct (lookupExisting _ ctx1) as [[existing|e] c]; simpl in H4; subst c; [|done].
  reflexivity.
Qed.

Lemma chargeAndApply_unfold protect sigNode params newNode paid sc n existing
    epoch ctx1 :
  chargeAndApply protect sigNode params newNode paid sc n existing epoch ctx1 =
  match useGas (feeCount newNode existing epoch paid)
          GasOpRuntimeEpochMaintenance (GasCosts params) ctx1 with
  | (Err e, c) => (Err e, c)
  | (Ok _, c) =>
    match protect
            (applyRegistration params sigNode newNode paid sc n existing epoch) c with
    | (Err e, c') => (Err e, c')
    | (Ok _, c') => (Ok tt, addEvent (EvNodeRegistered newNode) c')
    end
  end.
Proof.
  unfold chargeAndApply. rewrite run_bind.
  destruct (useGas _ _ _ ctx1) as [[[]|e] c]; [|done].
  rewrite run_bind.
  by destruct (protect _ c) as [[[]|e] c'].
Qed.

Lemma chargeAndApply_error sigNode params newNode paid sc n existing epoch ctx1 e c :
  chargeAndApply withStateCheckpoint sigNode params newNode paid sc n existing epoch ctx1 = (Err e, c) ->
  state c = state ctx1.
Proof.
  rewrite chargeAndApply_unfold.
  pose proof (preserves_useGas state (feeCount newNode existing epoch paid)
                GasOpRuntimeEpochMaintenance (GasCosts params)
                ltac:(done) ctx1) as Hg.
  destruct (useGas _ _ _ ctx1) as [[[]|e1] c1]; simpl in Hg.
  - destruct (withStateCheckpoint _ c1) as [[[]|e2] c2] eqn:Hcp; [discriminate|].
    intros [= _ <-]. apply withStateCheckpoint_rollback in Hcp. congruence.
  - by intros [= _ <-].
Qed.

Lemma chargeAndApply_gas sigNode params newNode paid sc n existing epoch ctx1 :
  gas (chargeAndApply withStateCheckpoint sigNode params newNode paid sc n
         existing epoch ctx1).2 =
  (UseGas (feeCount newNode existing epoch paid) GasOpRuntimeEpochMaintenance
     (GasCosts params) (gas ctx1)).2.
Proof.
  rewrite chargeAndApply_unfold. unfold useGas.
  destruct (UseGas _ _ _ (gas ctx1)) as [[e|] g]; simpl; [done|].
  pose proof (withStateCheckpoint_gas _
                (applyRegistration_gas params sigNode newNode paid sc n existing epoch)
                (setGas g ctx1)) as Hg.
  by destruct (withStateCheckpoint _ _) as [[[]|e] c'].
Qed.

Lemma afterVerify_error sigNode params newNode paid ctx1 e c :
  afterVerify withStateCheckpoint sigNode params newNode paid ctx1 = (Err e, c) ->
  state c = state ctx1.
Proof.
  rewrite afterVerify_unfold.
  pose proof (checkWhitelist_id (EntityID newNode) (Runtimes newNode) ctx1) as H1.
  destruct (checkWhitelist _ _ ctx1) as [[[]|e1] c1]; simpl in H1; subst c1;
    [|by intros [= _ <-]].
  pose proof (checkEntityStake_id params newNode ctx1) as H2.
  destruct (checkEntityStake _ _ ctx1) as [[[sc n]|e2] c2]; simpl in H2; subst c2;
    [|by intros [= _ <-]].
  pose proof (checkNotExpired_id newNode ctx1) as H3.
  destruct (checkNotExpired _ ctx1) as [[epoch|e3] c3]; simpl in H3; subst c3;
    [|by intros [= _ <-]].
  pose proof (lookupExisting_id newNode ctx1) as H4.
  destruct (lookupExisting _ ctx1) as [[existing|e4] c4]; simpl in H4; subst c4;
    [|by intros [= _ <-]].
  apply chargeAndApply_error.
Qed.

Lemma setState_same (c : Context) (t : Tree) : state c = t -> setState t c = c.
Proof. intros <-. by destruct c. Qed.

(** When the protected steps fail, the unprotected ones fail alike, and
    the contexts differ in the state tree only. *)
Lemma chargeAndApply_rollback sigNode params newNode paid sc n existing epoch
    ctx1 e c :
  chargeAndApply withStateCheckpoint sigNode params newNode paid sc n existing
    epoch ctx1 = (Err e, c) ->
  exists c0,
    chargeAndApply (fun body => body) sigNode params newNode paid sc n existing
      epoch ctx1 = (Err e, c0) /\
    c = setState (state ctx1) c0.
Proof.
  rewrite !chargeAndApply_unfold.
  pose proof (preserves_useGas state (feeCount newNode existing epoch paid)
                GasOpRuntimeEpochMaintenance (GasCosts params)
                ltac:(done) ctx1) as Hg.
  destruct (useGas _ _ _ ctx1) as [[[]|e1] c1]; simpl in Hg.
  - unfold withStateCheckpoint.
    destruct (applyRegistration _ _ _ _ _ _ _ _ c1) as [[[]|e2] c2];
      [discriminate|].
    intros [= <- <-]. exists c2. split; [done|]. by rewrite Hg.
  - intros [= <- <-]. exists c1. split; [done|]. symmetry. by apply setState_same.
Qed.

Lemma afterVerify_rollback sigNode params newNode paid ctx1 e c :
  afterVerify withStateCheckpoint sigNode params newNode paid ctx1 = (Err e, c) ->
  exists c0,
    afterVerify (fun body => body) sigNode params newNode paid ctx1 = (Err e, c0) /\
    c = setState (state ctx1) c0.
Proof.
  rewrite !afterVerify_unfold.
  pose proof (checkWhitelist_id (EntityID newNode) (Runtimes newNode) ctx1) as H1.
  destruct (checkWhitelist _ _ ctx1) as [[[]|e1] c1]; simpl in H1; subst c1.
  2:{ intros [= <- <-]. exists ctx1. split; [done|]. symmetry. by apply setState_same. }
  pose proof (checkEntityStake_id params newNode ctx1) as H2.
  destruct (checkEntityStake _ _ ctx1) as [[[sc n]|e2] c2]; simpl in H2; subst c2.
  2:{ intros [= <- <-]. exists ctx1. split; [done|]. symmetry. by apply setState_same. }
  pose proof (checkNotExpired_id newNode ctx1) as H3.
  destruct (checkNotExpired _ ctx1) as [[epoch|e3] c3]; simpl in H3; subst c3.
  2:{ intros [= <- <-]. exists ctx1. split; [done|]. symmetry. by apply setState_same. }
  pose proof (lookupExisting_id newNode ctx1) as H4.
  destruct (lookupExisting _ ctx1) as [[existing|e4] c4]; simpl in H4; subst c4.
  2:{ intros [= <- <-]. exists ctx1. split; [done|]. symmetry. by apply setState_same. }
  apply chargeAndApply_rollback.
Qed.

(** C2: when [registerNode] returns an error, the state tree of the
    resulting context is the state tree it was called with: writes are
    made only under the state checkpoint, which the error rolls back.
    Everything else is kept: the resulting context is the one in which the
    registration, run without the checkpoint, stops with this error, gas
    charged and all, but for the state tree. *)
Theorem registerNode_error_rolls_back (ctx : Context) (sigNode : SignedNode)
    (e : error) (ctx' : Context) :
  registerNode ctx sigNode = (Some e, ctx') ->
  state ctx' = state ctx /\
  exists stopped,
    registerUnprotected sigNode ctx = (Err e, stopped) /\
    ctx' = setState (state ctx) stopped.
Proof.
  intros Hrun.
  destruct (IsCheckOnly ctx) eqn:Hm.
  { unfold registerNode in Hrun. rewrite Hm in Hrun. discriminate. }
  rewrite registerNode_unfold in Hrun by done.
  unfold registerUnprotected. rewrite run_bind.
  pose proof (verifyAndCharge_state sigNode ctx) as Hs.
  destruct (verifyAndCharge sigNode ctx) as [[[[params newNode] paid]|e1] ctx1];
    simpl in Hs.
  - destruct (afterVerify _ _ _ _ _ ctx1) as [[[]|e2] c] eqn:Ha; simpl in Hrun;
      [discriminate|].
    injection Hrun as <- <-.
    pose proof (afterVerify_error _ _ _ _ _ _ _ Ha) as Hst.
    apply afterVerify_rollback in Ha as (c0 & Ha & ->).
    split; [simpl in *; congruence|].
    exists c0. split; [done|]. by rewrite Hs.
  - injection Hrun as <- <-. split; [done|].
    exists ctx1. split; [done|]. symmetry. by apply setState_same.
Qed.

Lemma checkWhitelist_ok entity rts ctx :
  (checkWhitelist entity rts ctx).1 = Ok tt ->
  Forall (allowedRuntime (state ctx) entity) rts.
Proof.
  induction rts as [|nrt rest IH]; simpl; [constructor|].
  rewrite run_bind. unfold readState.
  destruct (stRuntime (state ctx) (nrID nrt)) as [rt|e] eqn:Hrt; simpl; [|done].
  destruct (policyAllows rt entity) eqn:Ha; simpl; [|done].
  intros H. constructor; [by exists rt | by apply IH].
Qed.

Lemma checkWhitelist_forbidden entity pre nrt post rt ctx :
  Forall (allowedRuntime (state ctx) entity) pre ->
  stRuntime (state ctx) (nrID nrt) = Ok rt ->
  policyAllows rt entity = false ->
  checkWhitelist entity (pre ++ nrt :: post) ctx = (Err ErrForbidden, ctx).
Proof.
  intros Hpre Hrt Ha. induction Hpre as [|x pre (rt' & Hx & Hax) _ IH]; simpl.
  - rewrite run_bind. unfold readState. rewrite Hrt. simpl. by rewrite Ha.
  - rewrite run_bind. unfold readState. rewrite Hx. simpl. by rewrite Hax.
Qed.

(** C3 (amended): outside check-only mode and once the steps before the
    admission check have succeeded, a listed runtime whose whitelist lacks
    the node's entity (the runtimes listed before it being loaded and
    admitting) makes [registerNode] return [ErrForbidden] with the state
    tree and the events unchanged; and [registerNode] succeeds only if
    every listed runtime is loaded and policyAllows the entity. *)
Theorem registerNode_admission (ctx : Context) (sigNode : SignedNode)
    (params : ConsensusParameters) (newNode : Node) (paid : list Runtime)
    (ctx1 : Context) :
  IsCheckOnly ctx = false ->
  verifyAndCharge sigNode ctx = (Ok (params, newNode, paid), ctx1) ->
  (forall pre nrt post rt,
      Runtimes newNode = pre ++ nrt :: post ->
      Forall (allowedRuntime (state ctx) (EntityID newNode)) pre ->
      stRuntime (state ctx) (nrID nrt) = Ok rt ->
      policyAllows rt (EntityID newNode) = false ->
      registerNode ctx sigNode = (Some ErrForbidden, ctx1) /\
      state ctx1 = state ctx /\ events ctx1 = events ctx) /\
  ((registerNode ctx sigNode).1 = None ->
   Forall (allowedRuntime (state ctx) (EntityID newNode)) (Runtimes newNode)).
Proof.
  intros Hm Hv.
  pose proof (verifyAndCharge_state sigNode ctx) as Hs.
  rewrite Hv in Hs; simpl in Hs.
  rewrite registerNode_unfold, Hv by done.
  rewrite afterVerify_unfold. split.
  - intros pre nrt post rt Hrts Hpre Hrt Ha.
    rewrite Hrts, (checkWhitelist_forbidden _ pre nrt post rt); try congruence.
    simpl. split; [done|]. split; [done|].
    assert (He : preserves events (verifyAndCharge sigNode)).
    { unfold verifyAndCharge. frame. intros c. by destruct (_ && _). }
    specialize (He ctx). by rewrite Hv in He.
  - pose proof (checkWhitelist_ok (EntityID newNode) (Runtimes newNode) ctx1) as Hok.
    destruct (checkWhitelist _ _ ctx1) as [[[]|e] c]; simpl in *; [|done].
    intros _. rewrite <- Hs. by apply Hok.
Qed.

Lemma applyRegistration_errors params sigNode newNode paid sc n existing epoch
    ctx e c :
  laterErrorsDistinct ->
  applyRegistration params sigNode newNode paid sc n existing epoch ctx
  = (Err e, c) ->
  e <> ErrNodeExpired.
Proof.
  intros (_ & Hstake & Hupd).
  assert (Hens : forall ent k ctx0 e0 c0,
             ensureNodeStake params sc ent k ctx0 = (Err e0, c0) ->
             e0 <> ErrNodeExpired).
  { intros ent k ctx0 e0 c0. unfold ensureNodeStake.
    destruct (negb _); [|done]. destruct sc as [s|]; [|done].
    destruct (EnsureNodeRegistrationStake s ent k) eqn:E; [|done].
    intros [= <- _] ->. by eapply Hstake. }
  assert (Hres : forall ctx0 e0 c0,
             resumeRuntimes paid ctx0 = (Err e0, c0) -> e0 <> ErrNodeExpired).
  { induction paid as [|rt rest IH]; intros ctx0 e0 c0; simpl; [done|].
    destruct (stResumeRuntime _ _) as [[err|] t]; [|apply IH].
    case_decide; [apply IH|]. by intros [= <- _]. }
  assert (Hset : forall ctx0 e0 c0,
             writeState (stSetNode newNode sigNode) (fun _ => ErrBadEntityForNode) ctx0
             = (Err e0, c0) -> e0 <> ErrNodeExpired).
  { intros ctx0 e0 c0. unfold writeState.
    destruct (stSetNode _ _ _) as [[err|] t]; [|done]. by intros [= <- _]. }
  unfold applyRegistration. rewrite run_bind.
  match goal with |- context [(if ?b then ?m1 else ?m2) ctx] =>
    assert (Hbr : forall e0 c0, (if b then m1 else m2) ctx = (Err e0, c0) ->
                                e0 <> ErrNodeExpired) end.
  { intros e0 c0. destruct (_ || _).
    - rewrite run_bind.
      destruct (ensureNodeStake _ _ _ _ ctx) as [[[]|e1] c1] eqn:E1;
        [|intros [= <- _]; by eapply Hens].
      rewrite run_bind.
      destruct (writeState _ _ c1) as [[[]|e2] c2] eqn:E2;
        [|intros [= <- _]; by eapply Hset].
      rewrite run_bind.
      match goal with |- context [match ?m c2 with _ => _ end] =>
        destruct (m c2) as [[status|e3] c3] eqn:E3 end.
      + unfold writeState. destruct (stSetNodeStatus _ _ _) as [[err|] t]; [|done].
        by intros [= <- _].
      + destruct existing; [|done].
        destruct (stNodeStatus _ _); [done|].
        injection E3 as <- _. by intros [= <- _].
    - rewrite run_bind.
      destruct (ensureNodeStake _ _ _ _ ctx) as [[[]|e1] c1] eqn:E1;
        [|intros [= <- _]; by eapply Hens].
      rewrite run_bind.
      match goal with |- context [match ?m c1 with _ => _ end] =>
        destruct (m c1) as [[[]|e3] c3] eqn:E3 end.
      + apply Hset.
      + destruct existing as [ex|]; [|done].
        destruct (VerifyNodeUpdate ex newNode) eqn:Eu; [|done].
        injection E3 as <- _. intros [= <- _] ->. by eapply Hupd. }
  match goal with |- match ?x with _ => _ end = _ -> _ =>
    destruct x as [[[]|e1] c1] eqn:E1 end.
  - apply Hres.
  - intros [= <- _]. by eapply Hbr.
Qed.

Lemma chargeAndApply_errors sigNode params newNode paid sc n existing epoch ctx e c :
  laterErrorsDistinct ->
  chargeAndApply withStateCheckpoint sigNode params newNode paid sc n existing
    epoch ctx = (Err e, c) ->
  e <> ErrNodeExpired.
Proof.
  intros Hl. rewrite chargeAndApply_unfold. unfold useGas.
  destruct (UseGas _ _ _ (gas ctx)) as [[e1|] g] eqn:Eg.
  { intros [= <- _] ->. destruct Hl as (Hg & _). eapply Hg. by rewrite Eg. }
  unfold withStateCheckpoint.
  destruct (applyRegistration _ _ _ _ _ _ _ _ _) as [[[]|e2] c2] eqn:Ea; [done|].
  intros [= <- _]. by eapply applyRegistration_errors.
Qed.

(** C7: [registerNode] asks the time source for the epoch at block height
    + 1; when the steps before the expiry check succeed, it returns
    [ErrNodeExpired] exactly when the node's expiration is less than or
    equal to that epoch (the helpers called afterwards reporting errors of
    their own). *)
Theorem registerNode_expired_iff (ctx : Context) (sigNode : SignedNode)
    (params : ConsensusParameters) (newNode : Node) (paid : list Runtime)
    (ctx1 : Context) (sc : option StakeCache) (n : Z) (epoch : EpochTime) :
  IsCheckOnly ctx = false ->
  verifyAndCharge sigNode ctx = (Ok (params, newNode, paid), ctx1) ->
  (checkWhitelist (EntityID newNode) (Runtimes newNode) ctx1).1 = Ok tt ->
  (checkEntityStake params newNode ctx1).1 = Ok (sc, n) ->
  - 2 ^ 63 <= blockHeight ctx + 1 < 2 ^ 63 ->
  GetEpoch (blockHeight ctx + 1) = Ok epoch ->
  laterErrorsDistinct ->
  (registerNode ctx sigNode).1 = Some ErrNodeExpired <->
  Expiration newNode <= epoch.
Proof.
  intros Hm Hv Hw Hst Hh He Hl.
  pose proof (verifyAndCharge_height sigNode ctx) as Hbh.
  rewrite Hv in Hbh; simpl in Hbh.
  rewrite registerNode_unfold, Hv by done.
  rewrite afterVerify_unfold.
  destruct (checkWhitelist _ _ ctx1) as [[[]|e1] c1]; simpl in Hw; [|done].
  destruct (checkEntityStake _ _ ctx1) as [[[sc' n']|e2] c2]; simpl in Hst; [|done].
  unfold checkNotExpired. rewrite run_bind.
  assert (Hwrap : toInt (blockHeight ctx1 + 1) = blockHeight ctx + 1).
  { rewrite Hbh. unfold toInt. rewrite Z.mod_small; lia. }
  rewrite Hwrap, He. simpl.
  case_decide as Hexp; simpl; [done|].
  split; [|lia]. intros Hr. exfalso.
  unfold lookupExisting in Hr.
  destruct (stNode _ _) as [ex|err]; simpl in Hr.
  - destruct (chargeAndApply _ _ _ _ _ _ _ _ _ ctx1) as [[[]|e5] c5] eqn:E5;
      simpl in Hr; [done|].
    injection Hr as ->. by eapply chargeAndApply_errors.
  - case_decide; simpl in Hr; [|done].
    destruct (chargeAndApply _ _ _ _ _ _ _ _ _ ctx1) as [[[]|e5] c5] eqn:E5;
      simpl in Hr; [done|].
    injection Hr as ->. by eapply chargeAndApply_errors.
Qed.

Lemma toInt_small (x : Z) : - 2 ^ 63 <= x < 2 ^ 63 -> toInt x = x.
Proof. intros H. unfold toInt. rewrite Z.mod_small; lia. Qed.

Lemma wrap64_small (x : Z) : 0 <= x < 2 ^ 64 -> wrap64 x = x.
Proof. intros H. unfold wrap64. by rewrite Z.mod_small. Qed.

Lemma feeCount_spec (newNode : Node) (existing : option Node) (epoch : EpochTime)
    (paid : list Runtime) :
  0 <= epoch < Expiration newNode -> Expiration newNode < 2 ^ 64 ->
  Z.of_nat (length paid) * (Expiration newNode - epoch) < 2 ^ 63 ->
  (forall ex, existing = Some ex -> IsExpired ex epoch = false ->
              epoch <= Expiration ex < 2 ^ 64) ->
  feeCount newNode existing epoch paid
  = Z.of_nat (length paid) * additionalEpochs newNode existing epoch.
Proof.
  intros He Hx Hprod Hlive. unfold feeCount, additionalEpochs.
  rewrite (wrap64_small (Expiration newNode - epoch)) by lia.
  assert (Hlen : 0 <= Z.of_nat (length paid)) by lia.
  assert (Hadd : Expiration newNode - epoch < 2 ^ 63 \/ length paid = 0%nat).
  { destruct (length paid); [by right|]. left. nia. }
  destruct existing as [ex|]; simpl.
  - destruct (IsExpired ex epoch) eqn:Hexp; simpl.
    + destruct Hadd as [Hadd | ->]; [|by rewrite !Z.mul_0_l].
      rewrite (toInt_small (_ - _)) by lia. apply toInt_small. nia.
    + destruct (Hlive ex eq_refl Hexp) as [Hl1 Hl2].
      rewrite (wrap64_small (Expiration ex - epoch)) by lia.
      case_decide.
      * rewrite Z.max_r by lia. rewrite wrap64_small by lia.
        destruct Hadd as [Hadd | ->]; [|by rewrite !Z.mul_0_l].
        rewrite (toInt_small (_ - _)) by lia. apply toInt_small. nia.
      * rewrite Z.max_l by lia. rewrite (toInt_small 0) by lia.
        rewrite Z.mul_0_r. by apply toInt_small.
  - destruct Hadd as [Hadd | ->]; [|by rewrite !Z.mul_0_l].
    rewrite (toInt_small (_ - _)) by lia. apply toInt_small. nia.
Qed.


End App.

(** *** Runs on the in-memory backend *)

Lemma memBackend_laterErrorsDistinct : laterErrorsDistinct (B := memBackend).
Proof.
  split; [|split].
  - intros n op costs [limit used]. simpl. by case_decide.
  - intros sc id n. simpl. by case_decide.
  - intros a b. simpl. by case_decide.
Qed.

(** Re-registering the expired node 1 on [staleTree] fails after the node
    record was written (its status record is missing); the tree is
    [staleTree] again and the seven units of gas stay charged. *)
Lemma registerNode_error_rolls_back_witness :
  state (registerNode (contextOn staleTree) (nodeFor 100 10 7)).2 = staleTree /\
  exists stopped,
    registerUnprotected (nodeFor 100 10 7) (contextOn staleTree)
    = (Err ErrInvalidArgument, stopped) /\
    (registerNode (contextOn staleTree) (nodeFor 100 10 7)).2
    = setState staleTree stopped.
Proof.
  apply (registerNode_error_rolls_back (B := memBackend)
           (contextOn staleTree) (nodeFor 100 10 7) ErrInvalidArgument).
  vm_compute. reflexivity.
Defined.

Example stale_registration_keeps_gas :
  gas (registerNode (contextOn staleTree) (nodeFor 100 10 7)).2 = (1000, 7) /\
  mNodes (state (registerUnprotected (nodeFor 100 10 7) (contextOn staleTree)).2)
  = {[ 1 := verifiedNode 100 10 7 ]}.
Proof. split; vm_compute; reflexivity. Qed.

(** C3 (as stated) fails: entity 200 is not on the whitelist of runtime 8,
    yet in check-only mode [registerNode] returns no error at all, and
    with a transaction signer other than the node's signer it returns
    [ErrIncorrectTxSigner]. *)
Lemma registerNode_forbidden_not_always_reported :
  decodeNode (Blob (nodeFor 200 10 8)) = Ok (verifiedNode 200 10 8) /\
  stRuntime s2Tree 8 = Ok runtime8 /\
  policyAllows runtime8 200 = false /\
  (registerNode (s2Context ContextCheckTx 200) (nodeFor 200 10 8)).1 = None /\
  (registerNode (s2Context ContextDeliverTx 300) (nodeFor 200 10 8)).1
  = Some ErrIncorrectTxSigner.
Proof. repeat split; vm_compute; reflexivity. Qed.

Lemma registerNode_admission_witness :
  registerNode (s2Context ContextDeliverTx 200) (nodeFor 200 10 8)
  = (Some ErrForbidden, chargedContext s2Tree 200) /\
  state (chargedContext s2Tree 200) = state (s2Context ContextDeliverTx 200) /\
  events (chargedContext s2Tree 200) = events (s2Context ContextDeliverTx 200).
Proof.
  refine (proj1 (registerNode_admission (B := memBackend)
                   (s2Context ContextDeliverTx 200) (nodeFor 200 10 8)
                   (mParams s2Tree) (verifiedNode 200 10 8) [runtime8]
                   (chargedContext s2Tree 200) _ _)
            [] (mkNodeRuntime 8) [] runtime8 _ _ _ _).
  - reflexivity.
  - vm_compute. reflexivity.
  - reflexivity.
  - constructor.
  - vm_compute. reflexivity.
  - vm_compute. reflexivity.
Defined.

(** At height 41 the next block is in epoch 4: a node expiring at epoch 4
    is rejected. *)
Lemma registerNode_expired_iff_witness :
  (registerNode (s2Context ContextDeliverTx 100) (nodeFor 100 4 8)).1
  = Some ErrNodeExpired <-> 4 <= 4.
Proof.
  apply (registerNode_expired_iff (B := memBackend)
           (s2Context ContextDeliverTx 100) (nodeFor 100 4 8)
           (mParams s2Tree) (verifiedNode 100 4 8) [runtime8]
           (chargedContext s2Tree 100) (Some tt) 0 4).
  - reflexivity.
  - vm_compute. reflexivity.
  - vm_compute. reflexivity.
  - vm_compute. reflexivity.
  - simpl. lia.
  - vm_compute. reflexivity.
  - apply memBackend_laterErrorsDistinct.
Defined.


(** ** The events of a registration *)

Section Events.
Context `{B : Backend}.

Lemma setGas_events g (ctx : Context) : events (setGas g ctx) = events ctx.
Proof. done. Qed.

Lemma setState_events t (ctx : Context) : events (setState t ctx) = events ctx.
Proof. done. Qed.

Lemma verifyAndCharge_events sigNode : preserves events (verifyAndCharge sigNode).
Proof.
  unfold verifyAndCharge.
  apply preserves_bind; [apply preserves_pure | intros untrustedNode].
  apply preserves_bind; [apply preserves_readState | intros untrustedEntity].
  apply preserves_bind; [apply preserves_readState | intros params].
  apply preserves_bind; [apply preserves_pure | intros [newNode paid]].
  apply preserves_bind.
  { apply preserves_decide; [by apply preserves_useGas | apply preserves_ret]. }
  intros _. apply preserves_bind; [|intros; apply preserves_ret].
  intros ctx. by destruct (_ && _).
Qed.

(** [resumeRuntimes] emits one event for each runtime it resumes, in the
    order of the paid runtimes, and nothing else. *)
Lemma resumeRuntimes_events paid :
  forall ctx, exists resumed,
    resumed `sublist_of` paid /\
    events (resumeRuntimes paid ctx).2
    = events ctx ++ (EvRuntimeRegistered <$> resumed).
Proof.
  induction paid as [|rt rest IH]; intros ctx; simpl.
  { exists []. split; [done | by rewrite app_nil_r]. }
  destruct (stResumeRuntime (rtID rt) (state ctx)) as [[err|] t].
  - case_decide.
    + destruct (IH (setState t ctx)) as (resumed & Hsub & Hev).
      exists resumed. split; [by apply sublist_cons | done].
    + exists []. split; [apply sublist_nil_l | by rewrite app_nil_r].
  - destruct (IH (addEvent (EvRuntimeRegistered rt) (setState t ctx)))
      as (resumed & Hsub & Hev).
    exists (rt :: resumed). split; [by apply sublist_skip|].
    rewrite Hev. simpl. by rewrite <- app_assoc.
Qed.

Lemma applyRegistration_events params sigNode newNode paid sc n existing epoch :
  forall ctx, exists resumed,
    resumed `sublist_of` paid /\
    events (applyRegistration params sigNode newNode paid sc n existing epoch ctx).2
    = events ctx ++ (EvRuntimeRegistered <$> resumed).
Proof.
  intros ctx. unfold applyRegistration. rewrite run_bind.
  match goal with |- context [(if ?b then ?m1 else ?m2) ctx] =>
    assert (Hpre : preserves events (if b then m1 else m2)) end.
  { apply preserves_if.
    - apply preserves_bind; [intros c; by rewrite ensureNodeStake_id | intros _].
      apply preserves_bind; [by apply preserves_writeState | intros _].
      apply preserves_bind; [|intros; by apply preserves_writeState].
      destruct existing; [|apply preserves_ret].
      intros c. by destruct (stNodeStatus _ _).
    - apply preserves_bind; [intros c; by rewrite ensureNodeStake_id | intros _].
      apply preserves_bind; [|intros; by apply preserves_writeState].
      destruct existing; [apply preserves_check | apply preserves_ret]. }
  specialize (Hpre ctx).
  match goal with |- context [(if ?b then ?m1 else ?m2) ctx] =>
    destruct ((if b then m1 else m2) ctx) as [[[]|e] c] end; simpl in Hpre.
  - destruct (resumeRuntimes_events paid c) as (resumed & Hsub & Hev).
    exists resumed. split; [done|]. by rewrite Hev, Hpre.
  - exists []. split; [apply sublist_nil_l|]. simpl. by rewrite app_nil_r.
Qed.

Lemma chargeAndApply_events sigNode params newNode paid sc n existing epoch ctx1 :
  exists resumed,
    resumed `sublist_of` paid /\
    let r := chargeAndApply withStateCheckpoint sigNode params newNode paid sc n
               existing epoch ctx1 in
    events r.2
    = events ctx1 ++ (EvRuntimeRegistered <$> resumed)
      ++ match r.1 with Ok _ => [EvNodeRegistered newNode] | Err _ => [] end.
Proof.
  rewrite chargeAndApply_unfold.
  pose proof (preserves_useGas events (feeCount newNode existing epoch paid)
                GasOpRuntimeEpochMaintenance (GasCosts params)
                ltac:(done) ctx1) as Hg.
  destruct (useGas _ _ _ ctx1) as [[[]|e1] c1]; simpl in Hg.
  - destruct (applyRegistration_events params sigNode newNode paid sc n existing
                epoch c1) as (resumed & Hsub & Hev).
    exists resumed. split; [done|]. unfold withStateCheckpoint.
    destruct (applyRegistration _ _ _ _ _ _ _ _ c1) as [[[]|e2] c2]; simpl in *.
    + by rewrite Hev, Hg, <- app_assoc.
    + by rewrite Hev, Hg, app_nil_r.
  - exists []. split; [apply sublist_nil_l|]. simpl. by rewrite Hg, app_nil_r.
Qed.

Lemma afterVerify_events sigNode params newNode paid ctx1 :
  exists resumed,
    resumed `sublist_of` paid /\
    let r := afterVerify withStateCheckpoint sigNode params newNode paid ctx1 in
    events r.2
    = events ctx1 ++ (EvRuntimeRegistered <$> resumed)
      ++ match r.1 with Ok _ => [EvNodeRegistered newNode] | Err _ => [] end.
Proof.
  rewrite afterVerify_unfold.
  assert (Hstop : forall e,
            exists resumed : list Runtime,
              resumed `sublist_of` paid /\
              events ctx1
              = events ctx1 ++ (EvRuntimeRegistered <$> resumed)
                ++ match (Err e : res unit) with
                   | Ok _ => [EvNodeRegistered newNode] | Err _ => [] end).
  { intros e. exists []. split; [apply sublist_nil_l | by rewrite app_nil_r]. }
  pose proof (checkWhitelist_id (EntityID newNode) (Runtimes newNode) ctx1) as H1.
  destruct (checkWhitelist _ _ ctx1) as [[[]|e1] c1]; simpl in H1; subst c1;
    [|apply (Hstop e1)].
  pose proof (checkEntityStake_id params newNode ctx1) as H2.
  destruct (checkEntityStake _ _ ctx1) as [[[sc n]|e2] c2]; simpl in H2; subst c2;
    [|apply (Hstop e2)].
  pose proof (checkNotExpired_id newNode ctx1) as H3.
  destruct (checkNotExpired _ ctx1) as [[epoch|e3] c3]; simpl in H3; subst c3;
    [|apply (Hstop e3)].
  pose proof (lookupExisting_id newNode ctx1) as H4.
  destruct (lookupExisting _ ctx1) as [[existing|e4] c4]; simpl in H4; subst c4;
    [|apply (Hstop e4)].
  apply chargeAndApply_events.
Qed.


End Events.


End RegistrySpec.

Module MuxSpec.
Import Mux.
Local Open Scope Z_scope.

Section Multiplexer.
Variable parseGenesisAppState : RequestInitChain -> res GenesisDocument.
Variable genesisDigest : RequestInitChain -> Bytes.
Variable marshalRequest : RequestInitChain -> Bytes.
Variable marshalEvents : list Event -> Bytes.
Variable unmarshalEvents : Bytes -> list Event.
Variable marshalData : Bytes -> Bytes.
Variable openTransaction : Bytes -> res (Transaction * PublicKey).
Variable hashFromBytes : Bytes -> Hash.
Variable errorCode : error -> string * Z.
Variable errorString : error -> string.
Variable fireTimers : Application -> World -> option error * World.

(** *** Registration order *)

Lemma names_omap (byName : gmap string Application) (l : list string) :
  (forall n, n ∈ l -> exists a, byName !! n = Some a /\ Name a = n) ->
  Name <$> omap (fun n => byName !! n) l = l.
Proof.
  induction l as [|n l IH]; intros H; simpl; [done|].
  destruct (H n) as (a & Ha & Hn); [by left|].
  rewrite Ha. simpl. rewrite Hn. f_equal. apply IH.
  intros n' Hn'. apply H. by right.
Qed.

Lemma sortStrings_elem (l : list string) (n : string) :
  n ∈ sortStrings l <-> n ∈ l.
Proof.
  unfold sortStrings. by rewrite (merge_sort_Permutation String.le l).
Qed.

Lemma keys_elem (byName : gmap string Application) (n : string) :
  n ∈ (map_to_list byName).*1 <-> exists a, byName !! n = Some a.
Proof.
  rewrite list_elem_of_fmap. split.
  - intros ([n' a] & -> & Hin). exists a. by apply elem_of_map_to_list.
  - intros (a & Ha). exists (n, a). split; [done|]. by apply elem_of_map_to_list.
Qed.

Lemma rebuild_names (m : abciMux) :
  namesOk m ->
  Name <$> appsByLexOrder (rebuildAppLexOrdering m)
  = sortStrings (map_to_list (appsByName m)).*1.
Proof.
  intros Hok. unfold rebuildAppLexOrdering. simpl.
  apply names_omap. intros n Hn.
  apply sortStrings_elem, keys_elem in Hn as (a & Ha).
  exists a. split; [done|]. by apply Hok.
Qed.

Lemma rebuild_lexOrdered (m : abciMux) :
  namesOk m -> lexOrdered (rebuildAppLexOrdering m).
Proof.
  intros Hok. split; [|split; [|split]].
  - exact Hok.
  - rewrite rebuild_names by done. apply StronglySorted_merge_sort; apply _.
  - rewrite rebuild_names by done. unfold sortStrings.
    rewrite (merge_sort_Permutation String.le).
    apply NoDup_fst_map_to_list.
  - intros a. unfold rebuildAppLexOrdering. simpl.
    rewrite list_elem_of_omap. split.
    + intros (n & _ & Ha). by exists n.
    + intros (n & Ha). exists n. split; [|done].
      apply sortStrings_elem, keys_elem. by exists a.
Qed.

Lemma doRegister_namesOk (app : Application) (m : abciMux) :
  namesOk m -> namesOk (doRegister app m).2.
Proof.
  intros Hok. unfold doRegister.
  destruct (appsByName m !! Name app) eqn:Hn; [done|].
  destruct (if Blessed app then _ else _) as [blessed|e]; [|done].
  assert (Hins : forall n a, <[Name app := app]> (appsByName m) !! n = Some a ->
                             Name a = n).
  { intros n a. rewrite lookup_insert.
    case_decide; [by intros [= <-] | apply Hok]. }
  destruct (registerMethods _ _ _) as [[e|] byMethod]; exact Hins.
Qed.

Lemma registerAll_namesOk (apps : list Application) (m : abciMux) :
  namesOk m -> namesOk (registerAll apps m).
Proof.
  revert m. induction apps as [|app rest IH]; intros m Hok; simpl; [done|].
  apply IH. by apply doRegister_namesOk.
Qed.

Lemma doRegister_lexOrdered (app : Application) (m m' : abciMux) :
  namesOk m -> doRegister app m = (None, m') -> lexOrdered m'.
Proof.
  intros Hok. unfold doRegister.
  destruct (appsByName m !! Name app) eqn:Hn; [discriminate|].
  destruct (if Blessed app then _ else _) as [blessed|e]; [|discriminate].
  destruct (registerMethods _ _ _) as [[e|] byMethod]; [discriminate|].
  intros [= <-]. apply rebuild_lexOrdered.
  intros n a. simpl. rewrite lookup_insert.
  case_decide as Hd; [by intros [= <-] | apply Hok].
Qed.

(** *** Traces of the dispatch loops *)

Lemma stable_refl m : stable m m.
Proof. by repeat split. Qed.

Lemma stable_trans m1 m2 m3 : stable m1 m2 -> stable m2 m3 -> stable m1 m3.
Proof.
  unfold stable. intros H1 H2.
  destruct H1 as (?&?&?&?&?&?&?&?&?), H2 as (?&?&?&?&?&?&?&?&?).
  repeat split; congruence.
Qed.

Lemma unchanged_refl m : unchanged m m.
Proof. split; [apply stable_refl | done]. Qed.

Lemma unchanged_trans m1 m2 m3 :
  unchanged m1 m2 -> unchanged m2 m3 -> unchanged m1 m3.
Proof.
  intros (Hs1 & ? & ? & ?) (Hs2 & ? & ? & ?).
  split; [by eapply stable_trans|]. repeat split; congruence.
Qed.

Lemma unchanged_step c w m : unchanged m (setWorld w (logCall c m)).
Proof. split; [by repeat split | done]. Qed.

Lemma dispatch_spec call run what apps :
  forall m r m',
  dispatch errorString call run what apps m = (r, m') ->
  unchanged m m' /\
  (r = Return tt -> trace m' = trace m ++ lifecycleCalls call apps).
Proof.
  induction apps as [|app rest IH]; intros m r m'; simpl.
  - intros [= <- <-]. split; [apply unchanged_refl|].
    intros _. by rewrite app_nil_r.
  - destruct (run app (world m)) as [[err|] w] eqn:Hrun.
    + intros [= <- <-]. split; [apply unchanged_step | done].
    + intros H. apply IH in H as [Hu Ht].
      split; [eapply unchanged_trans; [apply unchanged_step | exact Hu]|].
      intros Hr. rewrite (Ht Hr). simpl.
      unfold lifecycleCalls. simpl. by rewrite <- app_assoc.
Qed.

Lemma endBlockApps_spec req apps :
  forall resp m r m',
  endBlockApps errorString req resp apps m = (r, m') ->
  unchanged m m' /\
  (forall resp', r = Return resp' ->
                 trace m' = trace m ++ lifecycleCalls CallEndBlock apps).
Proof.
  induction apps as [|app rest IH]; intros resp m r m'; simpl.
  - intros [= <- <-]. split; [apply unchanged_refl|].
    intros _ _. by rewrite app_nil_r.
  - destruct (AppEndBlock app req (world m)) as [[newResp [err|]] w] eqn:Hrun.
    + intros [= <- <-]. split; [apply unchanged_step | done].
    + intros H. apply IH in H as [Hu Ht].
      split; [eapply unchanged_trans; [apply unchanged_step | exact Hu]|].
      intros resp' Hr. rewrite (Ht _ Hr). simpl.
      unfold lifecycleCalls. simpl. by rewrite <- app_assoc.
Qed.

Lemma runGenesisHooks_spec hooks :
  forall i m,
  unchanged m (runGenesisHooks i hooks m) /\
  trace (runGenesisHooks i hooks m)
  = trace m ++ (CallGenesisHook <$> seq i (length hooks)).
Proof.
  induction hooks as [|hook rest IH]; intros i m; simpl.
  - split; [apply unchanged_refl | by rewrite app_nil_r].
  - destruct (IH (S i) (setWorld (hook (world m)) (logCall (CallGenesisHook i) m)))
      as [Hu Ht].
    split; [eapply unchanged_trans; [apply unchanged_step | exact Hu]|].
    rewrite Ht. simpl. by rewrite <- app_assoc.
Qed.

Lemma runHaltHooks_spec hooks height epoch :
  forall i m,
  unchanged m (runHaltHooks i hooks height epoch m) /\
  trace (runHaltHooks i hooks height epoch m)
  = trace m ++ ((fun j => CallHaltHook j height epoch) <$> seq i (length hooks)).
Proof.
  induction hooks as [|hook rest IH]; intros i m; simpl.
  - split; [apply unchanged_refl | by rewrite app_nil_r].
  - destruct (IH (S i) (setWorld (hook height epoch (world m))
                          (logCall (CallHaltHook i height epoch) m)))
      as [Hu Ht].
    split; [eapply unchanged_trans; [apply unchanged_step | exact Hu]|].
    rewrite Ht. simpl. by rewrite <- app_assoc.
Qed.

Lemma foreignExecute_spec owner tx apps :
  forall m r m',
  foreignExecute owner tx apps m = (r, m') ->
  unchanged m m' /\
  (r = None -> trace m' = trace m ++ foreignCalls owner tx apps).
Proof.
  induction apps as [|app rest IH]; intros m r m'; simpl.
  - intros [= <- <-]. split; [apply unchanged_refl|].
    intros _. by rewrite app_nil_r.
  - unfold foreignCalls. rewrite filter_cons.
    case_bool_decide as Hn.
    + rewrite decide_False by (intros Hc; by apply Hc).
      apply IH.
    + rewrite decide_True by done.
      destruct (ForeignExecuteTx app (Name owner) tx (world m)) as [[err|] w] eqn:Hrun.
      * intros [= <- <-]. split; [apply unchanged_step | done].
      * intros H. apply IH in H as [Hu Ht].
        split; [eapply unchanged_trans; [apply unchanged_step | exact Hu]|].
        intros Hr. rewrite (Ht Hr). simpl. by rewrite <- app_assoc.
Qed.

Lemma authenticate_spec tx m r m' :
  authenticate tx m = (r, m') ->
  unchanged m m' /\ trace m' = trace m ++ authCalls m.
Proof.
  unfold authenticate, authCalls.
  destruct (txAuthHandler m) as [handler|].
  - simpl. destruct (handler tx (world m)) as [r' w].
    intros [= <- <-]. split; [apply unchanged_step | done].
  - intros [= <- <-]. split; [apply unchanged_refl | by rewrite app_nil_r].
Qed.

Lemma processTx_spec tx m r m' :
  processTx tx m = (r, m') ->
  unchanged m m' /\
  (r = None ->
   exists app, appsByMethod m !! Method tx = Some app /\
     trace m' = trace m ++ authCalls m ++ [CallExecuteTx (Name app) tx]
                ++ foreignCalls app tx (appsByLexOrder m)).
Proof.
  unfold processTx.
  destruct (authenticate tx m) as [[err|] m1] eqn:Ha;
    apply authenticate_spec in Ha as [Hu1 Ht1].
  { intros [= <- <-]. done. }
  destruct Hu1 as (Hs1 & Hu1').
  pose proof Hs1 as (_ & Hmeth & Hlex & _).
  rewrite Hmeth.
  destruct (appsByMethod m !! Method tx) as [app|] eqn:Hm.
  2:{ intros [= <- <-]. done. }
  simpl.
  destruct (ExecuteTx app tx (world m1)) as [[err|] w] eqn:He.
  { intros [= <- <-]. split; [|done].
    eapply unchanged_trans; [split; [exact Hs1 | exact Hu1'] | apply unchanged_step]. }
  intros H. apply foreignExecute_spec in H as [Hu2 Ht2].
  split.
  { eapply unchanged_trans; [split; [exact Hs1 | exact Hu1']|].
    eapply unchanged_trans; [apply unchanged_step | exact Hu2]. }
  intros Hr. exists app. split; [done|].
  rewrite (Ht2 Hr). simpl. rewrite Ht1, Hlex. by rewrite <- !app_assoc.
Qed.

Lemma InitChain_trace req m resp m' :
  InitChain parseGenesisAppState genesisDigest marshalRequest marshalEvents
    errorString req m = (Return resp, m') ->
  trace m' = trace m ++ genesisHookCalls m
             ++ lifecycleCalls CallInitChain (appsByLexOrder m).
Proof.
  unfold InitChain.
  destruct (parseGenesisAppState req) as [st|]; [|discriminate].
  match goal with |- context [runGenesisHooks 0 ?h ?x] =>
    destruct (runGenesisHooks_spec h 0 x) as [Hu Ht];
    set (m1 := runGenesisHooks 0 h x) in * end.
  match goal with |- context [dispatch _ ?c ?r ?w ?apps ?x] =>
    destruct (dispatch errorString c r w apps x) as [[[]|msg] m2] eqn:Hd end;
    [|discriminate].
  apply dispatch_spec in Hd as [_ Hd]. specialize (Hd eq_refl).
  intros [= _ <-]. simpl in *. rewrite Hd, Ht.
  destruct Hu as ((_ & _ & -> & _) & _). simpl.
  by rewrite <- app_assoc.
Qed.

Lemma beginBlockApps_trace req m resp m' :
  beginBlockApps unmarshalEvents errorString req m = (Return resp, m') ->
  trace m' = trace m ++ lifecycleCalls CallBeginBlock (appsByLexOrder m).
Proof.
  unfold beginBlockApps.
  destruct (dispatch _ _ _ _ _ _) as [[[]|msg] m2] eqn:Hd; [|discriminate].
  apply dispatch_spec in Hd as [_ Hd]. specialize (Hd eq_refl).
  case_decide.
  - destruct (deliverTxTree (world m2) !! _); intros [= _ <-]; done.
  - intros [= _ <-]. done.
Qed.

Lemma inHaltEpoch_spec m b m' :
  inHaltEpoch m = (b, m') ->
  stable m m' /\ world m' = world m /\ trace m' = trace m /\
  invalidatedTxs m' = invalidatedTxs m /\ chans m' = chans m /\
  (b = true -> haltMode m' = true) /\
  (b = false -> haltMode m' = haltMode m \/ haltMode m' = false).
Proof.
  unfold inHaltEpoch. destruct (GetEpoch m _) as [e|].
  - intros [= <- <-]. simpl. repeat split; try done. by right.
  - intros [= <- <-]. repeat split; try done. by left.
Qed.

Lemma BeginBlock_trace req m resp m' :
  BeginBlock unmarshalEvents errorString req m = (Return resp, m') ->
  haltMode m' = false ->
  trace m' = trace m ++ lifecycleCalls CallBeginBlock (appsByLexOrder m).
Proof.
  unfold BeginBlock. case_decide; [discriminate|].
  simpl. destruct (haltMode m) eqn:Hh.
  { destruct (negb _); [|discriminate]. intros [= _ <-]. simpl. congruence. }
  match goal with |- context [inHaltEpoch ?x] =>
    destruct (inHaltEpoch x) as [[] m1] eqn:Hi;
    apply inHaltEpoch_spec in Hi
      as ((_ & _ & Hlex & _ & Hhooks & _) & _ & Ht & _ & _ & Hb1 & _) end.
  - intros [= _ <-] Hf.
    match type of Hf with haltMode (runHaltHooks 0 ?h ?a ?b ?x) = _ =>
      destruct (runHaltHooks_spec h a b 0 x) as [(_ & Hhm & _) _] end.
    rewrite Hhm, Hb1 in Hf by done. discriminate.
  - intros Hb _. apply beginBlockApps_trace in Hb.
    rewrite Hb, Ht, Hlex. done.
Qed.

Lemma EndBlock_trace req m resp m' :
  haltMode m = false ->
  EndBlock errorString fireTimers req m = (Return resp, m') ->
  trace m' = trace m ++ lifecycleCalls CallFireTimers (appsByLexOrder m)
             ++ lifecycleCalls CallEndBlock (appsByLexOrder m).
Proof.
  intros Hh. unfold EndBlock. rewrite Hh. simpl.
  destruct (dispatch _ _ _ _ _ _) as [[[]|msg] m1] eqn:Hd; [|discriminate].
  apply dispatch_spec in Hd as [((_ & _ & Hlex & _) & _) Hd].
  specialize (Hd eq_refl). simpl in *.
  destruct (endBlockApps _ _ _ _ _) as [[resp1|msg] m2] eqn:He; [|discriminate].
  apply endBlockApps_spec in He as [_ He]. specialize (He _ eq_refl).
  intros [= _ <-]. simpl. rewrite He, Hd, Hlex. by rewrite <- app_assoc.
Qed.

Lemma lexOrdered_stable (m m1 : abciMux) :
  stable m m1 -> lexOrdered m -> lexOrdered m1.
Proof.
  intros (Hn & _ & Hl & _) (Hok & Hs & Hnd & Hin).
  unfold lexOrdered, namesOk. rewrite Hn, Hl. done.
Qed.


Lemma executeTx_unchanged rawTx m r m' :
  executeTx openTransaction rawTx m = (r, m') -> unchanged m m'.
Proof.
  unfold executeTx. destruct (decodeTx _ _ _) as [[tx signer]|e].
  - intros H. apply processTx_spec in H as [Hu _]. exact Hu.
  - intros [= _ <-]. apply unchanged_refl.
Qed.

(** C4: when the epoch of the next block equals the halt epoch and the
    multiplexer is not yet in halt mode, [BeginBlock] dispatches all halt
    hooks, enters halt mode and returns an empty response; in halt mode
    [BeginBlock] returns empty without invoking anything as long as the
    epoch has not passed the halt epoch and panics once it has; and in
    halt mode every transaction is rejected when it is decoded and
    [EndBlock] returns empty. *)
Theorem halt_epoch (m : abciMux) (req : RequestBeginBlock) (epoch : EpochTime) :
  lastBeginBlock m <> blockHeight m ->
  - 2 ^ 63 <= blockHeight m + 1 < 2 ^ 63 ->
  GetEpoch m (blockHeight m + 1) = Ok epoch ->
  (haltMode m = false -> epoch = haltEpochHeight m ->
   exists m', BeginBlock unmarshalEvents errorString req m
              = (Return (mkResponseBeginBlock []), m') /\
     haltMode m' = true /\ trace m' = trace m ++ haltHookCalls m) /\
  (haltMode m = true -> epoch <= haltEpochHeight m ->
   exists m', BeginBlock unmarshalEvents errorString req m
              = (Return (mkResponseBeginBlock []), m') /\
     haltMode m' = true /\ trace m' = trace m) /\
  (haltMode m = true -> epoch > haltEpochHeight m ->
   (BeginBlock unmarshalEvents errorString req m).1
   = Panic "tendermint: after halt epoch, halting") /\
  (haltMode m = true ->
   (forall rawTx, decodeTx openTransaction rawTx m = Err ErrHaltMode) /\
   (forall dreq,
       dtCode (DeliverTx marshalData openTransaction errorCode errorString dreq m).1
       = (errorCode ErrHaltMode).2 /\
       dtLog (DeliverTx marshalData openTransaction errorCode errorString dreq m).1
       = errorString ErrHaltMode /\
       trace (DeliverTx marshalData openTransaction errorCode errorString dreq m).2
       = trace m) /\
   (forall creq,
       ctCode (CheckTx openTransaction hashFromBytes errorCode errorString creq m).1
       = (errorCode ErrHaltMode).2 /\
       ctLog (CheckTx openTransaction hashFromBytes errorCode errorString creq m).1
       = errorString ErrHaltMode /\
       trace (CheckTx openTransaction hashFromBytes errorCode errorString creq m).2
       = trace m) /\
   (forall ereq, EndBlock errorString fireTimers ereq m
                 = (Return (mkResponseEndBlock [] []), m))).
Proof.
  intros Hlast Hrange Hepoch.
  assert (Hwrap : toInt64 (blockHeight m + 1) = blockHeight m + 1).
  { unfold toInt64. rewrite Z.mod_small; lia. }
  split; [|split; [|split]].
  - intros Hh ->. unfold BeginBlock. rewrite decide_False by done.
    simpl. rewrite Hh. unfold inHaltEpoch. simpl.
    rewrite Hwrap, Hepoch. rewrite bool_decide_true by done.
    eexists. split; [reflexivity|].
    match goal with |- haltMode (runHaltHooks 0 ?h ?a ?b ?x) = _ /\ _ =>
      destruct (runHaltHooks_spec h a b 0 x) as [(_ & Hhm & _) Ht] end.
    rewrite Hhm, Ht. done.
  - intros Hh Hle. unfold BeginBlock. rewrite decide_False by done.
    simpl. rewrite Hh. unfold afterHaltEpoch. simpl.
    rewrite Hwrap, Hepoch. rewrite bool_decide_false by lia. simpl.
    eexists. split; [reflexivity|]. done.
  - intros Hh Hgt. unfold BeginBlock. rewrite decide_False by done.
    simpl. rewrite Hh. unfold afterHaltEpoch. simpl.
    rewrite Hwrap, Hepoch. by rewrite bool_decide_true by lia.
  - intros Hh. split; [|split; [|split]].
    + intros rawTx. unfold decodeTx. by rewrite Hh.
    + intros dreq. unfold DeliverTx, executeTx, decodeTx. simpl. rewrite Hh.
      by destruct (errorCode ErrHaltMode).
    + intros creq. unfold CheckTx, executeTx, decodeTx. simpl. rewrite Hh.
      destruct (errorCode ErrHaltMode) as [module code]. simpl.
      split; [done|]. split; [done|].
      destruct (ctType creq); [done|]. unfold notifyInvalidated.
      by destruct (invalidatedTxs _ !! _).
    + intros ereq. unfold EndBlock. by rewrite Hh.
Qed.

Lemma notifyInvalidated_spec txHash err m c ch :
  invalidatedTxs m !! txHash = Some c ->
  chans m !! c = Some ch ->
  chans (notifyInvalidated txHash err m) !! c = Some (notified err ch) /\
  invalidatedTxs (notifyInvalidated txHash err m) !! txHash = None /\
  (forall c', c' <> c ->
              chans (notifyInvalidated txHash err m) !! c' = chans m !! c') /\
  (forall err2,
      notifyInvalidated txHash err2 (notifyInvalidated txHash err m)
      = notifyInvalidated txHash err m).
Proof.
  intros Hsub Hch.
  assert (Heq : notifyInvalidated txHash err m
                = setSubscriptions (delete txHash (invalidatedTxs m))
                    (alter (fun ch => closeChan (trySend err ch)) c (chans m)) m).
  { unfold notifyInvalidated. by rewrite Hsub. }
  rewrite Heq. simpl.
  split; [|split; [|split]].
  - rewrite lookup_alter_eq, Hch. simpl. unfold notified, closeChan, trySend.
    destruct (waiting ch) eqn:Hw; simpl; [done|].
    by rewrite app_nil_r, Hw.
  - apply lookup_delete_eq.
  - intros c' Hne. by apply lookup_alter_ne.
  - intros err2. unfold notifyInvalidated. simpl.
    by rewrite lookup_delete_eq.
Qed.

(** C5 (amended): when [CheckTx] fails in the re-check sub-mode and a
    subscriber is registered for the transaction's hash, the multiplexer
    makes one non-blocking send of the error on the subscriber's channel,
    which delivers it if a receiver is waiting and drops it otherwise,
    closes the channel and removes the subscription, so that a later
    notification for that hash does nothing; no other channel is touched. *)
Theorem recheck_failure_notifies (m : abciMux) (req : RequestCheckTx)
    (err : error) (m1 : abciMux) (c : nat) (ch : Chan) :
  ctType req = CheckTxType_Recheck ->
  executeTx openTransaction (ctTx req)
    (setWorld (NewContext ContextCheckTx (currentTime m) (world m)) m)
  = (Some err, m1) ->
  invalidatedTxs m !! hashFromBytes (ctTx req) = Some c ->
  chans m !! c = Some ch ->
  let m' := (CheckTx openTransaction hashFromBytes errorCode errorString req m).2 in
  chans m' !! c = Some (notified err ch) /\
  invalidatedTxs m' !! hashFromBytes (ctTx req) = None /\
  (forall c', c' <> c -> chans m' !! c' = chans m !! c') /\
  (forall err2, notifyInvalidated (hashFromBytes (ctTx req)) err2 m' = m').
Proof.
  intros Hty Hexec Hsub Hch. unfold CheckTx. rewrite Hexec, Hty.
  destruct (errorCode err) as [module code]. simpl.
  apply executeTx_unchanged in Hexec as (_ & _ & Hsubs & Hchans).
  simpl in Hsubs, Hchans.
  destruct (notifyInvalidated_spec (hashFromBytes (ctTx req)) err m1 c ch)
    as (H1 & H2 & H3 & H4); [congruence | congruence |].
  split; [done|]. split; [done|]. split; [|done].
  intros c' Hne. rewrite H3 by done. by rewrite Hchans.
Qed.

End Multiplexer.

(** *** Runs of the small multiplexer *)

Lemma newMux_namesOk height halted : namesOk (newMux height halted).
Proof. intros n a. simpl. by rewrite lookup_empty. Qed.

(** Registering staking, registry and key manager, in this order, leaves
    them ordered key manager, registry, staking. *)
Example testMux_order :
  Name <$> appsByLexOrder (testMux 0 false) = ["keymanager"; "registry"; "staking"]%string.
Proof. vm_compute. reflexivity. Qed.


(** At height 49 the next block opens epoch 5, the halt epoch. *)
Lemma halt_epoch_witness :
  exists m', BeginBlock (fun _ => []) testErrorString (mkRequestBeginBlock 0)
               (testMux 49 false)
             = (Return (mkResponseBeginBlock []), m') /\
    haltMode m' = true /\
    trace m' = trace (testMux 49 false) ++ haltHookCalls (testMux 49 false).
Proof.
  refine (proj1 (halt_epoch (fun _ => []) (fun x => x) testOpen (fun x => x)
                   testErrorCode testErrorString (fun _ w => (None, w))
                   (testMux 49 false) (mkRequestBeginBlock 0) 5 _ _ _) _ _).
  - vm_compute. discriminate.
  - change (blockHeight (testMux 49 false)) with 49. lia.
  - vm_compute. reflexivity.
  - reflexivity.
  - reflexivity.
Defined.

(** C5 (as stated) fails: the subscriber of scenario S6 is not waiting on
    its channel when the re-check fails; the check fails, the channel is
    closed and the subscription removed, but no error was delivered. *)
Lemma recheck_failure_may_deliver_nothing :
  ctCode (CheckTx testOpen (fun x => x) testErrorCode testErrorString
            recheck watched).1 = 1 /\
  chans (CheckTx testOpen (fun x => x) testErrorCode testErrorString
           recheck watched).2 !! 0%nat
  = Some (mkChan false [] true) /\
  invalidatedTxs (CheckTx testOpen (fun x => x) testErrorCode testErrorString
                    recheck watched).2 !! [2; 0] = None.
Proof. repeat split; vm_compute; reflexivity. Qed.

(** With a receiver waiting, the error is delivered once. *)
Lemma recheck_failure_notifies_witness :
  chans (CheckTx testOpen (fun x => x) testErrorCode testErrorString
           recheck (startReceive 0 watched)).2 !! 0%nat
  = Some (mkChan false [ErrOther "invalid nonce"] true).
Proof.
  refine (proj1 (recheck_failure_notifies testOpen (fun x => x) testErrorCode
                   testErrorString (startReceive 0 watched) recheck
                   (ErrOther "invalid nonce")
                   (executeTx testOpen (ctTx recheck)
                      (setWorld (NewContext ContextCheckTx 0
                                   (world (startReceive 0 watched)))
                         (startReceive 0 watched))).2
                   0%nat (mkChan true [] false) _ _ _ _)).
  - reflexivity.
  - vm_compute. reflexivity.
  - vm_compute. reflexivity.
  - vm_compute. reflexivity.
Defined.

(** ** Registration, routing, subscriptions and the block clock *)

Lemma registerMethods_ok app methods :
  forall byMethod byMethod',
  registerMethods app methods byMethod = (None, byMethod') ->
  NoDup methods /\
  (forall x, x ∈ methods -> byMethod !! x = None /\ byMethod' !! x = Some app) /\
  (forall x, x ∉ methods -> byMethod' !! x = byMethod !! x).
Proof.
  induction methods as [|meth rest IH]; intros byMethod byMethod'; simpl.
  - intros [= <-]. split; [constructor|]. split; [|done].
    intros x Hx. by apply elem_of_nil in Hx.
  - destruct (byMethod !! meth) eqn:Hm; [discriminate|].
    intros H. apply IH in H as (Hnd & Hin & Hout).
    assert (Hnotin : meth ∉ rest).
    { intros Hc. destruct (Hin _ Hc) as [Hc' _].
      by rewrite lookup_insert_eq in Hc'. }
    split; [by constructor|]. split.
    + intros x Hx. apply elem_of_cons in Hx as [-> | Hx].
      * split; [done|]. rewrite Hout by done. apply lookup_insert_eq.
      * destruct (Hin _ Hx) as [H1 H2]. split; [|done].
        rewrite lookup_insert_ne in H1; [done|]. intros ->. done.
    + intros x Hx. apply not_elem_of_cons in Hx as [Hne Hx].
      rewrite Hout by done. by apply lookup_insert_ne.
Qed.

Lemma registerMethods_conflict app methods :
  forall byMethod e byMethod',
  registerMethods app methods byMethod = (Some e, byMethod') ->
  exists meth pre post,
    e = ErrMethodRegistered meth /\
    methods = pre ++ meth :: post /\
    is_Some (byMethod' !! meth) /\
    (forall x, x ∈ pre -> byMethod' !! x = Some app) /\
    (forall x, x ∉ pre -> byMethod' !! x = byMethod !! x).
Proof.
  induction methods as [|meth rest IH]; intros byMethod e byMethod'; simpl;
    [discriminate|].
  destruct (byMethod !! meth) as [owner|] eqn:Hm.
  - intros [= <- <-]. exists meth, [], rest. split; [done|]. split; [done|].
    split; [by eexists|]. split; [|done].
    intros x Hx. by apply elem_of_nil in Hx.
  - intros H. apply IH in H as (meth' & pre & post & -> & -> & Hs & Hin & Hout).
    exists meth', (meth :: pre), post. split; [done|]. split; [done|].
    split; [done|]. split.
    + intros x Hx. apply elem_of_cons in Hx as [-> | Hx]; [|by apply Hin].
      destruct (decide (meth ∈ pre)) as [Hp | Hp]; [by apply Hin|].
      rewrite Hout by done. apply lookup_insert_eq.
    + intros x Hx. apply not_elem_of_cons in Hx as [Hne Hx].
      rewrite Hout by done. by apply lookup_insert_ne.
Qed.

Lemma trace_foreignExecute owner tx apps :
  forall m, trace m `prefix_of` trace (foreignExecute owner tx apps m).2.
Proof.
  induction apps as [|a rest IH]; intros m; simpl; [done|].
  case_bool_decide; [apply IH|].
  destruct (ForeignExecuteTx a (Name owner) tx (world m)) as [[err|] w]; simpl.
  - by apply prefix_app_r.
  - etrans; [|apply IH]. simpl. by apply prefix_app_r.
Qed.

(** X12: a registration that succeeds makes the application the owner of
    each of its methods, none of which was taken before, and leaves the
    routes of all other methods as they were; a transaction that passes
    authentication and names one of these methods is handed to
    [ExecuteTx] of this application. *)
Theorem doRegister_routes (app : Application) (m m' : abciMux) :
  doRegister app m = (None, m') ->
  appsByName m !! Name app = None /\
  appsByName m' = <[Name app := app]> (appsByName m) /\
  NoDup (Methods app) /\
  (forall meth, meth ∈ Methods app ->
     appsByMethod m !! meth = None /\ appsByMethod m' !! meth = Some app) /\
  (forall meth, meth ∉ Methods app ->
     appsByMethod m' !! meth = appsByMethod m !! meth) /\
  (forall tx m1, Method tx ∈ Methods app ->
     authenticate tx m' = (None, m1) ->
     (trace m' ++ authCalls m' ++ [CallExecuteTx (Name app) tx])
     `prefix_of` trace (processTx tx m').2).
Proof.
  unfold doRegister.
  destruct (appsByName m !! Name app) eqn:Hn; [discriminate|].
  destruct (if Blessed app then _ else _) as [blessed|e]; [|discriminate].
  destruct (registerMethods _ _ _) as [[e|] byMethod] eqn:Hreg; [discriminate|].
  intros [= <-]. apply registerMethods_ok in Hreg as (Hnd & Hin & Hout).
  split; [done|]. split; [done|]. split; [done|]. split; [exact Hin|].
  split; [exact Hout|].
  intros tx m1 Htx Hauth. unfold processTx. rewrite Hauth.
  apply authenticate_spec in Hauth as [((_ & Hmeth & _) & _) Ht].
  rewrite Hmeth. simpl. rewrite (proj2 (Hin _ Htx)).
  simpl in Ht. rewrite app_assoc, <- Ht.
  destruct (ExecuteTx app tx (world m1)) as [[err|] w]; simpl; [done|].
  etrans; [|apply trace_foreignExecute]. done.
Qed.

Lemma doRegister_routes_witness :
  appsByMethod (registerAll [stakingApp; registryApp] (newMux 0 false))
    !! "registry.RegisterNode"%string
  = Some registryApp.
Proof.
  refine (proj2 (proj1 (proj2 (proj2 (proj2
            (doRegister_routes registryApp
               (registerAll [stakingApp] (newMux 0 false))
               (registerAll [stakingApp; registryApp] (newMux 0 false)) _))))
            "registry.RegisterNode"%string _)).
  - vm_compute. reflexivity.
  - simpl. by left.
Defined.

(** X13: a registration that fails because one of the application's
    methods is taken is not undone: the application stays recorded under
    its name, so that registering it again fails as well, it is the
    blessed application if it asked to be, and the methods listed before
    the taken one are routed to it; but it is not added to the dispatch
    order, which is as before. *)
Theorem doRegister_method_conflict (app : Application) (m m' : abciMux)
    (meth : string) :
  doRegister app m = (Some (ErrMethodRegistered meth), m') ->
  appsByName m !! Name app = None /\
  appsByName m' !! Name app = Some app /\
  appsByLexOrder m' = appsByLexOrder m /\
  (Blessed app = true -> appBlessed m' = Some app) /\
  (exists pre post, Methods app = pre ++ meth :: post /\
     forall x, x ∈ pre -> appsByMethod m' !! x = Some app) /\
  (lexOrdered m -> app ∉ appsByLexOrder m') /\
  doRegister app m' = (Some (ErrAlreadyRegistered (Name app)), m').
Proof.
  unfold doRegister at 1.
  destruct (appsByName m !! Name app) eqn:Hn; [discriminate|].
  destruct (Blessed app) eqn:Hb.
  - destruct (appBlessed m) eqn:Hbl; [discriminate|].
    destruct (registerMethods _ _ _) as [[e|] byMethod] eqn:Hreg; [|discriminate].
    intros [= -> <-].
    apply registerMethods_conflict in Hreg
      as (meth' & pre & post & [= <-] & Hmeths & _ & Hin & _).
    simpl. split; [done|]. split; [apply lookup_insert_eq|]. split; [done|].
    split; [done|]. split; [by exists pre, post|]. split.
    + intros (Hok & _ & _ & Hmem) Hc. apply Hmem in Hc as [n Hc].
      pose proof (Hok _ _ Hc) as <-. congruence.
    + unfold doRegister. simpl. by rewrite lookup_insert_eq.
  - destruct (registerMethods _ _ _) as [[e|] byMethod] eqn:Hreg; [|discriminate].
    intros [= -> <-].
    apply registerMethods_conflict in Hreg
      as (meth' & pre & post & [= <-] & Hmeths & _ & Hin & _).
    simpl. split; [done|]. split; [apply lookup_insert_eq|]. split; [done|].
    split; [done|]. split; [by exists pre, post|]. split.
    + intros (Hok & _ & _ & Hmem) Hc. apply Hmem in Hc as [n Hc].
      pose proof (Hok _ _ Hc) as <-. congruence.
    + unfold doRegister. simpl. by rewrite lookup_insert_eq.
Qed.

(** An application that claims a method of its own and the staking
    application's transfer method. *)
Lemma doRegister_method_conflict_witness :
  appsByName
    (doRegister (testApp "beacon" ["beacon.Reveal"; "staking.Transfer"] (fun _ => idle))
       (testMux 0 false)).2 !! "beacon"%string
  = Some (testApp "beacon" ["beacon.Reveal"; "staking.Transfer"] (fun _ => idle)).
Proof.
  refine (proj1 (proj2 (doRegister_method_conflict
            (testApp "beacon" ["beacon.Reveal"; "staking.Transfer"] (fun _ => idle))
            (testMux 0 false) _ "staking.Transfer" _))).
  vm_compute. reflexivity.
Defined.

Lemma blessedOk_newMux height halted : blessedOk (newMux height halted).
Proof.
  split; simpl.
  - intros n a. by rewrite lookup_empty.
  - done.
Qed.

Lemma doRegister_blessedOk (app : Application) (m : abciMux) :
  blessedOk m -> blessedOk (doRegister app m).2.
Proof.
  intros Hm. pose proof Hm as [Hone Hbl]. unfold doRegister.
  destruct (appsByName m !! Name app) eqn:Hn; [done|].
  assert (Hkeep : forall b, appsByName m !! Name b = Some b ->
                    <[Name app := app]> (appsByName m) !! Name b = Some b).
  { intros b Hb. rewrite lookup_insert_ne; [done|]. congruence. }
  destruct (Blessed app) eqn:Hb.
  - destruct (appBlessed m) as [b|] eqn:Hab; [done|].
    assert (Hnew : forall byMethod byLex,
               blessedOk (setApps (<[Name app := app]> (appsByName m))
                            byMethod byLex (Some app) m)).
    { intros byMethod byLex. split; simpl.
      - intros n a. rewrite lookup_insert. case_decide.
        + by intros [= <-].
        + intros Ha Hba. specialize (Hone _ _ Ha Hba). congruence.
      - intros b [= <-]. split; [done|]. apply lookup_insert_eq. }
    destruct (registerMethods _ _ _) as [[e|] byMethod]; apply Hnew.
  - assert (Hnew : forall byMethod byLex,
               blessedOk (setApps (<[Name app := app]> (appsByName m))
                            byMethod byLex (appBlessed m) m)).
    { intros byMethod byLex. split; simpl.
      - intros n a. rewrite lookup_insert. case_decide.
        + intros [= <-]. congruence.
        + apply Hone.
      - intros b Hab. destruct (Hbl _ Hab) as [? Hin].
        split; [done|]. by apply Hkeep. }
    destruct (registerMethods _ _ _) as [[e|] byMethod]; apply Hnew.
Qed.

Lemma blessedOk_registerAll apps :
  forall m, blessedOk m -> blessedOk (registerAll apps m).
Proof.
  induction apps as [|a rest IH]; intros m Hm; simpl; [done|].
  apply IH. by apply doRegister_blessedOk.
Qed.

(** X14: registration keeps the invariant that at most one registered
    application is blessed and that [appBlessed] is this application,
    whether it succeeds or fails; and the registration of a blessed
    application fails and changes nothing while another one is blessed. *)
Theorem doRegister_one_blessed (app : Application) (m : abciMux) :
  blessedOk m ->
  blessedOk (doRegister app m).2 /\
  (forall a b na nb, Blessed a = true -> Blessed b = true ->
     appsByName (doRegister app m).2 !! na = Some a ->
     appsByName (doRegister app m).2 !! nb = Some b -> a = b) /\
  (Blessed app = true -> is_Some (appBlessed m) ->
   exists e, doRegister app m = (Some e, m)).
Proof.
  intros Hm. pose proof (doRegister_blessedOk app m Hm) as Hm'.
  split; [done|]. split.
  - intros a b na nb Ha Hb Hina Hinb. destruct Hm' as [Hone _].
    pose proof (Hone _ _ Hina Ha) as E1.
    pose proof (Hone _ _ Hinb Hb) as E2. congruence.
  - intros Hb [b Hab]. unfold doRegister.
    destruct (appsByName m !! Name app); [by eexists|].
    rewrite Hb, Hab. by eexists.
Qed.

Lemma doRegister_one_blessed_witness :
  blessedOk (doRegister validatorApp
               (registerAll [stakingApp] (newMux 3 false))).2.
Proof.
  apply (proj1 (doRegister_one_blessed validatorApp
                  (registerAll [stakingApp] (newMux 3 false))
                  (blessedOk_registerAll [stakingApp] _ (blessedOk_newMux 3 false)))).
Defined.

(** *** The blessed application and [EndBlock] *)

Section EndBlock.
Variable errorString : error -> string.
Variable fireTimers : Application -> World -> option error * World.

(** The response [endBlockApps] ends with is the one it started with, or
    the one a blessed application of the list returned. *)
Lemma endBlockApps_blessed req apps :
  forall resp0 m resp m',
  endBlockApps errorString req resp0 apps m = (Return resp, m') ->
  (resp = resp0 /\ forall a, a ∈ apps -> Blessed a = false) \/
  (exists a w w', a ∈ apps /\ Blessed a = true /\
     AppEndBlock a req w = ((resp, None), w')).
Proof.
  induction apps as [|app rest IH]; intros resp0 m resp m'; simpl.
  - intros [= <- <-]. left. split; [done|].
    intros a Ha. by apply elem_of_nil in Ha.
  - destruct (AppEndBlock app req (world m)) as [[newResp [err|]] w] eqn:Hrun;
      [discriminate|].
    intros H. apply IH in H as [[-> Hnone] | (a & w1 & w2 & Ha & Hb & Hr)].
    + destruct (Blessed app) eqn:Hb.
      * right. exists app, (world m), w. split; [by left|]. done.
      * left. split; [done|]. intros a Ha.
        apply elem_of_cons in Ha as [-> | Ha]; [done | by apply Hnone].
    + right. exists a, w1, w2. split; [by right|]. done.
Qed.

(** X15: an [EndBlock] that returns outside halt mode reports the
    validator updates that the blessed application's [EndBlock] returned,
    none if no application is blessed, and the events of the context. *)
Theorem EndBlock_validator_updates (req : RequestEndBlock) (m m' : abciMux)
    (resp : ResponseEndBlock) :
  haltMode m = false -> lexOrdered m -> blessedOk m ->
  EndBlock errorString fireTimers req m = (Return resp, m') ->
  match appBlessed m with
  | Some b =>
      exists w r w', AppEndBlock b req w = ((r, None), w') /\
        ValidatorUpdates resp = ValidatorUpdates r
  | None => ValidatorUpdates resp = []
  end /\
  ebEvents resp = ctxEvents (world m') /\
  blockCtx (world m') = None.
Proof.
  intros Hh (Hok & _ & _ & Hmem) [Hone Hbl]. unfold EndBlock. rewrite Hh.
  destruct (dispatch _ _ _ _ _ _) as [[[]|msg] m1] eqn:Hd; [|discriminate].
  apply dispatch_spec in Hd as [((_ & _ & Hlex & _) & _) _]. simpl in Hlex.
  destruct (endBlockApps _ _ _ _ _) as [[resp1|msg] m2] eqn:He; [|discriminate].
  intros [= <- <-]. simpl. split; [|done].
  rewrite Hlex in He. apply endBlockApps_blessed in He.
  destruct (appBlessed m) as [b|] eqn:Hab.
  - destruct (Hbl _ eq_refl) as [Hb Hin].
    destruct He as [[_ Hnone] | (a & w & w' & Ha & Hba & Hr)].
    + assert (b ∈ appsByLexOrder m) as Hb' by (apply Hmem; by eexists).
      specialize (Hnone _ Hb'). congruence.
    + apply Hmem in Ha as [n Ha]. pose proof (Hone _ _ Ha Hba) as [= ->].
      by exists w, resp1, w'.
  - destruct He as [[-> _] | (a & w & w' & Ha & Hba & Hr)]; [done|].
    apply Hmem in Ha as [n Ha]. pose proof (Hone _ _ Ha Hba). congruence.
Qed.

End EndBlock.

Lemma lexOrdered_registerAll app apps height halted :
  (doRegister app (registerAll apps (newMux height halted))).1 = None ->
  lexOrdered (doRegister app (registerAll apps (newMux height halted))).2.
Proof.
  intros H.
  apply (doRegister_lexOrdered app (registerAll apps (newMux height halted))).
  - apply registerAll_namesOk, newMux_namesOk.
  - destruct (doRegister _ _) as [[e|] m']; [discriminate | done].
Qed.

Lemma EndBlock_validator_updates_witness :
  exists w r w',
    AppEndBlock validatorApp (mkRequestEndBlock 4) w = ((r, None), w') /\
    ValidatorUpdates (mkResponseEndBlock [[7]] []) = ValidatorUpdates r.
Proof.
  refine (proj1 (EndBlock_validator_updates testErrorString (fun _ w => (None, w))
                   (mkRequestEndBlock 4) blessedMux
                   (EndBlock testErrorString (fun _ w => (None, w))
                      (mkRequestEndBlock 4) blessedMux).2
                   (mkResponseEndBlock [[7]] []) _ _ _ _)).
  - reflexivity.
  - change blessedMux
      with (doRegister registryApp
              (registerAll [stakingApp; validatorApp] (newMux 3 false))).2.
    apply lexOrdered_registerAll. vm_compute. reflexivity.
  - apply blessedOk_registerAll, blessedOk_newMux.
  - vm_compute. reflexivity.
Defined.

(** *** Subscriptions *)

(** X16: watching a transaction hash that nobody watches succeeds and
    records the subscription; while it is recorded a second watch of the
    hash fails and leaves the first in place; [Close] removes it, a second
    [Close] does nothing, and the hash can then be watched again. *)
Theorem watch_close_round_trip (h : Hash) (c : nat) (m : abciMux) :
  invalidatedTxs m !! h = None ->
  let m1 := (watchInvalidatedTx h c m).2 in
  let s1 := (subscriptionClose (newSubscription h) m1).1 in
  let m2 := (subscriptionClose (newSubscription h) m1).2 in
  (watchInvalidatedTx h c m).1 = Ok c /\
  invalidatedTxs m1 !! h = Some c /\
  (forall c2, (watchInvalidatedTx h c2 m1).1 = Err ErrTransactionExists /\
              invalidatedTxs (watchInvalidatedTx h c2 m1).2 = invalidatedTxs m1) /\
  invalidatedTxs m2 = invalidatedTxs m /\
  subscriptionClose s1 m2 = (s1, m2) /\
  (forall c3, (watchInvalidatedTx h c3 m2).1 = Ok c3).
Proof.
  intros Hnone. unfold watchInvalidatedTx. rewrite Hnone. simpl.
  split; [done|]. split; [apply lookup_insert_eq|]. split.
  - intros c2. by rewrite lookup_insert_eq.
  - split; [by rewrite delete_insert_id|]. split; [done|].
    intros c3. by rewrite lookup_delete_eq.
Qed.

Lemma watch_close_round_trip_witness :
  (watchInvalidatedTx [2; 0] 0%nat (testMux 41 false)).1 = Ok 0%nat.
Proof.
  apply (proj1 (watch_close_round_trip [2; 0] 0%nat (testMux 41 false) eq_refl)).
Defined.

Section Recheck.
Variable openTransaction : Bytes -> res (Transaction * PublicKey).
Variable hashFromBytes : Bytes -> Hash.
Variable errorCode : error -> string * Z.
Variable errorString : error -> string.

Lemma CheckTx_failed_recheck (m : abciMux) (req : RequestCheckTx) (err : error)
    (mE : abciMux) :
  ctType req = CheckTxType_Recheck ->
  executeTx openTransaction (ctTx req)
    (setWorld (NewContext ContextCheckTx (currentTime m) (world m)) m)
  = (Some err, mE) ->
  invalidatedTxs (CheckTx openTransaction hashFromBytes errorCode errorString req m).2
  = delete (hashFromBytes (ctTx req)) (invalidatedTxs m) /\
  forall c, c ∉ (map_to_list (invalidatedTxs m)).*2 ->
    chans (CheckTx openTransaction hashFromBytes errorCode errorString req m).2 !! c
    = chans m !! c.
Proof.
  intros Hty Hexec. unfold CheckTx. rewrite Hexec, Hty.
  destruct (errorCode err) as [module code]. simpl.
  apply executeTx_unchanged in Hexec as (_ & _ & Hsubs & Hchans).
  simpl in Hsubs, Hchans. unfold notifyInvalidated. rewrite Hsubs.
  destruct (invalidatedTxs m !! hashFromBytes (ctTx req)) as [c0|] eqn:Hc0; simpl.
  - split; [done|]. intros c Hc. rewrite Hchans.
    apply lookup_alter_ne. intros E. subst c. apply Hc.
    apply list_elem_of_fmap. exists (hashFromBytes (ctTx req), c0).
    split; [done|]. by apply elem_of_map_to_list.
  - rewrite Hsubs. split; [by rewrite delete_id|].
    intros c _. by rewrite Hchans.
Qed.

(** X17: [Close] removes whatever is recorded under the subscription's
    hash.  When a failed re-check has notified a subscriber and removed its
    subscription, and a second subscriber then watches the same hash, the
    first subscriber's [Close] removes the second subscription: a later
    notification for the hash reaches nobody, and the second channel is
    left open without an error. *)
Theorem close_after_notification (m : abciMux) (req : RequestCheckTx)
    (err : error) (mE : abciMux) (c1 c2 : nat) :
  let h := hashFromBytes (ctTx req) in
  let m1 := (watchInvalidatedTx h c1 m).2 in
  let m2 := (CheckTx openTransaction hashFromBytes errorCode errorString req m1).2 in
  let m3 := (watchInvalidatedTx h c2 m2).2 in
  let m4 := (subscriptionClose (newSubscription h) m3).2 in
  ctType req = CheckTxType_Recheck ->
  invalidatedTxs m !! h = None ->
  executeTx openTransaction (ctTx req)
    (setWorld (NewContext ContextCheckTx (currentTime m1) (world m1)) m1)
  = (Some err, mE) ->
  (watchInvalidatedTx h c2 m2).1 = Ok c2 /\
  invalidatedTxs m3 !! h = Some c2 /\
  invalidatedTxs m4 !! h = None /\
  chans m4 !! c2 = Some (mkChan false [] false) /\
  (forall err2, notifyInvalidated h err2 m4 = m4).
Proof.
  intros h m1 m2 m3 m4 Hty Hnone Hexec.
  destruct (CheckTx_failed_recheck m1 req err mE Hty Hexec) as [Hsubs _].
  fold m2 h in Hsubs.
  assert (H2 : invalidatedTxs m2 !! h = None).
  { rewrite Hsubs. apply lookup_delete_eq. }
  assert (H3 : watchInvalidatedTx h c2 m2
               = (Ok c2, setSubscriptions (<[h := c2]> (invalidatedTxs m2))
                           (<[c2 := mkChan false [] false]> (chans m2)) m2)).
  { unfold watchInvalidatedTx. by rewrite H2. }
  unfold m4, m3. rewrite H3. simpl.
  split; [done|]. split; [apply lookup_insert_eq|].
  split; [apply lookup_delete_eq|]. split; [apply lookup_insert_eq|].
  intros err2. unfold notifyInvalidated. simpl. by rewrite lookup_delete_eq.
Qed.

End Recheck.

Lemma close_after_notification_witness :
  invalidatedTxs
    (subscriptionClose (newSubscription [2; 0])
       (watchInvalidatedTx [2; 0] 1%nat
          (CheckTx testOpen (fun x => x) testErrorCode testErrorString recheck
             watched).2).2).2 !! [2; 0]
  = None.
Proof.
  refine (proj1 (proj2 (proj2
            (close_after_notification testOpen (fun x => x) testErrorCode
               testErrorString (testMux 41 false) recheck
               (ErrOther "invalid nonce")
               (executeTx testOpen (ctTx recheck)
                  (setWorld (NewContext ContextCheckTx 0 (world watched))
                     watched)).2
               0%nat 1%nat _ _ _)))).
  - reflexivity.
  - reflexivity.
  - vm_compute. reflexivity.
Defined.

(** *** The block clock and the first block *)

Section Blocks.
Variable parseGenesisAppState : RequestInitChain -> res GenesisDocument.
Variable genesisDigest : RequestInitChain -> Bytes.
Variable marshalRequest : RequestInitChain -> Bytes.
Variable marshalEvents : list Event -> Bytes.
Variable unmarshalEvents : Bytes -> list Event.
Variable errorString : error -> string.

(** What the handlers of a dispatch loop leave alone: the multiplexer's
    block clock, and a key of the deliver tree that no handler writes. *)
Lemma dispatch_clock call run what apps :
  forall m,
  lastBeginBlock (dispatch errorString call run what apps m).2 = lastBeginBlock m.
Proof.
  induction apps as [|app rest IH]; intros m; simpl; [done|].
  destruct (run app (world m)) as [[err|] w]; simpl; [done|].
  by rewrite IH.
Qed.

Lemma runHaltHooks_clock hooks height epoch :
  forall i m,
  lastBeginBlock (runHaltHooks i hooks height epoch m) = lastBeginBlock m.
Proof.
  induction hooks as [|hook rest IH]; intros i m; simpl; [done|].
  by rewrite IH.
Qed.

Lemma runGenesisHooks_clock hooks :
  forall i m, lastBeginBlock (runGenesisHooks i hooks m) = lastBeginBlock m.
Proof.
  induction hooks as [|hook rest IH]; intros i m; simpl; [done|].
  by rewrite IH.
Qed.

Lemma inHaltEpoch_clock m b m' :
  inHaltEpoch m = (b, m') ->
  lastBeginBlock m' = lastBeginBlock m /\ blockHeight m' = blockHeight m.
Proof.
  unfold inHaltEpoch. destruct (GetEpoch m _); by intros [= _ <-].
Qed.

Lemma BeginBlock_clock (req : RequestBeginBlock) (m : abciMux) :
  lastBeginBlock m <> blockHeight m ->
  lastBeginBlock (BeginBlock unmarshalEvents errorString req m).2 = blockHeight m /\
  blockHeight (BeginBlock unmarshalEvents errorString req m).2 = blockHeight m.
Proof.
  intros Hne. unfold BeginBlock. rewrite decide_False by done. simpl.
  destruct (haltMode m).
  { destruct (negb _); done. }
  match goal with |- context [inHaltEpoch ?x] =>
    destruct (inHaltEpoch x) as [[] m1] eqn:Hi;
    apply inHaltEpoch_clock in Hi as [Hl1 Hb1]; simpl in Hl1, Hb1
  end; cbn [snd].
  - match goal with |- context [runHaltHooks 0 ?h ?a ?b ?x] =>
      destruct (runHaltHooks_spec h a b 0 x)
        as [((_ & _ & _ & _ & _ & _ & _ & Hbh' & _) & _) _] end.
    rewrite runHaltHooks_clock. split; congruence.
  - unfold beginBlockApps.
    pose proof (dispatch_clock CallBeginBlock (fun app => AppBeginBlock app req)
                  "mux: BeginBlock" (appsByLexOrder m1) m1) as Hc.
    destruct (dispatch _ _ _ _ _ _) as [[[]|msg] m2] eqn:Hd; simpl in Hc;
      apply dispatch_spec in Hd as [((_ & _ & _ & _ & _ & _ & _ & Hbh2 & _) & _) _].
    + case_decide; [destruct (deliverTxTree (world m2) !! _)|]; simpl;
        split; congruence.
    + simpl. split; congruence.
Qed.

(** X18: [BeginBlock] does not run twice for one block height: after a
    [BeginBlock], whatever its outcome, another [BeginBlock] at the same
    height panics as redundant and changes nothing. *)
Theorem BeginBlock_redundant (req1 req2 : RequestBeginBlock) (m : abciMux) :
  lastBeginBlock m <> blockHeight m ->
  let m1 := (BeginBlock unmarshalEvents errorString req1 m).2 in
  blockHeight m1 = blockHeight m /\
  BeginBlock unmarshalEvents errorString req2 m1
  = (Panic "mux: redundant BeginBlock", m1).
Proof.
  intros Hne m1. destruct (BeginBlock_clock req1 m Hne) as [Hl Hb].
  fold m1 in Hl, Hb. split; [done|].
  unfold BeginBlock at 1. rewrite decide_True by congruence. done.
Qed.

End Blocks.

Lemma BeginBlock_redundant_witness :
  BeginBlock (fun _ => []) testErrorString (mkRequestBeginBlock 1)
    (BeginBlock (fun _ => []) testErrorString (mkRequestBeginBlock 0)
       (testMux 3 false)).2
  = (Panic "mux: redundant BeginBlock",
     (BeginBlock (fun _ => []) testErrorString (mkRequestBeginBlock 0)
        (testMux 3 false)).2).
Proof.
  apply (proj2 (BeginBlock_redundant (fun _ => []) testErrorString
                  (mkRequestBeginBlock 0) (mkRequestBeginBlock 1)
                  (testMux 3 false) ltac:(vm_compute; discriminate))).
Defined.

(** *** Events of the genesis block *)

Section GenesisEvents.
Variable parseGenesisAppState : RequestInitChain -> res GenesisDocument.
Variable genesisDigest : RequestInitChain -> Bytes.
Variable marshalRequest : RequestInitChain -> Bytes.
Variable marshalEvents : list Event -> Bytes.
Variable unmarshalEvents : Bytes -> list Event.
Variable errorString : error -> string.

Lemma dispatch_key call run what (key : string) apps :
  (forall app w, app ∈ apps ->
     deliverTxTree (run app w).2 !! key = deliverTxTree w !! key) ->
  forall m,
  deliverTxTree (world (dispatch errorString call run what apps m).2) !! key
  = deliverTxTree (world m) !! key.
Proof.
  induction apps as [|app rest IH]; intros Hk m; simpl; [done|].
  pose proof (Hk app (world m) ltac:(by left)) as Hw.
  destruct (run app (world m)) as [[err|] w]; simpl in *; [done|].
  rewrite IH; [done|]. intros a w' Ha. apply Hk. by right.
Qed.

Lemma InitChain_stored req m r m1 :
  InitChain parseGenesisAppState genesisDigest marshalRequest marshalEvents
    errorString req m = (Return r, m1) ->
  deliverTxTree (world m1) !! stateKeyInitChainEvents
  = Some (marshalEvents (ctxEvents (world m1))) /\
  appsByLexOrder m1 = appsByLexOrder m /\
  blockHeight m1 = blockHeight m.
Proof.
  unfold InitChain.
  destruct (parseGenesisAppState req) as [st|]; [|discriminate].
  match goal with |- context [runGenesisHooks 0 ?h ?x] =>
    destruct (runGenesisHooks_spec h 0 x) as [Hu _];
    set (m0 := runGenesisHooks 0 h x) in * end.
  match goal with |- context [dispatch _ ?c ?f ?w ?apps ?x] =>
    destruct (dispatch errorString c f w apps x) as [[[]|msg] m2] eqn:Hd end;
    [|discriminate].
  apply dispatch_spec in Hd as [((_ & _ & Hlex & _ & _ & _ & _ & Hbh & _) & _) _].
  destruct Hu as ((_ & _ & Hlex0 & _ & _ & _ & _ & Hbh0 & _) & _).
  intros [= _ <-]. simpl in *.
  split; [by rewrite lookup_insert_eq|]. split; congruence.
Qed.

(** X19: the events the applications emit in [InitChain] are stored and
    come back in the response of the first [BeginBlock], ahead of the
    events of that [BeginBlock]; the stored copy is then removed.  This
    holds when the event coding round-trips and no [BeginBlock] handler
    touches the key of the store. *)
Theorem InitChain_events_first_block
    (req0 : RequestInitChain) (req : RequestBeginBlock)
    (m m1 m2 : abciMux) (r : ResponseInitChain) (resp : ResponseBeginBlock) :
  blockHeight m = 0 ->
  (forall app w, app ∈ appsByLexOrder m ->
     deliverTxTree (AppBeginBlock app req w).2 !! stateKeyInitChainEvents
     = deliverTxTree w !! stateKeyInitChainEvents) ->
  InitChain parseGenesisAppState genesisDigest marshalRequest marshalEvents
    errorString req0 m = (Return r, m1) ->
  unmarshalEvents (marshalEvents (ctxEvents (world m1))) = ctxEvents (world m1) ->
  BeginBlock unmarshalEvents errorString req m1 = (Return resp, m2) ->
  haltMode m2 = false ->
  bbEvents resp = ctxEvents (world m1) ++ ctxEvents (world m2) /\
  deliverTxTree (world m2) !! stateKeyInitChainEvents = None.
Proof.
  intros Hh Hk Hinit Hrt.
  apply InitChain_stored in Hinit as (Hst & Hlex & Hbh).
  unfold BeginBlock. case_decide; [discriminate|]. simpl.
  destruct (haltMode m1) eqn:Hhm.
  { destruct (negb _); [|discriminate]. intros [= _ <-]. simpl. congruence. }
  match goal with |- context [inHaltEpoch ?x] =>
    destruct (inHaltEpoch x) as [[] m3] eqn:Hi;
    apply inHaltEpoch_spec in Hi
      as ((_ & _ & Hlex3 & _ & _ & _ & _ & Hbh3 & _) & Hw3 & _ & _ & _ & Hb1 & _) end.
  { intros [= _ <-] Hf.
    match type of Hf with haltMode (runHaltHooks 0 ?h ?a ?b ?x) = _ =>
      destruct (runHaltHooks_spec h a b 0 x) as [(_ & Hhalt & _) _] end.
    rewrite Hhalt, Hb1 in Hf by done. discriminate. }
  simpl in Hlex3, Hbh3, Hw3.
  unfold beginBlockApps.
  pose proof (dispatch_key CallBeginBlock (fun app => AppBeginBlock app req)
                "mux: BeginBlock" stateKeyInitChainEvents (appsByLexOrder m3)) as Hd.
  rewrite Hlex3, Hlex in Hd. specialize (Hd Hk m3).
  rewrite Hlex3, Hlex.
  destruct (dispatch _ _ _ _ _ _) as [[[]|msg] m4] eqn:Hdisp; [|discriminate].
  apply dispatch_spec in Hdisp as [((_ & _ & _ & _ & _ & _ & _ & Hbh4 & _) & _) _].
  simpl in Hd. rewrite Hw3 in Hd. simpl in Hd. rewrite Hst in Hd.
  rewrite decide_True by congruence. rewrite Hd.
  intros [= <- <-] _. simpl. rewrite Hrt. split; [done|].
  by rewrite lookup_delete_eq.
Qed.

End GenesisEvents.

Lemma InitChain_events_first_block_witness :
  let init := InitChain (fun _ => Ok (mkGenesis 0 0 0)) (fun _ => []) (fun _ => [])
                (fun evs => [Z.of_nat (length evs)])
                testErrorString (mkRequestInitChain [] None) announcerMux in
  let begin := BeginBlock (fun b => replicate (Z.to_nat (default 0 (b !! 0%nat)))
                                      ("genesis"%string, [1]))
                 testErrorString (mkRequestBeginBlock 0) init.2 in
  bbEvents (match begin.1 with Return resp => resp | Panic _ => mkResponseBeginBlock [] end)
  = ctxEvents (world init.2) ++ ctxEvents (world begin.2) /\
  deliverTxTree (world begin.2) !! stateKeyInitChainEvents = None.
Proof.
  apply (InitChain_events_first_block
           (fun _ => Ok (mkGenesis 0 0 0)) (fun _ => []) (fun _ => [])
           (fun evs => [Z.of_nat (length evs)])
           (fun b => replicate (Z.to_nat (default 0 (b !! 0%nat)))
                       ("genesis"%string, [1]))
           testErrorString (mkRequestInitChain [] None) (mkRequestBeginBlock 0)
           announcerMux _ _ (mkResponseInitChain [] None) _).
  - vm_compute. reflexivity.
  - intros app w Ha.
    assert (E : appsByLexOrder announcerMux = [announcer])
      by (vm_compute; reflexivity).
    rewrite E in Ha. apply list_elem_of_singleton in Ha. subst app. reflexivity.
  - vm_compute. reflexivity.
  - vm_compute. reflexivity.
  - vm_compute. reflexivity.
  - vm_compute. reflexivity.
Defined.

(** *** An unknown epoch *)

Section UnknownEpoch.
Variable unmarshalEvents : Bytes -> list Event.
Variable errorString : error -> string.

(** X20: when the time source cannot tell the epoch of the next block,
    [BeginBlock] neither enters nor leaves halt mode and runs no halt hook:
    a halted multiplexer returns an empty response without calling any
    handler (it does not take the failure for the end of the halt epoch),
    and a running one dispatches to the applications as usual. *)
Theorem BeginBlock_epoch_unknown (req : RequestBeginBlock) (m : abciMux)
    (e : error) :
  GetEpoch m (toInt64 (blockHeight m + 1)) = Err e ->
  lastBeginBlock m <> blockHeight m ->
  let r := BeginBlock unmarshalEvents errorString req m in
  haltMode r.2 = haltMode m /\
  (haltMode m = true ->
     r.1 = Return (mkResponseBeginBlock []) /\ trace r.2 = trace m) /\
  (haltMode m = false ->
     forall resp, r.1 = Return resp ->
       trace r.2 = trace m ++ lifecycleCalls CallBeginBlock (appsByLexOrder m)).
Proof.
  intros He Hne r. subst r. unfold BeginBlock. rewrite decide_False by done.
  simpl. unfold afterHaltEpoch, inHaltEpoch. simpl. rewrite He. simpl.
  destruct (haltMode m) eqn:Hh; simpl.
  { split; [done|]. split; [done|]. discriminate. }
  match goal with |- context [beginBlockApps _ _ _ ?x] =>
    destruct (beginBlockApps unmarshalEvents errorString req x) as [r m'] eqn:Hb
  end.
  simpl. split; [|split; [discriminate|]].
  - unfold beginBlockApps in Hb.
    destruct (dispatch _ _ _ _ _ _) as [[[]|msg] m2] eqn:Hd;
      apply dispatch_spec in Hd as [(_ & Hhm & _) _]; simpl in Hhm.
    + case_decide; [destruct (deliverTxTree (world m2) !! _)|];
        injection Hb as _ <-; simpl; congruence.
    + injection Hb as _ <-. congruence.
  - intros _ resp ->. by apply beginBlockApps_trace in Hb.
Qed.

End UnknownEpoch.

(** A halted multiplexer whose time source has failed. *)
Lemma BeginBlock_epoch_unknown_witness :
  let m := mkMux ∅ ∅ [] None (-1) 0 0 0 [] [fun _ _ w => w] ∅ 7 true 5 None
             (fun _ => Err (ErrOther "epochtime: not available")) emptyWorld ∅ [] in
  let r := BeginBlock (fun _ => []) testErrorString (mkRequestBeginBlock 0) m in
  r.1 = Return (mkResponseBeginBlock []) /\ trace r.2 = trace m.
Proof.
  intros m r.
  apply (proj1 (proj2 (BeginBlock_epoch_unknown (fun _ => []) testErrorString
                         (mkRequestBeginBlock 0) m
                         (ErrOther "epochtime: not available")
                         ltac:(reflexivity) ltac:(vm_compute; discriminate)))).
  reflexivity.
Defined.

(** *** Dependencies *)

Lemma missingDependencies_elem (m : abciMux) (dep neededFor : string) :
  (dep, neededFor) ∈ missingDependencies m <->
  exists app, appsByName m !! neededFor = Some app /\
              dep ∈ Dependencies app /\ appsByName m !! dep = None.
Proof.
  unfold missingDependencies. rewrite list_elem_of_bind. split.
  - intros ([n app] & Hin & Hp). simpl in Hin.
    apply list_elem_of_bind in Hin as (d & Hin & Hd).
    case_decide as Hnone; [|by apply elem_of_nil in Hin].
    apply list_elem_of_singleton in Hin as [= -> ->].
    exists app. by apply elem_of_map_to_list in Hp.
  - intros (app & Happ & Hd & Hnone). exists (neededFor, app).
    split; [|by apply elem_of_map_to_list]. simpl.
    apply list_elem_of_bind. exists dep. split; [|done].
    rewrite decide_True by done. by apply list_elem_of_singleton.
Qed.

(** X21: [checkDependencies] succeeds exactly when every dependency of
    every registered application is itself registered; when it fails, the
    error lists exactly the pairs of a missing dependency and an application
    that needs it. *)
Theorem checkDependencies_complete (m : abciMux) :
  (checkDependencies m = None <->
   forall neededFor app dep,
     appsByName m !! neededFor = Some app -> dep ∈ Dependencies app ->
     is_Some (appsByName m !! dep)) /\
  (forall missingDeps, checkDependencies m = Some missingDeps ->
     missingDeps <> [] /\
     forall dep neededFor,
       (dep, neededFor) ∈ missingDeps <->
       exists app, appsByName m !! neededFor = Some app /\
                   dep ∈ Dependencies app /\ appsByName m !! dep = None).
Proof.
  unfold checkDependencies. split.
  - split.
    + intros Hnone neededFor app dep Happ Hdep.
      destruct (appsByName m !! dep) eqn:Hd; [by eexists|].
      assert (Hin : (dep, neededFor) ∈ missingDependencies m)
        by (apply missingDependencies_elem; by exists app).
      destruct (missingDependencies m); [|discriminate].
      by apply elem_of_nil in Hin.
    + intros Hall. destruct (missingDependencies m) as [|[dep neededFor] l] eqn:Hm;
        [done|].
      assert (Hin : (dep, neededFor) ∈ missingDependencies m)
        by (rewrite Hm; by left).
      apply missingDependencies_elem in Hin as (app & Happ & Hdep & Hnone).
      destruct (Hall _ _ _ Happ Hdep) as [a Ha]. congruence.
  - intros missingDeps.
    destruct (missingDependencies m) as [|p l] eqn:Hm; [discriminate|].
    intros [= <-]. split; [done|]. intros dep neededFor.
    rewrite <- Hm. apply missingDependencies_elem.
Qed.

End MuxSpec.

Module KeyManagerSpec.
Import KeyManager.
Local Open Scope Z_scope.

Section App.
Variable RoleKeyManager : Z.
Variable sha3Sum256 : Bytes -> Bytes.
Variable marshalPolicy : Bytes -> Bytes.
Variable marshalStatus : Status -> Bytes.
Variable unmarshalStatus : Bytes -> option Status.
Variable VerifyExtraInfo : Runtime -> NodeRuntime -> Z -> option InitResponse.
Variable SortNodeList : list Node -> list Node.

Local Abbreviation generateStatus :=
  (generateStatus RoleKeyManager sha3Sum256 marshalPolicy VerifyExtraInfo).
Local Abbreviation candidates :=
  (candidates RoleKeyManager sha3Sum256 marshalPolicy VerifyExtraInfo).
Local Abbreviation recomputed :=
  (recomputed RoleKeyManager sha3Sum256 marshalPolicy unmarshalStatus VerifyExtraInfo).
Local Abbreviation changed :=
  (changed RoleKeyManager sha3Sum256 marshalPolicy marshalStatus unmarshalStatus
     VerifyExtraInfo).
Local Abbreviation expectedEmit :=
  (expectedEmit RoleKeyManager sha3Sum256 marshalPolicy marshalStatus
     unmarshalStatus VerifyExtraInfo).
Local Abbreviation recomputeStatuses :=
  (recomputeStatuses RoleKeyManager sha3Sum256 marshalPolicy marshalStatus
     unmarshalStatus VerifyExtraInfo).
Local Abbreviation onEpochChange :=
  (onEpochChange RoleKeyManager sha3Sum256 marshalPolicy marshalStatus
     unmarshalStatus VerifyExtraInfo SortNodeList).

Lemma generateStatus_candidates now kmrt old nodes :
  generateStatus now kmrt old nodes =
  foldl accept
    (mkStatus (rtID kmrt) (IsInitialized old) (IsSecure old) (Checksum old) []
       (Policy old))
    (candidates now kmrt (Policy old) nodes).
Proof.
  unfold KeyManager.generateStatus, KeyManager.candidates. simpl.
  generalize (mkStatus (rtID kmrt) (IsInitialized old) (IsSecure old)
                (Checksum old) [] (Policy old)).
  induction nodes as [|n rest IH]; intros status; simpl; [done|].
  destruct (verifiedResponse _ _ _ _ _ _ _) as [ir|]; simpl; [|apply IH].
  rewrite IH. done.
Qed.

Lemma accept_initialized id sec cs nodes policy cands :
  foldl accept (mkStatus id true sec cs nodes policy) cands
  = mkStatus id true sec cs (nodes ++ agreeing sec cs cands) policy.
Proof.
  revert nodes. induction cands as [|[n ir] rest IH]; intros nodes; simpl.
  - by rewrite app_nil_r.
  - unfold accept at 2, acceptNode, agrees. simpl.
    destruct (decide (irIsSecure ir = sec)) as [Hs|Hs].
    + rewrite (bool_decide_false (irIsSecure ir <> sec)) by (intros H; by apply H).
      rewrite (bool_decide_true (irIsSecure ir = sec)) by done.
      destruct (decide (irChecksum ir = cs)) as [Hc|Hc].
      * rewrite (bool_decide_false (irChecksum ir <> cs)) by (intros H; by apply H).
        rewrite (bool_decide_true (irChecksum ir = cs)) by done. simpl.
        unfold appendNode. simpl. rewrite IH. by rewrite <- app_assoc.
      * rewrite (bool_decide_true (irChecksum ir <> cs)) by done.
        rewrite (bool_decide_false (irChecksum ir = cs)) by done. simpl.
        apply IH.
    + rewrite (bool_decide_true (irIsSecure ir <> sec)) by done.
      rewrite (bool_decide_false (irIsSecure ir = sec)) by done. simpl.
      apply IH.
Qed.

Lemma accept_uninitialized_skip id sec cs nodes policy (c : PublicKey * InitResponse) :
  mayInitialize sec c.2 = false ->
  accept (mkStatus id false sec cs nodes policy) c
  = mkStatus id false sec cs nodes policy.
Proof.
  unfold mayInitialize, accept, acceptNode. simpl.
  destruct sec, (irIsSecure c.2); simpl; try done.
Qed.

Lemma accept_uninitialized_take id sec cs nodes policy (c : PublicKey * InitResponse) :
  mayInitialize sec c.2 = true ->
  accept (mkStatus id false sec cs nodes policy) c
  = mkStatus id true (irIsSecure c.2) (irChecksum c.2) (nodes ++ [c.1]) policy.
Proof.
  unfold mayInitialize, accept, acceptNode. simpl.
  destruct sec, (irIsSecure c.2); simpl; try done.
Qed.

Lemma generateStatus_stID now kmrt old nodes :
  stID (generateStatus now kmrt old nodes) = rtID kmrt.
Proof.
  unfold KeyManager.generateStatus.
  match goal with |- stID (foldl ?f ?s nodes) = _ =>
    assert (H : forall l st, stID (foldl f st l) = stID st) end.
  { induction l as [|n l IH]; intros st; simpl; [done|].
    rewrite IH. destruct (verifiedResponse _ _ _ _ _ _ _); [|done].
    unfold acceptNode, appendNode.
    repeat (case_match; simpl; try done). }
  by rewrite H.
Qed.

Lemma previousStatus_insert tree id raw rt :
  rtID rt <> id ->
  previousStatus unmarshalStatus (<[id := raw]> tree) rt
  = previousStatus unmarshalStatus tree rt.
Proof.
  intros Hne. unfold previousStatus. by rewrite lookup_insert_ne.
Qed.

Lemma expectedEmit_insert now nodes tree id raw runtimes :
  id ∉ keyManagerIds runtimes ->
  expectedEmit now nodes (<[id := raw]> tree) runtimes
  = expectedEmit now nodes tree runtimes.
Proof.
  induction runtimes as [|rt rest IH]; simpl; [done|].
  unfold keyManagerIds in *. simpl.
  destruct (bool_decide (Kind rt = KindKeyManager)) eqn:Hk; simpl.
  - intros Hnin. apply not_elem_of_cons in Hnin as [Hne Hnin].
    unfold KeyManager.changed, KeyManager.recomputed.
    rewrite previousStatus_insert by done.
    destruct (match previousStatus _ _ _ with Some _ => _ | None => _ end);
      simpl; [f_equal|]; by apply IH.
  - apply IH.
Qed.

Lemma recomputeStatuses_spec now nodes runtimes :
  forall tree toEmit tree' toEmit',
  NoDup (keyManagerIds runtimes) ->
  recomputeStatuses now nodes runtimes tree toEmit = (None, tree', toEmit') ->
  toEmit' = toEmit ++ expectedEmit now nodes tree runtimes /\
  (forall rt, rt ∈ runtimes -> Kind rt = KindKeyManager ->
     tree' !! rtID rt =
     if changed now nodes tree rt
     then Some (marshalStatus (recomputed now nodes tree rt))
     else tree !! rtID rt) /\
  (forall id, id ∉ keyManagerIds runtimes -> tree' !! id = tree !! id).
Proof.
  induction runtimes as [|rt rest IH]; intros tree toEmit tree' toEmit' Hnd; simpl.
  - intros [= <- <-]. rewrite app_nil_r. split; [done|]. split; [|done].
    intros rt Hin. by apply elem_of_nil in Hin.
  - unfold keyManagerIds in Hnd |- *. simpl in Hnd |- *.
    destruct (decide (Kind rt = KindKeyManager)) as [Hk|Hk].
    2:{ rewrite (bool_decide_true (Kind rt <> KindKeyManager)) by done.
        rewrite (bool_decide_false (Kind rt = KindKeyManager)) in Hnd |- * by done.
        simpl in *. intros H. destruct (IH _ _ _ _ Hnd H) as (He & Hs & Ho).
        split; [done|]. split; [|done].
        intros rt' Hin Hk'. apply elem_of_cons in Hin as [-> | Hin]; [done|].
        by apply Hs. }
    rewrite (bool_decide_false (Kind rt <> KindKeyManager)) by (intros H; by apply H).
    rewrite (bool_decide_true (Kind rt = KindKeyManager)) in Hnd |- * by done.
    simpl in Hnd |- *. apply NoDup_cons in Hnd as [Hnin Hnd].
    unfold stateStatus, KeyManager.changed, KeyManager.recomputed, previousStatus.
    destruct (tree !! rtID rt) as [raw|] eqn:Hraw; simpl.
    + destruct (unmarshalStatus raw) as [old|] eqn:Hold; simpl; [|discriminate].
      case_bool_decide as Hch; simpl.
      * intros H. destruct (IH _ _ _ _ Hnd H) as (He & Hs & Ho).
        unfold SetStatus in *. rewrite generateStatus_stID in *.
        rewrite expectedEmit_insert in He by done.
        split; [by rewrite He, <- app_assoc|]. split.
        -- intros rt' Hin Hk'. apply elem_of_cons in Hin as [-> | Hin].
           ++ rewrite Ho by done. rewrite lookup_insert_eq.
              unfold KeyManager.changed, KeyManager.recomputed, previousStatus.
              rewrite Hraw. simpl. rewrite Hold. simpl.
              by rewrite bool_decide_true by done.
           ++ assert (Hne : rtID rt' <> rtID rt).
              { intros Heq. apply Hnin. rewrite <- Heq.
                apply list_elem_of_omap. exists rt'. split; [done|].
                by rewrite bool_decide_true by done. }
              rewrite (Hs rt' Hin Hk').
              unfold KeyManager.changed, KeyManager.recomputed.
              rewrite previousStatus_insert by done.
              by rewrite lookup_insert_ne by done.
        -- intros id Hid. apply not_elem_of_cons in Hid as [Hne Hid].
           rewrite Ho by done. by rewrite lookup_insert_ne by done.
      * intros H. destruct (IH _ _ _ _ Hnd H) as (He & Hs & Ho).
        split; [done|]. split.
        -- intros rt' Hin Hk'. apply elem_of_cons in Hin as [-> | Hin].
           ++ rewrite Ho by done.
              unfold KeyManager.changed, KeyManager.recomputed, previousStatus.
              rewrite Hraw. simpl. rewrite Hold. simpl.
              by rewrite bool_decide_false by (intros Hc; by apply Hc).
           ++ by apply Hs.
        -- intros id Hid. apply not_elem_of_cons in Hid as [Hne Hid]. by apply Ho.
    + intros H. destruct (IH _ _ _ _ Hnd H) as (He & Hs & Ho).
      unfold SetStatus in *. rewrite generateStatus_stID in *.
      rewrite expectedEmit_insert in He by done.
      split; [by rewrite He, <- app_assoc|]. split.
      * intros rt' Hin Hk'. apply elem_of_cons in Hin as [-> | Hin].
        -- rewrite Ho by done. rewrite lookup_insert_eq.
           unfold KeyManager.changed, KeyManager.recomputed, previousStatus.
           by rewrite Hraw.
        -- assert (Hne : rtID rt' <> rtID rt).
           { intros Heq. apply Hnin. rewrite <- Heq.
             apply list_elem_of_omap. exists rt'. split; [done|].
             by rewrite bool_decide_true by done. }
           rewrite (Hs rt' Hin Hk').
           unfold KeyManager.changed, KeyManager.recomputed.
           rewrite previousStatus_insert by done.
           by rewrite lookup_insert_ne by done.
      * intros id Hid. apply not_elem_of_cons in Hid as [Hne Hid].
        rewrite Ho by done. by rewrite lookup_insert_ne by done.
Qed.

(** C9: recomputing an uninitialized status, the first candidate (a node
    passing the role, TEE hardware, extra info and policy checksum checks)
    that may initialize it fixes (is_secure, checksum), and of the
    candidates after it exactly those agreeing on both values join the
    node list; for an initialized status exactly the candidates agreeing
    with its values join the node list; and an [onEpochChange] that
    succeeds stores and emits the recomputed status of exactly those key
    manager runtimes whose status has changed or that had none before. *)
Theorem status_recomputation (now : Z) (kmrt : Runtime) (old : Status)
    (nodes : list Node) (ctx ctx' : Context) :
  NoDup (keyManagerIds (regRuntimes ctx)) ->
  onEpochChange ctx = (None, ctx') ->
  (IsInitialized old = false ->
   forall pre id ir post,
     candidates now kmrt (Policy old) nodes = pre ++ (id, ir) :: post ->
     Forall (fun c => mayInitialize (IsSecure old) c.2 = false) pre ->
     mayInitialize (IsSecure old) ir = true ->
     generateStatus now kmrt old nodes
     = mkStatus (rtID kmrt) true (irIsSecure ir) (irChecksum ir)
         (id :: agreeing (irIsSecure ir) (irChecksum ir) post) (Policy old)) /\
  (IsInitialized old = false ->
   Forall (fun c => mayInitialize (IsSecure old) c.2 = false)
     (candidates now kmrt (Policy old) nodes) ->
   generateStatus now kmrt old nodes
   = mkStatus (rtID kmrt) false (IsSecure old) (Checksum old) [] (Policy old)) /\
  (IsInitialized old = true ->
   generateStatus now kmrt old nodes
   = mkStatus (rtID kmrt) true (IsSecure old) (Checksum old)
       (agreeing (IsSecure old) (Checksum old)
          (candidates now kmrt (Policy old) nodes))
       (Policy old)) /\
  let sorted := SortNodeList (regNodes ctx) in
  let toEmit := expectedEmit (KeyManager.now ctx) sorted (kmTree ctx)
                  (regRuntimes ctx) in
  events ctx' = events ctx ++ (if decide (toEmit = []) then []
                               else [EvStatusUpdate toEmit]) /\
  forall rt, rt ∈ regRuntimes ctx -> Kind rt = KindKeyManager ->
    kmTree ctx' !! rtID rt =
    if changed (KeyManager.now ctx) sorted (kmTree ctx) rt
    then Some (marshalStatus (recomputed (KeyManager.now ctx) sorted (kmTree ctx) rt))
    else kmTree ctx !! rtID rt.
Proof.
  intros Hnd Hrun.
  assert (Hskip : forall l,
             Forall (fun c => mayInitialize (IsSecure old) c.2 = false) l ->
             foldl accept
               (mkStatus (rtID kmrt) false (IsSecure old) (Checksum old) []
                  (Policy old)) l
             = mkStatus (rtID kmrt) false (IsSecure old) (Checksum old) []
                 (Policy old)).
  { intros l Hl. induction Hl as [|c l Hc _ IH]; simpl; [done|].
    rewrite accept_uninitialized_skip by done. apply IH. }
  split; [|split; [|split]].
  - intros Hinit pre id ir post Hcands Hpre Hmay.
    rewrite generateStatus_candidates, Hcands, Hinit, foldl_app.
    rewrite Hskip by done. simpl.
    rewrite (accept_uninitialized_take _ _ _ _ _ (id, ir)) by done.
    simpl. by rewrite accept_initialized.
  - intros Hinit Hall. rewrite generateStatus_candidates, Hinit. by apply Hskip.
  - intros Hinit. rewrite generateStatus_candidates, Hinit.
    by rewrite accept_initialized.
  - unfold KeyManager.onEpochChange in Hrun.
    destruct (recomputeStatuses _ _ _ _ _) as [[[err|] tree] toEmit] eqn:Hrec;
      [discriminate|].
    apply recomputeStatuses_spec in Hrec as (He & Hs & _); [|done].
    simpl in He. injection Hrun as <-. simpl. split; [|exact Hs].
    rewrite <- He. destruct toEmit; simpl; [by rewrite app_nil_r | done].
Qed.

End App.

(** *** A run on the small registry

    The status is set secure in the genesis block: the insecure node 1 may
    not initialize it, node 2 fixes (secure, checksum 8) and node 3, which
    agrees, joins the node list. *)
Lemma status_recomputation_witness :
  generateStatus 4 (fun _ => []) (fun p => p) testVerify 0 kmRuntime
    genesisSecure kmNodes
  = mkStatus 9 true true [8] [2; 3] None.
Proof.
  refine (proj1 (status_recomputation 4 (fun _ => []) (fun p => p)
                   testMarshalStatus (fun _ => None) testVerify (fun l => l)
                   0 kmRuntime genesisSecure kmNodes kmContext
                   (onEpochChange 4 (fun _ => []) (fun p => p) testMarshalStatus
                      (fun _ => None) testVerify (fun l => l) kmContext).2
                   _ _)
            _ [(1, mkInitResponse false [7] [])] 2 (mkInitResponse true [8] [])
            [(3, mkInitResponse true [8] [])] _ _ _).
  - vm_compute. repeat constructor. apply not_elem_of_nil.
  - vm_compute. reflexivity.
  - reflexivity.
  - vm_compute. reflexivity.
  - repeat constructor.
  - reflexivity.
Defined.

(** ** What a recomputation keeps *)

Section Recompute.
Variable RoleKeyManager : Z.
Variable sha3Sum256 : Bytes -> Bytes.
Variable marshalPolicy : Bytes -> Bytes.
Variable marshalStatus : Status -> Bytes.
Variable unmarshalStatus : Bytes -> option Status.
Variable VerifyExtraInfo : Runtime -> NodeRuntime -> Z -> option InitResponse.
Variable SortNodeList : list Node -> list Node.

Local Abbreviation generateStatus :=
  (generateStatus RoleKeyManager sha3Sum256 marshalPolicy VerifyExtraInfo).
Local Abbreviation candidates :=
  (candidates RoleKeyManager sha3Sum256 marshalPolicy VerifyExtraInfo).
Local Abbreviation recomputed :=
  (recomputed RoleKeyManager sha3Sum256 marshalPolicy unmarshalStatus VerifyExtraInfo).
Local Abbreviation changed :=
  (changed RoleKeyManager sha3Sum256 marshalPolicy marshalStatus unmarshalStatus
     VerifyExtraInfo).
Local Abbreviation recomputeStatuses :=
  (recomputeStatuses RoleKeyManager sha3Sum256 marshalPolicy marshalStatus
     unmarshalStatus VerifyExtraInfo).
Local Abbreviation onEpochChange :=
  (onEpochChange RoleKeyManager sha3Sum256 marshalPolicy marshalStatus
     unmarshalStatus VerifyExtraInfo SortNodeList).

(** The candidates either all leave an uninitialized status alone, or
    there is a first one that initializes it. *)
Lemma first_initializer (sec : bool) (cands : list (PublicKey * InitResponse)) :
  Forall (fun c => mayInitialize sec c.2 = false) cands \/
  exists pre c post,
    cands = pre ++ c :: post /\
    Forall (fun c => mayInitialize sec c.2 = false) pre /\
    mayInitialize sec c.2 = true.
Proof.
  induction cands as [|c rest IH]; [by left|].
  destruct (mayInitialize sec c.2) eqn:Hc.
  - right. exists [], c, rest. by repeat split.
  - destruct IH as [IH | (pre & c' & post & -> & Hpre & Hc')].
    + left. by constructor.
    + right. exists (c :: pre), c', post. split; [done|]. split; [|done].
      by constructor.
Qed.

Lemma skip_all id sec cs policy (l : list (PublicKey * InitResponse)) :
  Forall (fun c => mayInitialize sec c.2 = false) l ->
  foldl accept (mkStatus id false sec cs [] policy) l
  = mkStatus id false sec cs [] policy.
Proof.
  intros Hl. induction Hl as [|c l Hc _ IH]; simpl; [done|].
  rewrite accept_uninitialized_skip by done. apply IH.
Qed.

Lemma agreeing_app sec cs (l1 l2 : list (PublicKey * InitResponse)) :
  agreeing sec cs (l1 ++ l2) = agreeing sec cs l1 ++ agreeing sec cs l2.
Proof. unfold agreeing. apply omap_app. Qed.

(** The candidates passed over before the first initializer do not agree
    with it. *)
Lemma agreeing_skipped sec (ir : InitResponse) (pre : list (PublicKey * InitResponse)) :
  Forall (fun c => mayInitialize sec c.2 = false) pre ->
  mayInitialize sec ir = true ->
  agreeing (irIsSecure ir) (irChecksum ir) pre = [].
Proof.
  intros Hpre Hir. induction Hpre as [|c l Hc _ IH]; simpl; [done|].
  rewrite IH. unfold agrees, mayInitialize in *.
  destruct sec, (irIsSecure ir), (irIsSecure c.2); simpl in *; try done.
Qed.

Lemma agreeing_self (c : PublicKey * InitResponse) :
  agrees (irIsSecure c.2) (irChecksum c.2) c.2 = true.
Proof. unfold agrees. by rewrite !bool_decide_true by done. Qed.

(** The three outcomes of [generateStatus], by the candidates. *)
Lemma generateStatus_cases now kmrt old nodes :
  let cands := candidates now kmrt (Policy old) nodes in
  let new := generateStatus now kmrt old nodes in
  (IsInitialized old = true /\
   new = mkStatus (rtID kmrt) true (IsSecure old) (Checksum old)
           (agreeing (IsSecure old) (Checksum old) cands) (Policy old)) \/
  (IsInitialized old = false /\
   new = mkStatus (rtID kmrt) false (IsSecure old) (Checksum old) [] (Policy old)) \/
  (IsInitialized old = false /\
   exists c, c ∈ cands /\ mayInitialize (IsSecure old) c.2 = true /\
     new = mkStatus (rtID kmrt) true (irIsSecure c.2) (irChecksum c.2)
             (agreeing (irIsSecure c.2) (irChecksum c.2) cands) (Policy old)).
Proof.
  intros cands new. subst new. rewrite generateStatus_candidates. fold cands.
  destruct (IsInitialized old) eqn:Hinit.
  { left. split; [done|]. by rewrite accept_initialized. }
  right.
  destruct (first_initializer (IsSecure old) cands)
    as [Hall | (pre & c & post & Hc & Hpre & Hmay)].
  { left. split; [done|]. by apply skip_all. }
  right. split; [done|]. exists c. split; [rewrite Hc; set_solver|].
  split; [done|].
  rewrite Hc, foldl_app, skip_all by done. simpl.
  rewrite accept_uninitialized_take by done. rewrite accept_initialized.
  rewrite agreeing_app, (agreeing_skipped _ _ _ Hpre Hmay). simpl.
  by rewrite agreeing_self.
Qed.

(** X22: what [generateStatus] keeps, whatever the nodes report.  The
    status keeps its policy and takes the id of the runtime; an initialized
    status stays initialized with the same security flag and checksum; a
    secure status is never turned insecure, initialized or not; and the node
    list of the result is empty if the result is uninitialized, and
    otherwise consists of exactly the candidates that agree with the
    security flag and checksum of the result. *)
Theorem generateStatus_invariants (now : Z) (kmrt : Runtime) (old : Status)
    (nodes : list Node) :
  let new := generateStatus now kmrt old nodes in
  stID new = rtID kmrt /\
  Policy new = Policy old /\
  (IsInitialized old = true ->
     IsInitialized new = true /\ IsSecure new = IsSecure old /\
     Checksum new = Checksum old) /\
  (IsSecure old = true -> IsSecure new = true) /\
  Nodes new =
    (if IsInitialized new
     then agreeing (IsSecure new) (Checksum new)
            (candidates now kmrt (Policy old) nodes)
     else []).
Proof.
  intros new.
  destruct (generateStatus_cases now kmrt old nodes)
    as [[Hi Hn] | [[Hi Hn] | [Hi (c & _ & Hmay & Hn)]]];
    fold new in Hn; rewrite Hn; simpl.
  - by repeat split.
  - repeat split; try done. congruence.
  - repeat split; try done; try congruence.
    intros Hs. rewrite Hs in Hmay. unfold mayInitialize in Hmay.
    by destruct (irIsSecure c.2).
Qed.

(** Recomputing a recomputed status gives it back. *)
Lemma generateStatus_idempotent now kmrt old nodes :
  generateStatus now kmrt (generateStatus now kmrt old nodes) nodes
  = generateStatus now kmrt old nodes.
Proof.
  destruct (generateStatus_cases now kmrt old nodes)
    as [[Hi Hn] | [[Hi Hn] | [Hi (c & _ & Hmay & Hn)]]].
  - rewrite !Hn. rewrite generateStatus_candidates. simpl.
    by rewrite accept_initialized.
  - pose proof Hn as Hf. rewrite generateStatus_candidates, Hi in Hf.
    rewrite !Hn. rewrite generateStatus_candidates. simpl. exact Hf.
  - rewrite !Hn. rewrite generateStatus_candidates. simpl.
    by rewrite accept_initialized.
Qed.

(** A tree in which the status of every key manager runtime is stored,
    decodes and is what a recomputation gives: nothing is stored, nothing
    is queued. *)
Lemma recomputeStatuses_fixed now nodes runtimes tree toEmit :
  (forall rt, rt ∈ runtimes -> Kind rt = KindKeyManager ->
     exists s, previousStatus unmarshalStatus tree rt = Some s /\
               marshalStatus s = marshalStatus (generateStatus now rt s nodes)) ->
  recomputeStatuses now nodes runtimes tree toEmit = (None, tree, toEmit).
Proof.
  induction runtimes as [|rt rest IH]; intros Hall; simpl; [done|].
  assert (Hrest : recomputeStatuses now nodes rest tree toEmit = (None, tree, toEmit)).
  { apply IH. intros rt' Hin. apply Hall. by right. }
  case_bool_decide as Hk; [done|].
  destruct (Hall rt) as (s & Hs & Hm); [by left | done|].
  unfold previousStatus in Hs. unfold stateStatus.
  destruct (tree !! rtID rt) as [raw|]; [|done]. simpl in Hs. rewrite Hs. simpl.
  by rewrite bool_decide_false by (intros Hc; by apply Hc).
Qed.

(** X23: [onEpochChange] is idempotent.  After a run that succeeds, a
    second run over the same registry state stores nothing and emits no
    event, provided the recomputed statuses survive their coding and no two
    key manager runtimes share an id. *)
Theorem onEpochChange_idempotent (ctx ctx' : Context) :
  NoDup (keyManagerIds (regRuntimes ctx)) ->
  (forall rt, rt ∈ regRuntimes ctx -> Kind rt = KindKeyManager ->
     let s := recomputed (KeyManager.now ctx) (SortNodeList (regNodes ctx))
                (kmTree ctx) rt in
     unmarshalStatus (marshalStatus s) = Some s) ->
  onEpochChange ctx = (None, ctx') ->
  onEpochChange ctx' = (None, ctx').
Proof.
  intros Hnd Hrt Hrun. unfold KeyManager.onEpochChange in Hrun.
  destruct (recomputeStatuses _ _ _ _ _) as [[[err|] tree] toEmit] eqn:Hrec;
    [discriminate|].
  apply recomputeStatuses_spec in Hrec as (_ & Hs & _); [|done].
  injection Hrun as <-. unfold KeyManager.onEpochChange. simpl.
  rewrite recomputeStatuses_fixed; [by destruct ctx|].
  intros rt Hin Hk. specialize (Hs rt Hin Hk). specialize (Hrt rt Hin Hk).
  simpl in Hrt. unfold previousStatus at 1. rewrite Hs.
  unfold KeyManager.changed in *.
  destruct (previousStatus unmarshalStatus (kmTree ctx) rt) as [old|] eqn:Hold.
  - case_bool_decide as Hch.
    + simpl. rewrite Hrt. eexists; split; [done|].
      unfold KeyManager.recomputed. by rewrite generateStatus_idempotent.
    + exists old. split; [exact Hold|].
      unfold KeyManager.recomputed in Hch.
      by rewrite Hold in Hch.
  - simpl. rewrite Hrt. eexists; split; [done|].
    unfold KeyManager.recomputed. by rewrite generateStatus_idempotent.
Qed.

(** The error of the loop names a key manager runtime whose record is
    stored in the returned tree and does not decode. *)
Lemma recomputeStatuses_error now nodes runtimes :
  forall tree toEmit err tree' toEmit',
  recomputeStatuses now nodes runtimes tree toEmit = (Some err, tree', toEmit') ->
  exists rt raw,
    rt ∈ runtimes /\ Kind rt = KindKeyManager /\ err = ErrStatusQuery (rtID rt) /\
    tree' !! rtID rt = Some raw /\ unmarshalStatus raw = None.
Proof.
  induction runtimes as [|rt rest IH]; intros tree toEmit err tree' toEmit'; simpl;
    [discriminate|].
  assert (Hrest : forall tree toEmit,
            recomputeStatuses now nodes rest tree toEmit = (Some err, tree', toEmit') ->
            exists rt' raw,
              rt' ∈ rt :: rest /\ Kind rt' = KindKeyManager /\
              err = ErrStatusQuery (rtID rt') /\
              tree' !! rtID rt' = Some raw /\ unmarshalStatus raw = None).
  { intros tree0 toEmit0 H. apply IH in H as (rt' & raw & Hin & H).
    exists rt', raw. split; [by right | done]. }
  case_bool_decide as Hk; [apply Hrest|].
  unfold stateStatus.
  destruct (tree !! rtID rt) as [raw|] eqn:Hraw.
  - destruct (unmarshalStatus raw) as [old|] eqn:Hold.
    + simpl. destruct (bool_decide _); apply Hrest.
    + intros [= <- <- <-]. exists rt, raw. split; [by left | done].
  - simpl. apply Hrest.
Qed.

(** No error where every stored record decodes and every status survives
    its coding; the records of the resulting tree decode as well. *)
Lemma recomputeStatuses_succeeds now nodes runtimes :
  (forall s, is_Some (unmarshalStatus (marshalStatus s))) ->
  forall tree toEmit,
  (forall id raw, tree !! id = Some raw -> is_Some (unmarshalStatus raw)) ->
  (recomputeStatuses now nodes runtimes tree toEmit).1.1 = None /\
  (forall id raw, (recomputeStatuses now nodes runtimes tree toEmit).1.2 !! id = Some raw ->
                  is_Some (unmarshalStatus raw)).
Proof.
  intros Hrt. induction runtimes as [|rt rest IH]; intros tree toEmit Hdec; simpl;
    [done|].
  case_bool_decide as Hk; [by apply IH|].
  unfold stateStatus.
  destruct (tree !! rtID rt) as [raw|] eqn:Hraw.
  - destruct (Hdec _ _ Hraw) as [old Hold]. rewrite Hold. simpl.
    destruct (bool_decide _); [|by apply IH].
    apply IH. intros id raw'. unfold SetStatus. rewrite lookup_insert.
    case_decide; [intros [= <-]; apply Hrt | apply Hdec].
  - simpl. apply IH. intros id raw'. unfold SetStatus. rewrite lookup_insert.
    case_decide; [intros [= <-]; apply Hrt | apply Hdec].
Qed.

(** X24: [onEpochChange] fails only on a corrupt store: its error names a
    key manager runtime of the registry whose stored record does not
    decode, and no event is emitted. *)
Theorem onEpochChange_error (ctx ctx' : Context) (err : error) :
  onEpochChange ctx = (Some err, ctx') ->
  events ctx' = events ctx /\
  exists rt raw,
    rt ∈ regRuntimes ctx /\ Kind rt = KindKeyManager /\
    err = ErrStatusQuery (rtID rt) /\
    kmTree ctx' !! rtID rt = Some raw /\ unmarshalStatus raw = None.
Proof.
  unfold KeyManager.onEpochChange.
  destruct (recomputeStatuses _ _ _ _ _) as [[[e|] tree] toEmit] eqn:Hrec;
    [|discriminate].
  intros [= <- <-]. simpl. split; [done|].
  by apply recomputeStatuses_error in Hrec.
Qed.

(** X25: [onEpochChange] succeeds on a sound store: when every stored
    record decodes and every status can be decoded from its coding, it
    returns no error, and every record of the resulting store decodes
    again. *)
Theorem onEpochChange_succeeds (ctx : Context) :
  (forall s, is_Some (unmarshalStatus (marshalStatus s))) ->
  (forall id raw, kmTree ctx !! id = Some raw -> is_Some (unmarshalStatus raw)) ->
  exists ctx',
    onEpochChange ctx = (None, ctx') /\
    forall id raw, kmTree ctx' !! id = Some raw -> is_Some (unmarshalStatus raw).
Proof.
  intros Hrt Hdec.
  destruct (recomputeStatuses_succeeds (KeyManager.now ctx)
              (SortNodeList (regNodes ctx)) (regRuntimes ctx) Hrt (kmTree ctx) [] Hdec)
    as [Hok Hdec'].
  unfold KeyManager.onEpochChange.
  destruct (recomputeStatuses _ _ _ _ _) as [[[e|] tree] toEmit]; [discriminate|].
  eexists. split; [done|]. exact Hdec'.
Qed.

End Recompute.

Lemma onEpochChange_idempotent_witness :
  let run := onEpochChange 4 (fun _ => []) (fun p => p) testMarshalStatus
               testUnmarshalStatus testVerify (fun l => l) in
  run (run kmContext).2 = (None, (run kmContext).2).
Proof.
  intros run.
  apply (onEpochChange_idempotent 4 (fun _ => []) (fun p => p) testMarshalStatus
           testUnmarshalStatus testVerify (fun l => l) kmContext).
  - vm_compute. repeat constructor. apply not_elem_of_nil.
  - intros rt Hin _. apply list_elem_of_singleton in Hin. subst rt.
    vm_compute. reflexivity.
  - vm_compute. reflexivity.
Defined.

Lemma onEpochChange_error_witness :
  let r := onEpochChange 4 (fun _ => []) (fun p => p) testMarshalStatus
             testUnmarshalStatus testVerify (fun l => l) corruptContext in
  r.1 = Some (ErrStatusQuery 9) /\ events r.2 = events corruptContext.
Proof.
  intros r. split; [vm_compute; reflexivity|].
  apply (onEpochChange_error 4 (fun _ => []) (fun p => p) testMarshalStatus
           testUnmarshalStatus testVerify (fun l => l) corruptContext r.2
           (ErrStatusQuery 9)).
  vm_compute. reflexivity.
Defined.

Lemma onEpochChange_succeeds_witness :
  exists ctx',
    onEpochChange 4 (fun _ => []) (fun p => p) testMarshalStatus
      testUnmarshalStatus testVerify (fun l => l) kmContext = (None, ctx') /\
    forall id raw, kmTree ctx' !! id = Some raw ->
                   is_Some (testUnmarshalStatus raw).
Proof.
  apply (onEpochChange_succeeds 4 (fun _ => []) (fun p => p) testMarshalStatus
           testUnmarshalStatus testVerify (fun l => l) kmContext).
  - intros s. simpl. by eexists.
  - intros id raw H. vm_compute in H. discriminate.
Defined.

End KeyManagerSpec.
